(** * CycleMaps: the elevation and gradient profile engine

    A shallow embedding of the route builder ([static/js/shared.js]) and of
    the route detail page, with the properties of the engine's specification
    stated over it.

    Conventions of the embedding.

    - The geodesic code, which needs [Math.sin], [Math.cos], [Math.sqrt]
      and [Math.atan2], is given twice.  [GeodesicFloat] is the code: it
      computes on binary64 numbers with the rounding of every operation and
      with [NaN], over the [Math] functions of the runtime.  [GeodesicMath]
      is the value of the same formula in exact arithmetic, over the real
      numbers [R]; what is proved over it is a fact of the formula and
      holds of the code up to rounding only.
    - The chart, grade and hover code, which only uses field operations and
      comparisons, is written over the rationals [Q] (every finite double
      is a rational) so that it runs.  Rounding is not modelled there.  A
      division whose divisor is zero has no rational value and is reported
      as [None].
    - Arrays are lists; an out-of-range read is JavaScript's [undefined] and
      is written out where the code can meet it.
    - A coordinate [[lng, lat]] is an array object: [===] and [!==] on two
      coordinates compare references, not contents.
    - Asynchronous code is a step function on an explicit state: one event
      per resumption of a suspended [async] function. *)

From Stdlib Require Import String.
From Stdlib Require Import List Arith Lia Bool ZArith QArith Qabs Qminmax Qround.
From Stdlib Require Import Reals Lra Psatz.
From Stdlib Require PrimFloat.
Import ListNotations.
Close Scope Q_scope.
Close Scope Z_scope.
Close Scope R_scope.
Open Scope nat_scope.

(* ===================================================================== *)
(** * GeodesicMath *)
(* ===================================================================== *)

(** The formula of [haversine] in exact arithmetic.  The doubles of the
    code are in [GeodesicFloat]. *)
Module GeodesicMath.
Local Open Scope R_scope.

(** [Math.atan2(y, x)] on finite arguments (ECMAScript, sec. Math.atan2). *)
Definition atan2 (y x : R) : R :=
  if Rlt_dec 0 x then atan (y / x)
  else if Rlt_dec x 0 then
         if Rle_dec 0 y then atan (y / x) + PI else atan (y / x) - PI
  else if Rlt_dec 0 y then PI / 2
  else if Rlt_dec y 0 then - (PI / 2)
  else 0.

(** The argument of the two square roots in [haversine]:
    [Math.sin(dLat/2)**2 + Math.cos(lat1*Math.PI/180)
       * Math.cos(lat2*Math.PI/180) * Math.sin(dLon/2)**2]. *)
Definition hav_a (lat1 lon1 lat2 lon2 : R) : R :=
  let dLat := (lat2 - lat1) * PI / 180 in
  let dLon := (lon2 - lon1) * PI / 180 in
  (sin (dLat / 2)) ^ 2
  + cos (lat1 * PI / 180) * cos (lat2 * PI / 180) * (sin (dLon / 2)) ^ 2.

(** [function haversine(lat1, lon1, lat2, lon2)]: distance in km. *)
Definition haversine (lat1 lon1 lat2 lon2 : R) : R :=
  let R0 := 6371 in
  let a := hav_a lat1 lon1 lat2 lon2 in
  R0 * 2 * atan2 (sqrt a) (sqrt (1 - a)).

Lemma atan_nonneg (x : R) : 0 <= x -> 0 <= atan x.
Proof.
  intros [Hx | <-].
  - left. rewrite <- atan_0. now apply atan_increasing.
  - rewrite atan_0. lra.
Qed.

Lemma atan2_nonneg (y x : R) : 0 <= y -> 0 <= x -> 0 <= atan2 y x.
Proof.
  intros Hy Hx. unfold atan2.
  destruct (Rlt_dec 0 x) as [Hpos | Hnpos].
  - apply atan_nonneg. unfold Rdiv.
    apply Rmult_le_pos; [exact Hy | left; now apply Rinv_0_lt_compat].
  - destruct (Rlt_dec x 0) as [Hneg | _]; [lra |].
    destruct (Rlt_dec 0 y) as [_ | _].
    + pose proof PI_RGT_0. lra.
    + destruct (Rlt_dec y 0); lra.
Qed.

Lemma atan2_0_1 : atan2 0 1 = 0.
Proof.
  unfold atan2. destruct (Rlt_dec 0 1) as [_ | H]; [| lra].
  replace (0 / 1) with 0 by field. apply atan_0.
Qed.

Lemma sin_sqr_neg (x : R) : (sin (- x)) ^ 2 = (sin x) ^ 2.
Proof. rewrite sin_neg. ring. Qed.

Lemma hav_a_sym (lat1 lon1 lat2 lon2 : R) :
  hav_a lat1 lon1 lat2 lon2 = hav_a lat2 lon2 lat1 lon1.
Proof.
  unfold hav_a; cbv zeta.
  replace ((lat1 - lat2) * PI / 180 / 2) with (- ((lat2 - lat1) * PI / 180 / 2))
    by field.
  replace ((lon1 - lon2) * PI / 180 / 2) with (- ((lon2 - lon1) * PI / 180 / 2))
    by field.
  rewrite !sin_sqr_neg. ring.
Qed.

Lemma hav_a_same (lat lon : R) : hav_a lat lon lat lon = 0.
Proof.
  unfold hav_a; cbv zeta.
  replace ((lat - lat) * PI / 180 / 2) with 0 by field.
  replace ((lon - lon) * PI / 180 / 2) with 0 by field.
  rewrite sin_0. ring.
Qed.

(** The quantity under the square roots is always within [0, 1], so
    neither [Math.sqrt] is applied outside its domain. *)
Lemma hav_a_range (lat1 lon1 lat2 lon2 : R) :
  0 <= hav_a lat1 lon1 lat2 lon2 <= 1.
Proof.
  unfold hav_a; cbv zeta.
  set (p1 := lat1 * PI / 180). set (p2 := lat2 * PI / 180).
  set (u := (lat2 - lat1) * PI / 180 / 2).
  set (v := (lon2 - lon1) * PI / 180 / 2).
  assert (Hu : p2 - p1 = 2 * u) by (unfold p1, p2, u; field).
  pose proof (cos_minus p2 p1) as Hm.
  pose proof (cos_plus p2 p1) as Hp.
  pose proof (COS_bound (p2 + p1)) as [Hp1 Hp2].
  pose proof (COS_bound (2 * u)) as [Hm1 Hm2].
  rewrite Hu in Hm.
  pose proof (cos_2a_sin u) as H2.
  pose proof (sin2_cos2 v) as Hv. unfold Rsqr in Hv.
  assert (Hc : 0 <= cos v * cos v) by nra.
  replace (sin u ^ 2) with (sin u * sin u) by ring.
  replace (sin v ^ 2) with (sin v * sin v) by ring.
  set (h := sin v * sin v) in *.
  assert (Hh0 : 0 <= h) by (unfold h; nra).
  assert (Hh1 : h <= 1) by lra.
  set (cm := cos (2 * u)) in *. set (cp := cos (p2 + p1)) in *.
  assert (Hcc : cos p1 * cos p2 = (cm + cp) / 2) by lra.
  assert (Hsu : sin u * sin u = (1 - cm) / 2) by lra.
  rewrite Hcc, Hsu.
  assert (0 <= (1 - cm) * (1 - h)) by (apply Rmult_le_pos; lra).
  assert (0 <= (1 + cm) * (1 - h)) by (apply Rmult_le_pos; lra).
  assert (0 <= (1 + cp) * h) by (apply Rmult_le_pos; lra).
  assert (0 <= (1 - cp) * h) by (apply Rmult_le_pos; lra).
  split; lra.
Qed.

End GeodesicMath.

(* ===================================================================== *)
(** * GeodesicFloat *)
(* ===================================================================== *)

(** [haversine] and the loop of cumulative distances as the code computes
    them: on binary64 numbers, with the rounding of every operation.
    [+], [-], [*], [/] and [Math.sqrt] are the IEEE 754 operations;
    [x ** 2] is [x * x]; [NaN] is a value.  [Math.sin], [Math.cos] and
    [Math.atan2] are left to the runtime by ECMAScript ("implementation-
    approximated") and are parameters. *)
Module GeodesicFloat.
Import PrimFloat.
Local Open Scope float_scope.

(** The runtime's [Math.sin], [Math.cos] and [Math.atan2]. *)
Record Runtime : Type := mkRuntime {
  sin : float -> float;
  cos : float -> float;
  atan2 : float -> float -> float;
}.

(** [Math.PI] *)
Definition PI : float := 0x1.921fb54442d18p+1.

Section Haversine.

Variable M : Runtime.

(** [Math.sin(dLat/2)**2 + Math.cos(lat1*Math.PI/180)
       * Math.cos(lat2*Math.PI/180) * Math.sin(dLon/2)**2] *)
Definition hav_a (lat1 lon1 lat2 lon2 : float) : float :=
  let dLat := (lat2 - lat1) * PI / 180 in
  let dLon := (lon2 - lon1) * PI / 180 in
  sin M (dLat / 2) * sin M (dLat / 2)
  + cos M (lat1 * PI / 180) * cos M (lat2 * PI / 180)
    * (sin M (dLon / 2) * sin M (dLon / 2)).

(** [function haversine(lat1, lon1, lat2, lon2)] *)
Definition haversine (lat1 lon1 lat2 lon2 : float) : float :=
  let R0 := 6371 in
  let a := hav_a lat1 lon1 lat2 lon2 in
  R0 * 2 * atan2 M (sqrt a) (sqrt (1 - a)).

(** A coordinate [[lng, lat]]. *)
Record Coord : Type := mkCoord { lng : float; lat : float }.

(** The loop that follows [const distances = [0];]:
    [distances.push(distances[i - 1] + haversine(lat1, lng1, lat2, lng2))] *)
Fixpoint accumulate (prev : Coord) (acc : float) (rest : list Coord)
  : list float :=
  match rest with
  | [] => []
  | c :: rest' =>
      let d := haversine (lat prev) (lng prev) (lat c) (lng c) in
      (acc + d) :: accumulate c (acc + d) rest'
  end.

Definition cumulative_distances (sampled : list Coord) : list float :=
  0 :: match sampled with
       | [] => []
       | c :: rest => accumulate c 0 rest
       end.

End Haversine.

(** Two points of the globe that are nearly antipodal,
    (lat -86.991, lng -82.928) and (lat 86.991, lng 97.072). *)
Definition south : Coord :=
  {| lng := -0x1.4bb645a1cac08p+6; lat := -0x1.5bf6c8b439581p+6 |}.
Definition north : Coord :=
  {| lng := 0x1.8449ba5e353f8p+6; lat := 0x1.5bf6c8b439581p+6 |}.

(** What the two points ask of the runtime: the values ECMAScript
    prescribes ([Math.sin(0)] is 0, [Math.atan2(0, 1)] is 0,
    [Math.atan2] of a [NaN] is [NaN]), and the sine and the cosine of
    86.991 degrees and of 90 degrees in radians, rounded to the nearest
    double:
    [Math.sin(1.5182793696023873)] is [0.9986213015217271],
    [Math.cos(1.5182793696023873)] and [Math.cos(-1.5182793696023873)]
    are [0.052492819957131856], and [Math.sin(1.5707963267948966)] is 1. *)
Record rounds_to_nearest_here (M : Runtime) : Prop := {
  sin_zero : sin M 0 = 0;
  sin_lat : sin M 0x1.84adf4eea23d7p+0 = 0x1.ff4b4a8e3fe24p-1;
  sin_right : sin M 0x1.921fb54442d18p+0 = 1;
  cos_lat : cos M 0x1.84adf4eea23d7p+0 = 0x1.ae056c1fb3cb2p-5;
  cos_lat_neg : cos M (-0x1.84adf4eea23d7p+0) = 0x1.ae056c1fb3cb2p-5;
  atan2_zero : atan2 M 0 1 = 0;
  atan2_nan : forall y, atan2 M y nan = nan;
}.

(** A runtime reduced to these entries; any other argument is answered
    with [NaN]. *)
Definition tabulated : Runtime :=
  {| sin := fun x =>
              if eqb x 0 then 0
              else if eqb x 0x1.84adf4eea23d7p+0 then 0x1.ff4b4a8e3fe24p-1
              else if eqb x 0x1.921fb54442d18p+0 then 1
              else nan;
     cos := fun x =>
              if eqb (abs x) 0x1.84adf4eea23d7p+0 then 0x1.ae056c1fb3cb2p-5
              else nan;
     atan2 := fun y x =>
                if is_nan y || is_nan x then nan
                else if eqb y 0 && ltb 0 x then 0
                else nan |}.

End GeodesicFloat.

(* ===================================================================== *)
(** * Sampler *)
(* ===================================================================== *)

Module Sampler.

(** [const maxSamples = 80;] *)
Definition maxSamples : nat := 80.

Section Sampling.

(** The type of coordinate objects and JavaScript's [===] on them
    (reference identity of the [[lng, lat]] arrays). *)
Variable A : Type.
Variable same_ref : A -> A -> bool.

(** [for (let i = 0; i < coords.length; i += step)
      { sampled.push(coords[i]); indices.push(i); }]
    The two arrays grow in lockstep.  [None] means the fuel ran out. *)
Fixpoint sample_loop (fuel : nat) (coords : list A) (step i : nat)
  : option (list A * list nat) :=
  match fuel with
  | O => None
  | S fuel' =>
      if i <? length coords then
        match nth_error coords i, sample_loop fuel' coords step (i + step) with
        | Some c, Some (sampled, indices) => Some (c :: sampled, i :: indices)
        | _, _ => None
        end
      else Some ([], [])
  end.

(** The sampling block of [fetchElevation]: stride, loop, and the forced
    last point
    [if (sampled.length > 0 &&
         sampled[sampled.length - 1] !== coords[coords.length - 1]) ...].
    The detail page omits the [sampled.length > 0] test and only runs this
    with at least two coordinates, where the test is true. *)
Definition sample (coords : list A) : option (list A * list nat) :=
  let step := Nat.max 1 (length coords / maxSamples) in
  match sample_loop (S (length coords)) coords step 0 with
  | None => None
  | Some (sampled, indices) =>
      match nth_error sampled (length sampled - 1),
            nth_error coords (length coords - 1) with
      | Some a, Some b =>
          if same_ref a b then Some (sampled, indices)
          else Some (sampled ++ [b], indices ++ [length coords - 1])
      | _, _ => Some (sampled, indices)
      end
  end.

(** A path geometry as the routing collaborators produce it
    ([JSON.parse], [decodePolyline6], [Array.map]): every position holds
    an array object of its own. *)
Definition distinct_objects (coords : list A) : Prop :=
  forall i j a b,
    nth_error coords i = Some a -> nth_error coords j = Some b ->
    (same_ref a b = true <-> i = j).

(** What the loop leaves in [sampled] and [indices]. *)
Record loop_post (coords : list A) (i : nat)
       (sampled : list A) (indices : list nat) : Prop := {
  lp_lookup : Forall2 (fun c k => nth_error coords k = Some c) sampled indices;
  lp_bounds : Forall (fun k => i <= k < length coords) indices;
  lp_sorted : forall j k, j < k < length indices ->
                          nth j indices 0 < nth k indices 0;
  lp_head : i < length coords -> nth_error indices 0 = Some i;
}.

Lemma sample_loop_total (coords : list A) (step : nat) :
  1 <= step ->
  forall fuel i, length coords - i < fuel ->
    exists sampled indices,
      sample_loop fuel coords step i = Some (sampled, indices)
      /\ loop_post coords i sampled indices.
Proof.
  intros Hstep. induction fuel as [| fuel IH]; intros i Hfuel; [lia |].
  cbn [sample_loop].
  destruct (Nat.ltb_spec i (length coords)) as [Hlt | Hge].
  - destruct (nth_error coords i) as [c |] eqn:Hc.
    2: { apply nth_error_None in Hc. lia. }
    destruct (IH (i + step)) as (sampled & indices & -> & Hp); [lia |].
    exists (c :: sampled), (i :: indices). split; [reflexivity |].
    destruct Hp as [Hl Hb Hs Hh]. constructor.
    + now constructor.
    + constructor; [lia |].
      eapply Forall_impl; [| exact Hb]. cbv beta. intros; lia.
    + intros j k Hjk. cbn [length] in Hjk.
      destruct k as [| k]; [lia |]. cbn [nth].
      destruct j as [| j].
      * assert (Hin : In (nth k indices 0) indices) by (apply nth_In; lia).
        rewrite Forall_forall in Hb. specialize (Hb _ Hin). cbv beta in Hb.
        cbn [nth]. lia.
      * cbn [nth]. apply Hs. lia.
    + reflexivity.
  - exists [], []. split; [reflexivity |]. constructor.
    + constructor.
    + constructor.
    + cbn [length]. intros; lia.
    + intros; lia.
Qed.

(** The shape of the sample set: it exists, pairs each sampled object
    with its position, starts at position 0, ends at the last position
    and has strictly increasing positions. *)
Record sample_set (coords : list A)
       (sampled : list A) (indices : list nat) : Prop := {
  ss_lookup : Forall2 (fun c k => nth_error coords k = Some c) sampled indices;
  ss_first : nth_error indices 0 = Some 0;
  ss_last : nth_error indices (length indices - 1) = Some (length coords - 1);
  ss_sorted : forall j k, j < k < length indices ->
                          nth j indices 0 < nth k indices 0;
}.

Lemma Forall2_lookup_nth (coords sampled : list A) (indices : list nat) :
  Forall2 (fun c k => nth_error coords k = Some c) sampled indices ->
  forall n a, nth_error sampled n = Some a ->
    exists k, nth_error indices n = Some k /\ nth_error coords k = Some a.
Proof.
  induction 1 as [| c k sampled' indices' Hck HF IH]; intros n a Ha.
  - destruct n; discriminate.
  - destruct n as [| n]; cbn [nth_error] in *.
    + injection Ha as <-. eauto.
    + now apply IH.
Qed.

Lemma Forall2_lookup_last (coords sampled : list A) (indices : list nat) :
  Forall2 (fun c k => nth_error coords k = Some c) sampled indices ->
  forall a, nth_error sampled (length sampled - 1) = Some a ->
    exists k, nth_error indices (length indices - 1) = Some k
              /\ nth_error coords k = Some a.
Proof.
  intros HF a Ha. rewrite <- (Forall2_length HF).
  eapply Forall2_lookup_nth; eassumption.
Qed.

Lemma sample_wf (coords : list A) :
  2 <= length coords -> distinct_objects coords ->
  exists sampled indices,
    sample coords = Some (sampled, indices)
    /\ sample_set coords sampled indices.
Proof.
  intros Hm Hdist. unfold sample.
  set (step := Nat.max 1 (length coords / maxSamples)).
  destruct (sample_loop_total coords step (Nat.le_max_l _ _)
              (S (length coords)) 0) as (sampled & indices & -> & Hp);
    [lia |].
  destruct Hp as [Hl Hb Hs Hh].
  specialize (Hh ltac:(lia)).
  assert (Hlen : length sampled = length indices)
    by (eapply Forall2_length; eassumption).
  assert (Hne : 0 < length indices).
  { destruct indices; [discriminate | cbn; lia]. }
  destruct (nth_error sampled (length sampled - 1)) as [a |] eqn:Ha.
  2: { apply nth_error_None in Ha. lia. }
  destruct (nth_error coords (length coords - 1)) as [b |] eqn:Hb'.
  2: { apply nth_error_None in Hb'. lia. }
  destruct (Forall2_lookup_last _ _ _ Hl _ Ha) as (k & Hk & Hka).
  destruct (same_ref a b) eqn:Hab.
  - exists sampled, indices. split; [reflexivity |].
    apply (Hdist _ _ _ _ Hka Hb') in Hab. subst k.
    constructor; assumption.
  - exists (sampled ++ [b]), (indices ++ [length coords - 1]).
    split; [reflexivity |].
    assert (Hkne : k <> length coords - 1).
    { intros ->. assert (a = b) by congruence. subst b.
      assert (same_ref a a = true) by (now apply (Hdist _ _ _ _ Hka Hka)).
      congruence. }
    assert (Hall : forall j, j < length indices ->
                             nth j indices 0 < length coords - 1).
    { intros j Hj.
      assert (Hkv : nth (length indices - 1) indices 0 = k)
        by (now apply nth_error_nth).
      assert (Hkb : k < length coords).
      { apply nth_error_Some. congruence. }
      destruct (Nat.eq_dec j (length indices - 1)) as [-> | Hjne].
      - lia.
      - specialize (Hs j (length indices - 1) ltac:(lia)). lia. }
    constructor.
    + apply Forall2_app; [exact Hl |]. constructor; [exact Hb' | constructor].
    + destruct indices; [cbn in Hne; lia | exact Hh].
    + rewrite length_app. cbn [length].
      replace (length indices + 1 - 1) with (length indices) by lia.
      rewrite nth_error_app2, Nat.sub_diag by lia. reflexivity.
    + intros j k' Hjk. rewrite length_app in Hjk. cbn [length] in Hjk.
      destruct (Nat.lt_ge_cases k' (length indices)) as [Hk' | Hk'].
      * rewrite !app_nth1 by lia. apply Hs. lia.
      * rewrite (app_nth2 indices _ 0 (n := k')) by lia.
        replace (k' - length indices) with 0 by lia. cbn [nth].
        rewrite app_nth1 by lia. apply Hall. lia.
Qed.


Lemma sample_loop_length (coords : list A) (step : nat) :
  1 <= step ->
  forall fuel i sampled indices,
    sample_loop fuel coords step i = Some (sampled, indices) ->
    length indices * step <= (length coords - i) + (step - 1).
Proof.
  intros Hstep. induction fuel as [| fuel IH]; intros i sampled indices;
    cbn [sample_loop]; [discriminate |].
  destruct (Nat.ltb_spec i (length coords)) as [Hlt | Hge].
  - destruct (nth_error coords i) as [c |]; [| discriminate].
    destruct (sample_loop fuel coords step (i + step))
      as [[sampled' indices'] |] eqn:Hrec; [| discriminate].
    intros [= <- <-]. specialize (IH _ _ _ Hrec). cbn [length].
    rewrite Nat.mul_succ_l.
    destruct (length indices') as [| n]; [lia |].
    assert (step <= S n * step) by nia. lia.
  - intros [= <- <-]. cbn. lia.
Qed.

Lemma increasing_above_position (l : list nat) :
  (forall j k, j < k < length l -> nth j l 0 < nth k l 0) ->
  forall k, k < length l -> k <= nth k l 0.
Proof.
  intros Hinc. induction k as [| k IH]; intros Hk; [lia |].
  specialize (Hinc k (S k) ltac:(lia)). specialize (IH ltac:(lia)). lia.
Qed.

(** What the stride does bound: a sample set never has more than
    [2 * maxSamples - 1] entries. *)
Lemma sample_length_bound (coords sampled : list A) (indices : list nat) :
  2 <= length coords -> distinct_objects coords ->
  sample coords = Some (sampled, indices) ->
  length indices <= 2 * maxSamples - 1.
Proof.
  intros Hm Hdist Hsample.
  destruct (Nat.lt_ge_cases (length coords) (2 * maxSamples)) as [Hsmall | Hbig].
  - destruct (sample_wf coords Hm Hdist) as (sampled' & indices' & E & Hset).
    rewrite Hsample in E. injection E as <- <-.
    destruct Hset as [_ Hfirst Hlast Hsorted].
    assert (Hne : 0 < length indices).
    { destruct indices; [discriminate | cbn; lia]. }
    pose proof (increasing_above_position indices Hsorted
                  (length indices - 1) ltac:(lia)) as Hpos.
    rewrite (nth_error_nth _ _ 0 Hlast) in Hpos. lia.
  - unfold sample in Hsample.
    set (step := Nat.max 1 (length coords / maxSamples)) in *.
    destruct (sample_loop (S (length coords)) coords step 0)
      as [[sampled0 indices0] |] eqn:Hloop; [| discriminate].
    pose proof (sample_loop_length coords step (Nat.le_max_l _ _)
                  _ _ _ _ Hloop) as Hlen.
    assert (Hstep : 2 <= step /\ length coords < maxSamples * (step + 1)).
    { unfold step, maxSamples in *.
      pose proof (Nat.div_mod_eq (length coords) 80) as Hdiv.
      pose proof (Nat.mod_upper_bound (length coords) 80 ltac:(lia)) as Hmod.
      lia. }
    assert (Hl0 : length indices0 <= 120).
    { unfold maxSamples in *. nia. }
    assert (Hfinal : length indices <= length indices0 + 1).
    { destruct (nth_error sampled0 (length sampled0 - 1)) as [a |];
        [| injection Hsample as <- <-; lia].
      destruct (nth_error coords (length coords - 1)) as [b |];
        [| injection Hsample as <- <-; lia].
      destruct (same_ref a b); injection Hsample as <- <-;
        [lia | rewrite length_app; cbn; lia]. }
    unfold maxSamples. lia.
Qed.

End Sampling.

(** A path of [m] distinct coordinate objects, named by their positions. *)
Definition path_of_length (m : nat) : list nat := seq 0 m.

End Sampler.

(* ===================================================================== *)
(** * JavaScript values of the elevation response *)
(* ===================================================================== *)

Module JS.

(** The scalars [JSON.parse] can put in the response, and [undefined] for
    a property that is absent.  Numbers are finite. *)
Inductive value : Type :=
| Undefined
| Null
| Bool (b : bool)
| Num (q : Q)
| Str (s : string).

(** [v == null] *)
Definition loose_eq_null (v : value) : bool :=
  match v with
  | Undefined | Null => true
  | _ => false
  end.

(** [ToBoolean(v)]: the test of [v || 0] and of [if (v)]. *)
Definition truthy (v : value) : bool :=
  match v with
  | Undefined | Null => false
  | Bool b => b
  | Num q => negb (Qeq_bool q 0)
  | Str s => negb (String.eqb s EmptyString)
  end.

(** [a || b] *)
Definition or_else (a b : value) : value := if truthy a then a else b.

Section Builtins.

(** Whether [StringToNumber] of the runtime maps a string to [NaN]. *)
Variable string_is_nan : string -> bool.

(** The global [isNaN(v)], that is [ToNumber(v)] is [NaN]. *)
Definition isNaN (v : value) : bool :=
  match v with
  | Undefined => true
  | Null => false
  | Bool _ => false
  | Num _ => false
  | Str s => string_is_nan s
  end.

End Builtins.

End JS.

(* ===================================================================== *)
(** * ProfileBuilder *)
(* ===================================================================== *)

Module ProfileBuilder.
Import JS.

(** A coordinate [[lng, lat]]: an array object with an identity. *)
Record Coord : Type := mkCoord { ref : nat; lng : R; lat : R }.

(** [a === b] on two coordinate arrays. *)
Definition same_ref (a b : Coord) : bool := Nat.eqb (ref a) (ref b).

(** The parsed body of the elevation lookup. *)
Record Response : Type := mkResponse {
  elevations : option (list value);
  elevation_gain_m : value;
}.

(** [routeElevations]. *)
Record Profile : Type := mkProfile {
  p_elevations : option (list value);
  p_distances : list R;
  p_coordinates : list Coord;
  p_indices : list nat;
}.

(** The loop that follows [const distances = [0];]:
    [distances.push(distances[i - 1] + haversine(lat1, lng1, lat2, lng2))],
    where [prev] is [sampled[i - 1]] and [acc] is [distances[i - 1]]. *)
Fixpoint accumulate (prev : Coord) (acc : R) (rest : list Coord) : list R :=
  match rest with
  | [] => []
  | c :: rest' =>
      let d := GeodesicMath.haversine (lat prev) (lng prev) (lat c) (lng c) in
      (acc + d)%R :: accumulate c (acc + d)%R rest'
  end.

Definition cumulative_distances (sampled : list Coord) : list R :=
  0%R :: match sampled with
         | [] => []
         | c :: rest => accumulate c 0%R rest
         end.

Section Builder.

Variable string_is_nan : string -> bool.

(** [if (data.elevations[i] == null || isNaN(data.elevations[i]))
       data.elevations[i] = 0;] *)
Definition sanitize_entry (v : value) : value :=
  if loose_eq_null v || isNaN string_is_nan v then Num 0 else v.

Definition sanitize (elevs : list value) : list value :=
  map sanitize_entry elevs.

(** Route builder, [fetchElevation] after [const data = await resp.json()]
    on a request that was not cancelled: the new values of
    [routeElevationGain] and [routeElevations]. *)
Definition on_elevation_data (data : Response)
           (sampled : list Coord) (indices : list nat) : value * Profile :=
  let elevs := option_map sanitize (elevations data) in
  let routeElevationGain := or_else (elevation_gain_m data) (Num 0) in
  (routeElevationGain,
   {| p_elevations := elevs;
      p_distances := cumulative_distances sampled;
      p_coordinates := sampled;
      p_indices := indices |}).

End Builder.

(** Route detail page, [fetchElevation] after [const data = await
    resp.json()]: [routeElevations] takes [data.elevations] as it comes;
    the gain is only shown, when truthy, and is stored nowhere. *)
Definition on_elevation_data_detail (data : Response)
           (sampled : list Coord) (indices : list nat) : option value * Profile :=
  let shown := if truthy (elevation_gain_m data)
               then Some (elevation_gain_m data) else None in
  (shown,
   {| p_elevations := elevations data;
      p_distances := cumulative_distances sampled;
      p_coordinates := sampled;
      p_indices := indices |}).

(** The response [{ elevations: [null, 120, 130] }], without a gain. *)
Definition null_then_climb : Response :=
  {| elevations := Some [Null; Num 120; Num 130];
     elevation_gain_m := Undefined |}.

(** The gain as the specification words it: the sum of the positive
    differences between consecutive elevations. *)
Fixpoint spec_gain_from_deltas (elevs : list Q) : Q :=
  match elevs with
  | e0 :: ((e1 :: _) as rest) =>
      (if Qle_bool e1 e0 then 0 else e1 - e0) + spec_gain_from_deltas rest
  | _ => 0
  end%Q.

Lemma accumulate_lower_bound (rest : list Coord) :
  forall prev acc, Forall (fun d => (acc <= d)%R) (accumulate prev acc rest).
Proof.
  induction rest as [| c rest IH]; intros prev acc; cbn [accumulate].
  - constructor.
  - assert (Hd : (0 <= GeodesicMath.haversine (lat prev) (lng prev)
                                               (lat c) (lng c))%R).
    { unfold GeodesicMath.haversine; cbv zeta.
      pose proof (GeodesicMath.atan2_nonneg _ _ (sqrt_pos
        (GeodesicMath.hav_a (lat prev) (lng prev) (lat c) (lng c)))
        (sqrt_pos (1 - GeodesicMath.hav_a (lat prev) (lng prev)
                                           (lat c) (lng c)))).
      nra. }
    constructor; [lra |].
    eapply Forall_impl; [| apply IH]. cbv beta. intros; lra.
Qed.

Lemma accumulate_monotone (rest : list Coord) :
  forall prev acc i,
    S i < length (acc :: accumulate prev acc rest) ->
    (nth i (acc :: accumulate prev acc rest) 0
     <= nth (S i) (acc :: accumulate prev acc rest) 0)%R.
Proof.
  induction rest as [| c rest IH]; intros prev acc i Hi.
  - cbn in Hi. lia.
  - cbn [accumulate] in *. destruct i as [| i].
    + cbn [nth].
      pose proof (accumulate_lower_bound (c :: rest) prev acc) as Hb.
      cbn [accumulate] in Hb. inversion Hb; subst. assumption.
    + change (nth (S i) (acc :: ?l) 0%R) with (nth i l 0%R).
      change (nth (S (S i)) (acc :: ?l) 0%R) with (nth (S i) l 0%R).
      apply IH. cbn [length] in *. lia.
Qed.

Lemma sanitize_entry_cases (f : string -> bool) (v : value) :
  (loose_eq_null v = true \/ isNaN f v = true -> sanitize_entry f v = Num 0)
  /\ (loose_eq_null v = false -> isNaN f v = false -> sanitize_entry f v = v).
Proof.
  unfold sanitize_entry. split.
  - intros [-> | ->]; [reflexivity | now rewrite orb_true_r].
  - now intros -> ->.
Qed.

(** Distinct references are what [Sampler.distinct_objects] asks for. *)
Lemma distinct_refs (coords : list Coord) :
  NoDup (map ref coords) -> Sampler.distinct_objects Coord same_ref coords.
Proof.
  intros Hnd i j a b Ha Hb. unfold same_ref. rewrite Nat.eqb_eq. split.
  - intros Hab. rewrite NoDup_nth_error in Hnd. apply Hnd.
    + rewrite length_map. apply nth_error_Some. congruence.
    + rewrite !nth_error_map, Ha, Hb. cbn. now rewrite Hab.
  - intros ->. congruence.
Qed.

Lemma sanitize_length (f : string -> bool) (elevs : list value) :
  length (sanitize f elevs) = length elevs.
Proof. apply length_map. Qed.

Lemma sanitize_nth (f : string -> bool) (elevs : list value) (i : nat) (v : value) :
  nth_error elevs i = Some v ->
  nth_error (sanitize f elevs) i = Some (sanitize_entry f v).
Proof. intros H. unfold sanitize. now rewrite nth_error_map, H. Qed.

(** The route builder keeps every sample of the response and replaces
    exactly the entries that are [null], [undefined] or [NaN] under
    [isNaN]. *)
Lemma builder_sanitizes (f : string -> bool) (data : Response)
      (sampled : list Coord) (indices : list nat) (elevs : list value) :
  elevations data = Some elevs ->
  exists elevs',
    p_elevations (snd (on_elevation_data f data sampled indices)) = Some elevs'
    /\ length elevs' = length elevs
    /\ forall i v, nth_error elevs i = Some v ->
                   nth_error elevs' i = Some (sanitize_entry f v).
Proof.
  intros He. exists (sanitize f elevs). cbn. rewrite He. cbn.
  split; [reflexivity |]. split; [apply sanitize_length |].
  intros i v. apply sanitize_nth.
Qed.

End ProfileBuilder.

(* ===================================================================== *)
(** * Rational arithmetic of the chart and grade code *)
(* ===================================================================== *)

Module Num.
Local Open Scope Q_scope.

(** [x < y] *)
Definition ltb (x y : Q) : bool := negb (Qle_bool y x).

(** [a / b]; [None] when the divisor is zero. *)
Definition checked_div (a b : Q) : option Q :=
  if Qeq_bool b 0 then None else Some (a / b).

Lemma ltb_lt (x y : Q) : ltb x y = true <-> x < y.
Proof.
  unfold ltb. rewrite negb_true_iff.
  destruct (Qle_bool y x) eqn:E.
  - apply Qle_bool_iff in E. split; [discriminate | intros H].
    exfalso. apply (Qlt_irrefl x). eapply Qlt_le_trans; eassumption.
  - split; [intros _ | reflexivity].
    apply Qnot_le_lt. intros H. apply Qle_bool_iff in H. congruence.
Qed.

Lemma ltb_ge (x y : Q) : ltb x y = false <-> y <= x.
Proof.
  unfold ltb. rewrite negb_false_iff. apply Qle_bool_iff.
Qed.

End Num.

(* ===================================================================== *)
(** * GradientSegmenter *)
(* ===================================================================== *)

Module GradientSegmenter.
Local Open Scope Q_scope.

(** [const rise = e1 - e0; const run = (d1 - d0) * 1000;
     const grade = run > 0 ? Math.abs(rise / run) * 100 : 0;] *)
Definition grade (e0 e1 d0 d1 : Q) : option Q :=
  let rise := e1 - e0 in
  let run := (d1 - d0) * 1000 in
  if Num.ltb 0 run
  then option_map (fun q => Qabs q * 100) (Num.checked_div rise run)
  else Some 0.

(** The grade of segment [i] of a profile.  [elevs[i]] and [elevs[i + 1]]
    exist inside the loops that use this; a missing [dists] entry is
    [undefined], [run] is then [NaN], [run > 0] is false and the grade
    is 0. *)
Definition segment_grade (elevs dists : list Q) (i : nat) : option Q :=
  match nth_error elevs i, nth_error elevs (i + 1),
        nth_error dists i, nth_error dists (i + 1) with
  | Some e0, Some e1, Some d0, Some d1 => grade e0 e1 d0 d1
  | _, _, _, _ => Some 0
  end.

Section Segments.

(** Coordinates, and what an out-of-range array read yields. *)
Variable A : Type.
Variable undefined : A.

(** [arr.slice(start, end)] on non-negative integers. *)
Definition slice (l : list A) (start stop : nat) : list A :=
  firstn (stop - start) (skipn start l).

(** A GeoJSON feature of the gradient overlay. *)
Record Feature : Type := mkFeature {
  f_grade : option Q;
  f_coordinates : list A;
}.

(** One iteration of the loop of [applyGradientColoring]: the feature
    pushed for segment [i], or nothing on [continue]. *)
Definition feature_at (elevs dists : list Q) (indices : option (list nat))
           (coords allCoords : list A) (i : nat) : list Feature :=
  let fallback := [nth i coords undefined; nth (i + 1) coords undefined] in
  let segCoords :=
    match indices with
    | Some idx =>
        match nth_error idx i, nth_error idx (i + 1) with
        | Some a, Some b => slice allCoords a (b + 1)
        | _, _ => fallback
        end
    | None => fallback
    end in
  if (length segCoords <? 2)%nat then []
  else [ {| f_grade := segment_grade elevs dists i;
            f_coordinates := segCoords |} ].

(** [applyGradientColoring]: the features handed to the map source, or
    [None] when the function returns before touching the overlay. *)
Definition applyGradientColoring (elevs dists : list Q)
           (indices : option (list nat)) (coords allCoords : list A)
  : option (list Feature) :=
  if (length elevs <? 2)%nat then None
  else Some (flat_map (feature_at elevs dists indices coords allCoords)
                      (seq 0 (length elevs - 1))).

(** Segments laid end to end, a shared boundary point written once. *)
Definition stitch (segs : list (list A)) : list A :=
  match segs with
  | [] => []
  | s :: rest => s ++ flat_map (@tl A) rest
  end.

End Segments.

Arguments mkFeature {A}.
Arguments f_grade {A}.
Arguments f_coordinates {A}.

End GradientSegmenter.

(* ===================================================================== *)
(** * ChartRenderer *)
(* ===================================================================== *)

Module ChartRenderer.
Local Open Scope Q_scope.

(** [Math.min(...elevs)] and [Math.max(...elevs)] of a non-empty array. *)
Definition min_list (e : Q) (rest : list Q) : Q := fold_left Qmin rest e.
Definition max_list (e : Q) (rest : list Q) : Q := fold_left Qmax rest e.

(** [const elevRange = maxElev - minElev || 1;] *)
Definition elevRange (minElev maxElev : Q) : Q :=
  if Qeq_bool (maxElev - minElev) 0 then 1 else maxElev - minElev.

(** The fill colour of an extremum marker: ['#ef4444'] for a peak,
    ['#22c55e'] for a valley. *)
Inductive Marker : Type := Peak | Valley.

(** [isPeak] and [isValley] at an inner index. *)
Definition isPeak (prev cur next range : Q) : bool :=
  Num.ltb prev cur && Num.ltb next cur
  && Num.ltb (range * (8 # 100)) (cur - Qmin prev next).

Definition isValley (prev cur next range : Q) : bool :=
  Num.ltb cur prev && Num.ltb cur next
  && Num.ltb (range * (8 # 100)) (Qmax prev next - cur).

(** One iteration of the loop under [// Mark peaks and valleys]. *)
Definition marker_at (elevs : list Q) (range : Q) (i : nat)
  : list (nat * Marker) :=
  match nth_error elevs (i - 1), nth_error elevs i, nth_error elevs (i + 1) with
  | Some prev, Some cur, Some next =>
      let p := isPeak prev cur next range in
      let v := isValley prev cur next range in
      if p || v then [(i, if p then Peak else Valley)] else []
  | _, _, _ => []
  end.

(** The markers [drawElevationProfile] draws:
    [for (let i = 1; i < elevs.length - 1; i++)].  Nothing is drawn for a
    profile of fewer than two samples. *)
Definition extrema_markers (elevs : list Q) : list (nat * Marker) :=
  match elevs with
  | [] | [_] => []
  | e :: rest =>
      let minElev := min_list e rest in
      let maxElev := max_list e rest in
      let range := elevRange minElev maxElev in
      flat_map (marker_at elevs range) (seq 1 (length elevs - 2))
  end.

End ChartRenderer.

(* ===================================================================== *)
(** * HoverController *)
(* ===================================================================== *)

Module HoverController.
Local Open Scope Q_scope.

(** [let closest = 0;
     for (let i = 1; i < dists.length; i++)
       if (Math.abs(dists[i] - targetDist)
           < Math.abs(dists[closest] - targetDist)) closest = i;]
    Both reads are in range whenever the loop body runs. *)
Definition scan_step (dists : list Q) (targetDist : Q) (closest i : nat) : nat :=
  if Num.ltb (Qabs (nth i dists 0 - targetDist))
             (Qabs (nth closest dists 0 - targetDist))
  then i else closest.

Definition nearest_sample (dists : list Q) (targetDist : Q) : nat :=
  fold_left (scan_step dists targetDist) (seq 1 (length dists - 1)) 0%nat.

End HoverController.

(* ===================================================================== *)
(** * FetchCoordinator *)
(* ===================================================================== *)

(** The route builder's [queryOSRM] and [fetchElevation] as an event-driven
    machine.  A state holds the builder's variables, the part of the page
    the elevation code writes, and what the runtime keeps for it: pending
    timers and suspended [async] calls.  An event is one callback of the
    runtime.  The surface lookup and [routeDistance] are left out: no
    transition of the elevation protocol reads them. *)

Module FetchCoordinator.

Section Coordinator.

Variable W : Type.                      (* a waypoint *)
Variable Coord : Type.                  (* a coordinate object *)
Variable same_ref : Coord -> Coord -> bool.
Variable Data : Type.                   (* a parsed elevation response *)
Variable Profile : Type.                (* [routeElevations] *)
Variable Gain : Type.                   (* [routeElevationGain] *)
Variable zero : Gain.                   (* [0] *)
Variable positive : Gain -> bool.       (* [routeElevationGain > 0] *)

(** The code between [if (signal.aborted) return;] and [updateStats()]. *)
Variable build : Data -> list Coord -> list nat -> Gain * Profile.

(** [routeElevations.elevations.length]; [None] when [elevations] is
    [undefined] and reading its length throws. *)
Variable n_elevations : Profile -> option nat.

(** The text of the [stat-elevation] element. *)
Inductive StatText : Type :=
| Dash                (* ['\u2014'] *)
| Loading             (* ['...'] *)
| Error               (* ['Error'] *)
| Shown (g : Gain).   (* [formatElevation(routeElevationGain)] *)

(** Where a suspended call of [fetchElevation] waits. *)
Inductive Phase : Type :=
| AwaitFetch          (* [await fetch('/api/elevation', ...)] *)
| AwaitErrBody        (* [await resp.json().catch(() => ({}))] *)
| AwaitBody.          (* [await resp.json()] *)

(** A suspended call of [fetchElevation]: its [signal], its [sampled] and
    [indices], and the number of edits its geometry had seen. *)
Record ElevReq : Type := mkElevReq {
  rid : nat;
  aborted : bool;
  phase : Phase;
  r_sampled : list Coord;
  r_indices : list nat;
  r_gen : nat;
}.

(** A suspended routing callback, waiting in [await fetch(url)] and then
    in [await resp.json()]; nothing is written between the two. *)
Record RouteReq : Type := mkRouteReq { qid : nat; q_gen : nat }.

(** What an elevation response can write. *)
Record View : Type := mkView {
  routeElevations : option Profile;
  routeElevationGain : Gain;
  statElevation : StatText;
  overlay : option Profile;      (* the [builder-gradient] source *)
  chart : option Profile;        (* the elevation canvas *)
}.

Record State : Type := mkState {
  waypoints : list W;
  routeGeometry : option (list Coord);
  view : View;
  routeTimeout : option nat;
  elevAbortController : option nat;
  timers : list nat;             (* timers that are set and not cleared *)
  routing : list RouteReq;
  elev : list ElevReq;
  next_timer : nat;
  next_route : nat;
  next_ctrl : nat;               (* elevation requests issued so far *)
  edits : nat;                   (* geometry edits so far *)
}.

Definition init : State :=
  {| waypoints := []; routeGeometry := None;
     view := {| routeElevations := None; routeElevationGain := zero;
                statElevation := Dash; overlay := None; chart := None |};
     routeTimeout := None; elevAbortController := None;
     timers := []; routing := []; elev := [];
     next_timer := 0; next_route := 0; next_ctrl := 0; edits := 0 |}.

(** [updateStats()], the elevation half. *)
Definition updateStats (v : View) : View :=
  {| routeElevations := routeElevations v;
     routeElevationGain := routeElevationGain v;
     statElevation := if positive (routeElevationGain v)
                      then Shown (routeElevationGain v) else Dash;
     overlay := overlay v; chart := chart v |}.

Definition set_stat (t : StatText) (v : View) : View :=
  {| routeElevations := routeElevations v;
     routeElevationGain := routeElevationGain v;
     statElevation := t; overlay := overlay v; chart := chart v |}.

(** [clearTimeout(routeTimeout)] *)
Definition clearTimeout (t : option nat) (pending : list nat) : list nat :=
  match t with
  | Some id => remove Nat.eq_dec id pending
  | None => pending
  end.

(** A waypoint edit followed by [queryOSRM()]. *)
Definition queryOSRM (wps : list W) (s : State) : State :=
  let pending := clearTimeout (routeTimeout s) (timers s) in
  if length wps <? 2 then
    {| waypoints := wps; routeGeometry := None;
       view := updateStats
                 {| routeElevations := None; routeElevationGain := zero;
                    statElevation := statElevation (view s);
                    overlay := None; chart := None |};
       routeTimeout := routeTimeout s;
       elevAbortController := elevAbortController s;
       timers := pending; routing := routing s; elev := elev s;
       next_timer := next_timer s; next_route := next_route s;
       next_ctrl := next_ctrl s; edits := S (edits s) |}
  else
    {| waypoints := wps; routeGeometry := routeGeometry s;
       view := view s;
       routeTimeout := Some (next_timer s);
       elevAbortController := elevAbortController s;
       timers := next_timer s :: pending;
       routing := routing s; elev := elev s;
       next_timer := S (next_timer s); next_route := next_route s;
       next_ctrl := next_ctrl s; edits := S (edits s) |}.

(** [window.clearRoute] after the confirmation: the waypoints and the
    route are dropped and the views cleared; the timer and the requests are
    not touched. *)
Definition clearRoute (s : State) : State :=
  {| waypoints := []; routeGeometry := None;
     view := updateStats
               {| routeElevations := None; routeElevationGain := zero;
                  statElevation := statElevation (view s);
                  overlay := None; chart := None |};
     routeTimeout := routeTimeout s;
     elevAbortController := elevAbortController s;
     timers := timers s; routing := routing s; elev := elev s;
     next_timer := next_timer s; next_route := next_route s;
     next_ctrl := next_ctrl s; edits := S (edits s) |}.

(** [elevAbortController.abort()] *)
Definition abort (c : option nat) (reqs : list ElevReq) : list ElevReq :=
  match c with
  | Some id =>
      map (fun r => if rid r =? id
                    then {| rid := rid r; aborted := true; phase := phase r;
                            r_sampled := r_sampled r; r_indices := r_indices r;
                            r_gen := r_gen r |}
                    else r) reqs
  | None => reqs
  end.

(** The state with new suspended elevation calls and a new view. *)
Definition with_elev (s : State) (reqs : list ElevReq) (v : View) : State :=
  {| waypoints := waypoints s; routeGeometry := routeGeometry s;
     view := v;
     routeTimeout := routeTimeout s;
     elevAbortController := elevAbortController s;
     timers := timers s; routing := routing s; elev := reqs;
     next_timer := next_timer s; next_route := next_route s;
     next_ctrl := next_ctrl s; edits := edits s |}.

(** [fetchElevation()] up to its first [await]: the guard, the abort of
    the previous controller, the loading text, the sampling and the
    request.  [gen] is the number of edits the geometry had seen. *)
Definition fetchElevation (gen : nat) (s : State) : option State :=
  match routeGeometry s with
  | None => Some s
  | Some coords =>
      if length coords <? 2 then Some s
      else
        match Sampler.sample Coord same_ref coords with
        | None => None
        | Some (sampled, indices) =>
            Some {| waypoints := waypoints s;
                    routeGeometry := routeGeometry s;
                    view := set_stat Loading (view s);
                    routeTimeout := routeTimeout s;
                    elevAbortController := Some (next_ctrl s);
                    timers := timers s; routing := routing s;
                    elev := {| rid := next_ctrl s; aborted := false;
                               phase := AwaitFetch; r_sampled := sampled;
                               r_indices := indices; r_gen := gen |}
                            :: abort (elevAbortController s) (elev s);
                    next_timer := next_timer s; next_route := next_route s;
                    next_ctrl := S (next_ctrl s); edits := edits s |}
        end
  end.

(** What the routing collaborator answers. *)
Inductive RouteResult : Type :=
| NoRoute                       (* [data.code !== 'Ok'] or no routes *)
| RouteError                    (* the [catch] branch *)
| Route (geometry : list Coord).

(** How an [await] of [fetchElevation] settles. *)
Inductive ElevSettle : Type :=
| FetchResolved (ok : bool)     (* [resp.ok] *)
| FetchRejected
| BodyData (d : Data)
| BodyRejected
| ErrBodySettled.

Inductive Event : Type :=
| Edit (wps : list W)           (* add, drag or remove, then [queryOSRM()] *)
| ClearRoute                    (* [window.clearRoute], confirmed *)
| TimerFire (t : nat)
| RouteSettled (q : nat) (r : RouteResult)
| ElevSettled (id : nat) (e : ElevSettle).

Definition set_phase (id : nat) (ph : Phase) (reqs : list ElevReq)
  : list ElevReq :=
  map (fun r => if rid r =? id
                then {| rid := rid r; aborted := aborted r; phase := ph;
                        r_sampled := r_sampled r; r_indices := r_indices r;
                        r_gen := r_gen r |}
                else r) reqs.

Definition without (id : nat) (reqs : list ElevReq) : list ElevReq :=
  filter (fun r => negb (rid r =? id)) reqs.

(** [updateStats(); applyGradientColoring(); drawElevationProfile();]
    after [routeElevationGain] and [routeElevations] are assigned.
    [applyGradientColoring] leaves the overlay alone when the profile has
    fewer than two elevations or there is no geometry;
    [drawElevationProfile] hides the chart below two elevations.  Without
    [elevations] the first read of its length throws, and the [catch]
    branch writes ['Error']. *)
Definition apply_profile (s : State) (g : Gain) (p : Profile) : View :=
  let v := updateStats
             {| routeElevations := Some p; routeElevationGain := g;
                statElevation := statElevation (view s);
                overlay := overlay (view s); chart := chart (view s) |} in
  match n_elevations p with
  | None => set_stat Error v
  | Some n =>
      {| routeElevations := routeElevations v;
         routeElevationGain := routeElevationGain v;
         statElevation := statElevation v;
         overlay := if n <? 2 then overlay v
                    else match routeGeometry s with
                         | None => overlay v
                         | Some _ => Some p
                         end;
         chart := if n <? 2 then None else Some p |}
  end.

(** The continuation of a suspended [fetchElevation] call [r] when its
    [await] settles with [e]. *)
Definition resume (s : State) (r : ElevReq) (e : ElevSettle) : option State :=
  let id := rid r in
  match phase r, e with
  | AwaitFetch, FetchResolved true =>
      Some (with_elev s (set_phase id AwaitBody (elev s)) (view s))
  | AwaitFetch, FetchResolved false =>
      Some (with_elev s (set_phase id AwaitErrBody (elev s)) (view s))
  | AwaitErrBody, ErrBodySettled =>
      Some (with_elev s (without id (elev s)) (set_stat Error (view s)))
  | AwaitFetch, FetchRejected | AwaitBody, BodyRejected =>
      (* [if (err.name === 'AbortError') return;] *)
      Some (with_elev s (without id (elev s))
                      (if aborted r then view s else set_stat Error (view s)))
  | AwaitBody, BodyData d =>
      (* [if (signal.aborted) return;] *)
      if aborted r then Some (with_elev s (without id (elev s)) (view s))
      else
        let (g, p) := build d (r_sampled r) (r_indices r) in
        Some (with_elev s (without id (elev s)) (apply_profile s g p))
  | _, _ => None
  end.

(** One callback.  [None]: the runtime cannot deliver this event here. *)
Definition step (s : State) (ev : Event) : option State :=
  match ev with
  | Edit wps => Some (queryOSRM wps s)
  | ClearRoute => Some (clearRoute s)
  | TimerFire t =>
      if existsb (Nat.eqb t) (timers s) then
        Some {| waypoints := waypoints s; routeGeometry := routeGeometry s;
                view := view s; routeTimeout := routeTimeout s;
                elevAbortController := elevAbortController s;
                timers := remove Nat.eq_dec t (timers s);
                routing := {| qid := next_route s; q_gen := edits s |}
                           :: routing s;
                elev := elev s;
                next_timer := next_timer s; next_route := S (next_route s);
                next_ctrl := next_ctrl s; edits := edits s |}
      else None
  | RouteSettled q res =>
      match find (fun rq => qid rq =? q) (routing s) with
      | None => None
      | Some rq =>
          let waiting := filter (fun rq' => negb (qid rq' =? q)) (routing s) in
          let settled geometry v :=
            {| waypoints := waypoints s; routeGeometry := geometry;
               view := v; routeTimeout := routeTimeout s;
               elevAbortController := elevAbortController s;
               timers := timers s; routing := waiting; elev := elev s;
               next_timer := next_timer s; next_route := next_route s;
               next_ctrl := next_ctrl s; edits := edits s |} in
          match res with
          | NoRoute | RouteError => Some (settled (routeGeometry s) (view s))
          | Route g =>
              fetchElevation (q_gen rq)
                             (settled (Some g) (updateStats (view s)))
          end
      end
  | ElevSettled id e =>
      match find (fun r => rid r =? id) (elev s) with
      | None => None
      | Some r => resume s r e
      end
  end.

(** A run of callbacks. *)
Fixpoint run (s : State) (evs : list Event) : option State :=
  match evs with
  | [] => Some s
  | ev :: rest =>
      match step s ev with
      | Some s' => run s' rest
      | None => None
      end
  end.

Definition reachable (s : State) : Prop :=
  exists evs, run init evs = Some s.

(** The elevation requests that are in flight and not cancelled. *)
Definition active (s : State) : list ElevReq :=
  filter (fun r => negb (aborted r)) (elev s).

(** ** Invariant of the cancellation discipline *)

(** Requests carry distinct controller ids below [next_ctrl]; the
    current controller is the one issued last; a request that is not
    cancelled is the one issued last. *)
Record inv (s : State) : Prop := {
  inv_nodup : NoDup (map rid (elev s));
  inv_fresh : forall r, In r (elev s) -> rid r < next_ctrl s;
  inv_ctrl : match elevAbortController s with
             | Some c => S c = next_ctrl s
             | None => next_ctrl s = 0
             end;
  inv_latest : forall r, In r (elev s) -> aborted r = false ->
                         S (rid r) = next_ctrl s;
}.

Lemma abort_rids (c : option nat) (reqs : list ElevReq) :
  map rid (abort c reqs) = map rid reqs.
Proof.
  destruct c as [id |]; [| reflexivity]. cbn [abort].
  rewrite map_map. apply map_ext. intros r. now destruct (rid r =? id).
Qed.

Lemma in_abort (c : option nat) (reqs : list ElevReq) (r' : ElevReq) :
  In r' (abort c reqs) ->
  exists r, In r reqs /\ rid r' = rid r
            /\ (aborted r' = false -> aborted r = false /\ c <> Some (rid r)).
Proof.
  destruct c as [id |]; cbn [abort].
  - rewrite in_map_iff. intros (r & <- & Hr). exists r.
    destruct (Nat.eqb_spec (rid r) id) as [-> | Hne]; cbn.
    + repeat split; try assumption; discriminate.
    + repeat split; try assumption. congruence.
  - intros Hr. exists r'. repeat split; try assumption. discriminate.
Qed.

Lemma set_phase_rids (id : nat) (ph : Phase) (reqs : list ElevReq) :
  map rid (set_phase id ph reqs) = map rid reqs.
Proof.
  unfold set_phase. rewrite map_map. apply map_ext.
  intros r. now destruct (rid r =? id).
Qed.

Lemma in_set_phase (id : nat) (ph : Phase) (reqs : list ElevReq)
      (r' : ElevReq) :
  In r' (set_phase id ph reqs) ->
  exists r, In r reqs /\ rid r' = rid r /\ aborted r' = aborted r.
Proof.
  unfold set_phase. rewrite in_map_iff. intros (r & <- & Hr). exists r.
  destruct (rid r =? id); cbn; auto.
Qed.

Lemma in_without (id : nat) (reqs : list ElevReq) (r : ElevReq) :
  In r (without id reqs) -> In r reqs.
Proof. unfold without. rewrite filter_In. tauto. Qed.

Lemma NoDup_map_filter {X Y : Type} (f : X -> Y) (p : X -> bool)
      (l : list X) :
  NoDup (map f l) -> NoDup (map f (filter p l)).
Proof.
  induction l as [| x l IH]; intros H; [constructor |].
  cbn [map filter] in *. inversion H as [| ? ? Hx Hl]; subst.
  destruct (p x); [| now apply IH].
  cbn [map]. constructor; [| now apply IH].
  rewrite in_map_iff in *. intros (y & Hy & Hin). apply Hx.
  exists y. split; [exact Hy |]. apply filter_In in Hin. tauto.
Qed.

Lemma inv_with_elev (s : State) (reqs : list ElevReq) (v : View) :
  inv s ->
  NoDup (map rid reqs) ->
  (forall r', In r' reqs ->
              exists r, In r (elev s) /\ rid r' = rid r
                        /\ (aborted r' = false -> aborted r = false)) ->
  inv (with_elev s reqs v).
Proof.
  intros [Hnd Hfr Hc Hl] Hnd' Hsub. constructor; cbn.
  - exact Hnd'.
  - intros r' Hr'. destruct (Hsub _ Hr') as (r & Hr & -> & _). now apply Hfr.
  - exact Hc.
  - intros r' Hr' Hab. destruct (Hsub _ Hr') as (r & Hr & -> & Hab').
    apply Hl; auto.
Qed.

Lemma inv_init : inv init.
Proof. constructor; cbn; try constructor; intros r []. Qed.

Lemma inv_queryOSRM (wps : list W) (s : State) :
  inv s -> inv (queryOSRM wps s).
Proof.
  intros [Hnd Hfr Hc Hl]. unfold queryOSRM.
  destruct (length wps <? 2); constructor; cbn; assumption.
Qed.

Lemma inv_fetchElevation (gen : nat) (s s' : State) :
  inv s -> fetchElevation gen s = Some s' -> inv s'.
Proof.
  intros Hinv. unfold fetchElevation.
  destruct (routeGeometry s) as [coords |]; [| now intros [= <-]].
  destruct (length coords <? 2); [now intros [= <-] |].
  destruct (Sampler.sample Coord same_ref coords) as [[sampled indices] |];
    [| discriminate].
  intros [= <-]. destruct Hinv as [Hnd Hfr Hc Hl]. constructor; cbn.
  - constructor.
    + rewrite abort_rids, in_map_iff. intros (r & Hr & Hin).
      apply Hfr in Hin. lia.
    + now rewrite abort_rids.
  - intros r [<- | Hr]; [cbn; lia |].
    destruct (in_abort _ _ _ Hr) as (r0 & Hr0 & -> & _).
    apply Hfr in Hr0. lia.
  - reflexivity.
  - intros r [<- | Hr] Hab; [reflexivity |].
    destruct (in_abort _ _ _ Hr) as (r0 & Hr0 & Hid & Hna).
    destruct (Hna Hab) as [Hab0 Hne]. exfalso.
    pose proof (Hl _ Hr0 Hab0) as Hlast.
    destruct (elevAbortController s) as [c |].
    + apply Hne. f_equal. lia.
    + apply Hfr in Hr0. lia.
Qed.

Lemma inv_resume (s s' : State) (r : ElevReq) (e : ElevSettle) :
  inv s -> resume s r e = Some s' -> inv s'.
Proof.
  intros Hinv. pose proof (inv_nodup _ Hinv) as Hnd.
  assert (Hwo : forall v, inv (with_elev s (without (rid r) (elev s)) v)).
  { intros v. apply inv_with_elev; [assumption | |].
    - now apply NoDup_map_filter.
    - intros r' Hr'. exists r'. apply in_without in Hr'. auto. }
  assert (Hph : forall ph v,
             inv (with_elev s (set_phase (rid r) ph (elev s)) v)).
  { intros ph v. apply inv_with_elev; [assumption | |].
    - now rewrite set_phase_rids.
    - intros r' Hr'. destruct (in_set_phase _ _ _ _ Hr') as (r0 & ? & ? & E).
      exists r0. rewrite E. auto. }
  unfold resume.
  destruct (phase r), e as [[|] | | d | |]; try discriminate;
    try (intros [= <-]; auto).
  destruct (aborted r); [intros [= <-]; auto |].
  destruct (build d (r_sampled r) (r_indices r)) as [g p].
  intros [= <-]. auto.
Qed.

Lemma inv_step (s s' : State) (ev : Event) :
  inv s -> step s ev = Some s' -> inv s'.
Proof.
  intros Hinv. destruct ev as [wps | | t | q res | id e]; cbn [step].
  - intros [= <-]. now apply inv_queryOSRM.
  - intros [= <-]. destruct Hinv. constructor; assumption.
  - destruct (existsb _ _); [| discriminate]. intros [= <-].
    destruct Hinv. constructor; assumption.
  - destruct (find _ (routing s)) as [rq |]; [| discriminate].
    destruct res as [| | g].
    + intros [= <-]. destruct Hinv. constructor; assumption.
    + intros [= <-]. destruct Hinv. constructor; assumption.
    + apply inv_fetchElevation. destruct Hinv. constructor; assumption.
  - destruct (find _ (elev s)) as [r |]; [| discriminate].
    now apply inv_resume.
Qed.

Lemma inv_run (evs : list Event) :
  forall s s', inv s -> run s evs = Some s' -> inv s'.
Proof.
  induction evs as [| ev evs IH]; intros s s' Hinv; cbn [run].
  - now intros [= <-].
  - destruct (step s ev) as [s1 |] eqn:Hstep; [| discriminate].
    apply IH. eapply inv_step; eassumption.
Qed.

Lemma inv_reachable (s : State) : reachable s -> inv s.
Proof. intros (evs & Hrun). eapply inv_run; [apply inv_init | exact Hrun]. Qed.

(** ** Invariant of the debounce timer *)

(** A pending timer is the one [routeTimeout] names. *)
Definition debounced (s : State) : Prop :=
  timers s = [] \/ exists t, timers s = [t] /\ routeTimeout s = Some t.

Lemma debounced_clear (s : State) :
  debounced s -> clearTimeout (routeTimeout s) (timers s) = [].
Proof.
  intros [E | (t & E & Ht)]; rewrite E.
  - now destruct (routeTimeout s).
  - rewrite Ht. cbn. now destruct (Nat.eq_dec t t).
Qed.




Lemma find_by_rid (reqs : list ElevReq) (r : ElevReq) :
  NoDup (map rid reqs) -> In r reqs ->
  find (fun x => rid x =? rid r) reqs = Some r.
Proof.
  induction reqs as [| x reqs IH]; intros Hnd Hin; [destruct Hin |].
  cbn [map find] in *. inversion Hnd as [| ? ? Hx Hnd']; subst.
  destruct Hin as [-> | Hin].
  - now rewrite Nat.eqb_refl.
  - destruct (Nat.eqb_spec (rid x) (rid r)) as [E | _]; [| now apply IH].
    exfalso. apply Hx. rewrite E. now apply in_map.
Qed.


End Coordinator.

Arguments Edit {W Coord Data}.
Arguments ClearRoute {W Coord Data}.
Arguments TimerFire {W Coord Data}.
Arguments RouteSettled {W Coord Data}.
Arguments ElevSettled {W Coord Data}.
Arguments NoRoute {Coord}.
Arguments RouteError {Coord}.
Arguments Route {Coord}.
Arguments FetchResolved {Data}.
Arguments FetchRejected {Data}.
Arguments BodyData {Data}.
Arguments BodyRejected {Data}.
Arguments ErrBodySettled {Data}.
Arguments Dash {Gain}.
Arguments Loading {Gain}.
Arguments Error {Gain}.
Arguments Shown {Gain}.
Arguments mkElevReq {Coord}.
Arguments rid {Coord}.
Arguments aborted {Coord}.
Arguments phase {Coord}.
Arguments r_gen {Coord}.
Arguments view {W Coord Profile Gain}.
Arguments elev {W Coord Profile Gain}.
Arguments edits {W Coord Profile Gain}.
Arguments next_ctrl {W Coord Profile Gain}.
Arguments active {W Coord Profile Gain}.
Arguments with_elev {W Coord Profile Gain}.
Arguments without {Coord}.
Arguments routeElevations {Profile Gain}.
Arguments routeElevationGain {Profile Gain}.
Arguments statElevation {Profile Gain}.
Arguments overlay {Profile Gain}.
Arguments chart {Profile Gain}.

End FetchCoordinator.

(** A builder session with numbered payloads: waypoints and coordinate
    objects are numbers, a response is a number, and the profile built
    from response [d] is [d] itself, with gain [d]. *)
Module Session.
Import FetchCoordinator.

Definition build (d : nat) (_ : list nat) (_ : list nat) : nat * nat := (d, d).

Definition init := FetchCoordinator.init nat nat nat nat 0.

Definition step :=
  FetchCoordinator.step nat nat Nat.eqb nat nat nat 0 (Nat.ltb 0) build
                        (fun _ => Some 2).

Definition run :=
  FetchCoordinator.run nat nat Nat.eqb nat nat nat 0 (Nat.ltb 0) build
                       (fun _ => Some 2).

Definition reachable :=
  FetchCoordinator.reachable nat nat Nat.eqb nat nat nat 0 (Nat.ltb 0) build
                             (fun _ => Some 2).

(** A route is drawn and its elevation request (number 0) has received
    its headers; then the user edits the route again. *)
Definition edit_during_fetch : list (Event nat nat nat) :=
  [ Edit [1; 2]; TimerFire 0; RouteSettled 0 (Route [0; 1; 2]);
    ElevSettled 0 (FetchResolved true);
    Edit [1; 2; 3] ].

(** The same, and the debounce timer of the second edit has fired and the
    new route has arrived: request 1 is issued and request 0 cancelled. *)
Definition second_request : list (Event nat nat nat) :=
  edit_during_fetch ++ [ TimerFire 1; RouteSettled 1 (Route [0; 1; 2; 3]) ].

Definition state_after (evs : list (Event nat nat nat)) : State nat nat nat nat :=
  match run init evs with
  | Some s => s
  | None => init
  end.


End Session.

(** The route builder itself: the machine over the coordinates, responses
    and profiles of [ProfileBuilder]. *)
Module Builder.

Section Runtime.

(** [StringToNumber] of the runtime, as far as the builder looks at it:
    whether a string converts to [NaN], and whether it converts to a
    number above 0. *)
Variable string_is_nan : string -> bool.
Variable string_positive : string -> bool.

(** [routeElevationGain > 0] *)
Definition gain_positive (g : JS.value) : bool :=
  match g with
  | JS.Undefined | JS.Null => false
  | JS.Bool b => b
  | JS.Num q => Num.ltb 0 q
  | JS.Str s => string_positive s
  end.

(** [routeElevations.elevations.length] *)
Definition n_elevations (p : ProfileBuilder.Profile) : option nat :=
  option_map (@length JS.value) (ProfileBuilder.p_elevations p).

Definition State : Type :=
  FetchCoordinator.State (R * R) ProfileBuilder.Coord
                         ProfileBuilder.Profile JS.value.

Definition init : State :=
  FetchCoordinator.init (R * R) ProfileBuilder.Coord
                        ProfileBuilder.Profile JS.value (JS.Num 0).

Definition step :=
  FetchCoordinator.step (R * R) ProfileBuilder.Coord ProfileBuilder.same_ref
                        ProfileBuilder.Response ProfileBuilder.Profile JS.value
                        (JS.Num 0) gain_positive
                        (ProfileBuilder.on_elevation_data string_is_nan)
                        n_elevations.

End Runtime.

End Builder.

(* ===================================================================== *)
(** * Chart layout, hover handler and tooltip *)
(* ===================================================================== *)

(** The geometry of [drawElevationProfile], the [mousemove] handler of
    [setupProfileHover] and the tooltip of [drawProfileHoverOverlay].  A
    value that JavaScript computes as [NaN] or as an infinity (a division
    by zero, arithmetic on a missing array entry) is [None]. *)

Module ChartLayout.
Local Open Scope Q_scope.

(** [const padding = { top: 20, right: 12, bottom: 28, left: 42 };] *)
Definition top : Q := 20.
Definition right : Q := 12.
Definition bottom : Q := 28.
Definition left : Q := 42.

(** [const h = 140;] *)
Definition h : Q := 140.

(** [const chartW = w - padding.left - padding.right;] *)
Definition chartW (w : Q) : Q := w - left - right.

(** [const chartH = h - padding.top - padding.bottom;] *)
Definition chartH : Q := h - top - bottom.

(** [minElev], [maxElev] and [elevRange] of a non-empty [elevs]. *)
Definition minElev (elevs : list Q) : Q :=
  ChartRenderer.min_list (hd 0 elevs) (tl elevs).
Definition maxElev (elevs : list Q) : Q :=
  ChartRenderer.max_list (hd 0 elevs) (tl elevs).
Definition range (elevs : list Q) : Q :=
  ChartRenderer.elevRange (minElev elevs) (maxElev elevs).

(** [padding.top + chartH - ((e - minElev) / elevRange) * chartH] *)
Definition y_of_elevation (elevs : list Q) (e : Q) : option Q :=
  option_map (fun f => top + chartH - f * chartH)
             (Num.checked_div (e - minElev elevs) (range elevs)).

(** [padding.left + (d / dists[dists.length - 1]) * chartW] *)
Definition x_of_distance (dists : list Q) (w d : Q) : option Q :=
  match nth_error dists (length dists - 1) with
  | Some total =>
      option_map (fun f => left + f * chartW w) (Num.checked_div d total)
  | None => None
  end.

(** [points[i]] of the loop under [// Build path points]. *)
Definition point_x (dists : list Q) (w : Q) (i : nat) : option Q :=
  match nth_error dists i with
  | Some d => x_of_distance dists w d
  | None => None
  end.

Definition point_y (elevs : list Q) (i : nat) : option Q :=
  match nth_error elevs i with
  | Some e => y_of_elevation elevs e
  | None => None
  end.

(** The elevation grid, [const elevTicks = 4;]: gridline [i] is drawn at
    [padding.top + (chartH * i / elevTicks)] and is labelled with
    [maxElev - (elevRange * i / elevTicks)]. *)
Definition tick_y (i : nat) : Q := top + chartH * inject_Z (Z.of_nat i) / 4.
Definition tick_value (elevs : list Q) (i : nat) : Q :=
  maxElev elevs - range elevs * inject_Z (Z.of_nat i) / 4.

(** [const KM_TO_MI = 0.621371;] *)
Definition KM_TO_MI : Q := 621371 # 1000000.



(** The [mousemove] handler once [routeElevations] and [_profileCache]
    are there: the sample index handed to the overlay, or [None] when the
    handler returns at [if (frac < 0 || frac > 1) return;].  With a plot of
    width 0 [frac] is an infinity, and the handler returns, or [NaN], and
    then no test of the handler or of the scan is true.  Without distances
    the target is [NaN] and the scan does not run. *)
Definition mousemove (w mx : Q) (dists : list Q) : option nat :=
  if Qeq_bool (chartW w) 0 then
    if Qeq_bool (mx - left) 0 then Some 0%nat else None
  else
    let frac := (mx - left) / chartW w in
    if Num.ltb frac 0 || Num.ltb 1 frac then None
    else
      match nth_error dists (length dists - 1) with
      | Some total => Some (HoverController.nearest_sample dists (frac * total))
      | None => Some 0%nat
      end.

(** The tooltip: [let tx = points[idx].x - tw / 2;
    tx = Math.max(padding.left, Math.min(tx, padding.left + chartW - tw));
    const ty = Math.max(padding.top + 8, points[idx].y - 16);]
    [tx] is the left edge of the box and [ty] the baseline of the text. *)
Definition tooltip_x (w x tw : Q) : Q :=
  Qmax left (Qmin (x - tw / 2) (left + chartW w - tw)).
Definition tooltip_y (y : Q) : Q := Qmax (top + 8) (y - 16).

(** The box of the tooltip, [ctx.roundRect(tx, ty - 14, tw, 20, 4)]: its
    upper and its lower edge. *)
Definition box_top (y : Q) : Q := tooltip_y y - 14.
Definition box_bottom (y : Q) : Q := tooltip_y y - 14 + 20.

(** The hover dot, [ctx.arc(points[idx].x, points[idx].y, 5, 0, ...)]: its
    upper edge. *)
Definition dot_top (y : Q) : Q := y - 5.

(** The grade of the tooltip of the second route builder:
    [const grade = run > 0 ? (rise / run) * 100 : 0;] *)
Definition tooltip_grade (e0 e1 d0 d1 : Q) : option Q :=
  let rise := e1 - e0 in
  let run := (d1 - d0) * 1000 in
  if Num.ltb 0 run
  then option_map (fun q => q * 100) (Num.checked_div rise run)
  else Some 0.

(** [grade >= 0 ? '+' : ''] *)
Definition plus_sign (grade : Q) : bool := Qle_bool 0 grade.

End ChartLayout.

(* ===================================================================== *)
(** * Waypoint editing *)
(* ===================================================================== *)

(** The functions of the route builder that change the waypoints; each of
    them ends in [queryOSRM()].  Markers and the waypoint list of the page
    are not modelled. *)

Module Waypoints.

Section Editing.

Variable W : Type.
Variable Coord : Type.
Variable Profile : Type.
Variable Gain : Type.
Variable zero : Gain.
Variable positive : Gain -> bool.

Local Abbreviation State := (FetchCoordinator.State W Coord Profile Gain).
Local Abbreviation queryOSRM :=
  (FetchCoordinator.queryOSRM W Coord Profile Gain zero positive).

(** [addWaypoint(lng, lat)]: [waypoints.push(wp); ...; queryOSRM();] *)
Definition addWaypoint (w : W) (s : State) : State :=
  queryOSRM (FetchCoordinator.waypoints _ _ _ _ s ++ [w]) s.

(** [removeWaypoint(index)]: [waypoints[index].marker.remove();
    waypoints.splice(index, 1); ...; queryOSRM();].  [None]: the first
    statement throws, there is no waypoint at [index]. *)
Definition removeWaypoint (index : nat) (s : State) : option State :=
  let wps := FetchCoordinator.waypoints _ _ _ _ s in
  if index <? length wps
  then Some (queryOSRM (firstn index wps ++ skipn (S index) wps) s)
  else None.

(** [window.undoWaypoint] *)
Definition undoWaypoint (s : State) : option State :=
  let wps := FetchCoordinator.waypoints _ _ _ _ s in
  if length wps =? 0 then Some s else removeWaypoint (length wps - 1) s.

(** [loadExistingRoute], once the route has arrived:
    [for (const [lng, lat] of wps) { addWaypoint(lng, lat); }] *)
Definition loadExistingRoute (wps : list W) (s : State) : State :=
  fold_left (fun s' w => addWaypoint w s') wps s.

End Editing.

End Waypoints.

(* ===================================================================== *)
(** * Polyline decoding and the routing modes of the first builder *)
(* ===================================================================== *)

(** [decodePolyline6] of the first route builder.  The string is the list
    of its UTF-16 code units.  The accumulators [lat] and [lng] are JavaScript
    numbers that only ever hold integers; they are integers here. *)
Module Polyline.
Local Open Scope Z_scope.

(** [ToInt32], which every bitwise operator applies to its result. *)
Definition to_int32 (x : Z) : Z := (x + 2 ^ 31) mod 2 ^ 32 - 2 ^ 31.

(** The loop
    [do { byte = encoded.charCodeAt(idx++) - 63;
          result |= (byte & 0x1f) << shift; shift += 5;
        } while (byte >= 0x20);]
    where [rest] is [encoded] from [idx] on; the result is paired with the
    string from the new [idx] on.  Past the end [charCodeAt] gives [NaN]:
    [NaN & 0x1f] is 0 and [NaN >= 0x20] is false, so the loop leaves
    [result] as it is and ends.  [<<] takes its shift count modulo 32. *)
Fixpoint read_value (rest : list Z) (shift result : Z) : Z * list Z :=
  match rest with
  | [] => (result, [])
  | c :: rest' =>
      let byte := c - 63 in
      let result' :=
        Z.lor result (to_int32 (Z.shiftl (Z.land byte 31) (shift mod 32))) in
      if 32 <=? byte then read_value rest' (shift + 5) result'
      else (result', rest')
  end.

(** [(result & 1) ? ~(result >> 1) : (result >> 1)] *)
Definition delta (result : Z) : Z :=
  if Z.odd result then Z.lnot (Z.shiftr result 1) else Z.shiftr result 1.

(** [[lng / 1e6, lat / 1e6]] *)
Definition point (lng lat : Z) : Q * Q :=
  ((inject_Z lng / 1000000)%Q, (inject_Z lat / 1000000)%Q).

(** The loop [while (idx < encoded.length) { ... }]; [None]: out of
    fuel. *)
Fixpoint decode_loop (fuel : nat) (rest : list Z) (lat lng : Z)
  : option (list (Q * Q)) :=
  match rest with
  | [] => Some []
  | _ :: _ =>
      match fuel with
      | O => None
      | S fuel' =>
          let '(r1, rest1) := read_value rest 0 0 in
          let lat' := lat + delta r1 in
          let '(r2, rest2) := read_value rest1 0 0 in
          let lng' := lng + delta r2 in
          option_map (cons (point lng' lat'))
                     (decode_loop fuel' rest2 lat' lng')
      end
  end.

Definition decodePolyline6 (encoded : list Z) : option (list (Q * Q)) :=
  decode_loop (length encoded) encoded 0 0.

(** Gravel mode of [queryOSRM]:
    [if (allCoords.length > 0) legCoords.shift();
     allCoords = allCoords.concat(legCoords);] *)
Definition merge_leg (allCoords legCoords : list (Q * Q)) : list (Q * Q) :=
  allCoords ++ (if (0 <? length allCoords)%nat then tl legCoords
                else legCoords).

(** [for (const leg of data.trip.legs) { ... }] over the [shape] strings
    of the legs. *)
Definition merge_legs (shapes : list (list Z)) : option (list (Q * Q)) :=
  fold_left (fun acc shape =>
               match acc, decodePolyline6 shape with
               | Some allCoords, Some legCoords =>
                   Some (merge_leg allCoords legCoords)
               | _, _ => None
               end)
            shapes (Some []).

(** The number a value of the format stands for: its characters are
    base-32 digits [(c - 63) mod 32], the least significant first. *)
Fixpoint base32 (chars : list Z) : Z :=
  match chars with
  | [] => 0
  | c :: rest => (c - 63) mod 32 + 32 * base32 rest
  end.

End Polyline.

(** Straight mode of [queryOSRM] in the first builder: the route is the
    list of waypoints, its length the sum of the great-circle distances
    between neighbours, in metres. *)
Module StraightMode.
Import ProfileBuilder.

(** [for (let i = 1; i < coordsList.length; i++)
       routeDistance += haversine(...) * 1000;]
    with [prev] for [coordsList[i - 1]]. *)
Fixpoint distance_loop (prev : Coord) (routeDistance : R) (rest : list Coord)
  : R :=
  match rest with
  | [] => routeDistance
  | c :: rest' =>
      distance_loop
        c
        (routeDistance
         + GeodesicMath.haversine (lat prev) (lng prev) (lat c) (lng c) * 1000)%R
        rest'
  end.

Definition routeDistance (coordsList : list Coord) : R :=
  match coordsList with
  | [] => 0%R
  | c :: rest => distance_loop c 0%R rest
  end.

End StraightMode.

(** [typeLabel], [typeBg] and [typeColor]. *)
Module TypeStyle.
Import JS.

(** [type === s] for a string literal [s]. *)
Definition strict_eq_str (type : value) (s : string) : bool :=
  match type with
  | Str t => String.eqb t s
  | _ => false
  end.

Definition typeLabel (type : value) : string :=
  if strict_eq_str type "gravel" then "Gravel"%string else "Road"%string.

Definition typeBg (type : value) : string :=
  if strict_eq_str type "road" then "#dbeafe"%string else "#fef3c7"%string.

Definition typeColor (type : value) : string :=
  if strict_eq_str type "road" then "#1d4ed8"%string else "#92400e"%string.

End TypeStyle.

(* ===================================================================== *)
(** * SurfaceCoordinator *)
(* ===================================================================== *)

(** The surface lookup of the route builder, [fetchSurface] and
    [renderSurfaceBar], with what the other callbacks do to its state: a
    routing response stores the geometry and calls [fetchSurface()];
    [queryOSRM] below two waypoints and [clearRoute] drop the geometry and
    the surface data and hide the bar.  As in [FetchCoordinator], a call
    suspended in an [await] is a request in [reqs]. *)
Module SurfaceCoordinator.

Section Coordinator.

Variable Coord : Type.
Variable Data : Type.

(** [data && data.breakdown && data.breakdown.length !== 0]: the test
    under which [renderSurfaceBar] shows the bar. *)
Variable has_breakdown : Data -> bool.

(** Where a call of [fetchSurface] is suspended. *)
Inductive Phase : Type :=
| AwaitFetch                    (* [await fetch('/api/surface', ...)] *)
| AwaitBody.                    (* [await resp.json()] *)

Record Req : Type := mkReq {
  rid : nat;                    (* its [AbortController] *)
  aborted : bool;               (* [signal.aborted] *)
  phase : Phase;
}.

Record State : Type := mkState {
  routeGeometry : option (list Coord);
  routeSurfaceData : option Data;
  bar : option Data;            (* what the surface bar shows; [None]: hidden *)
  surfaceAbortController : option nat;
  reqs : list Req;
  next_ctrl : nat;              (* surface requests issued so far *)
}.

Definition init : State :=
  {| routeGeometry := None; routeSurfaceData := None; bar := None;
     surfaceAbortController := None; reqs := []; next_ctrl := 0 |}.

(** [renderSurfaceBar(data)] on a response. *)
Definition renderSurfaceBar (d : Data) : option Data :=
  if has_breakdown d then Some d else None.

(** [surfaceAbortController.abort()] *)
Definition abort (c : option nat) (l : list Req) : list Req :=
  match c with
  | Some id =>
      map (fun r => if rid r =? id
                    then {| rid := rid r; aborted := true; phase := phase r |}
                    else r) l
  | None => l
  end.

(** [fetchSurface()] up to its first [await]. *)
Definition fetchSurface (s : State) : State :=
  match routeGeometry s with
  | None => s
  | Some coords =>
      if length coords <? 2 then s
      else {| routeGeometry := routeGeometry s;
              routeSurfaceData := routeSurfaceData s;
              bar := bar s;
              surfaceAbortController := Some (next_ctrl s);
              reqs := {| rid := next_ctrl s; aborted := false;
                         phase := AwaitFetch |}
                      :: abort (surfaceAbortController s) (reqs s);
              next_ctrl := S (next_ctrl s) |}
  end.

(** How an [await] of [fetchSurface] settles. *)
Inductive Settle : Type :=
| FetchResolved (ok : bool)     (* [resp.ok] *)
| FetchRejected
| BodyData (d : Data)
| BodyRejected.

Inductive Event : Type :=
| Cleared                       (* [queryOSRM] below two waypoints, [clearRoute] *)
| RouteArrived (geometry : list Coord)
| SurfSettled (id : nat) (e : Settle).

Definition with_reqs (s : State) (l : list Req) : State :=
  {| routeGeometry := routeGeometry s;
     routeSurfaceData := routeSurfaceData s; bar := bar s;
     surfaceAbortController := surfaceAbortController s;
     reqs := l; next_ctrl := next_ctrl s |}.

Definition without (id : nat) (l : list Req) : list Req :=
  filter (fun r => negb (rid r =? id)) l.

Definition set_phase (id : nat) (ph : Phase) (l : list Req) : list Req :=
  map (fun r => if rid r =? id
                then {| rid := rid r; aborted := aborted r; phase := ph |}
                else r) l.

(** The continuation of a suspended [fetchSurface] call [r] when its
    [await] settles with [e]. *)
Definition resume (s : State) (r : Req) (e : Settle) : option State :=
  let id := rid r in
  match phase r, e with
  | AwaitFetch, FetchResolved ok =>
      (* [if (!resp.ok || signal.aborted) return;] *)
      if negb ok || aborted r then Some (with_reqs s (without id (reqs s)))
      else Some (with_reqs s (set_phase id AwaitBody (reqs s)))
  | AwaitFetch, FetchRejected | AwaitBody, BodyRejected =>
      (* the [catch] branch writes nothing *)
      Some (with_reqs s (without id (reqs s)))
  | AwaitBody, BodyData d =>
      (* [if (signal.aborted) return;] *)
      if aborted r then Some (with_reqs s (without id (reqs s)))
      else Some {| routeGeometry := routeGeometry s;
                   routeSurfaceData := Some d;
                   bar := renderSurfaceBar d;
                   surfaceAbortController := surfaceAbortController s;
                   reqs := without id (reqs s);
                   next_ctrl := next_ctrl s |}
  | _, _ => None
  end.

(** One callback.  [None]: the runtime cannot deliver this event here. *)
Definition step (s : State) (ev : Event) : option State :=
  match ev with
  | Cleared =>
      Some {| routeGeometry := None; routeSurfaceData := None; bar := None;
              surfaceAbortController := surfaceAbortController s;
              reqs := reqs s; next_ctrl := next_ctrl s |}
  | RouteArrived g =>
      Some (fetchSurface
              {| routeGeometry := Some g;
                 routeSurfaceData := routeSurfaceData s; bar := bar s;
                 surfaceAbortController := surfaceAbortController s;
                 reqs := reqs s; next_ctrl := next_ctrl s |})
  | SurfSettled id e =>
      match find (fun r => rid r =? id) (reqs s) with
      | None => None
      | Some r => resume s r e
      end
  end.

Fixpoint run (s : State) (evs : list Event) : option State :=
  match evs with
  | [] => Some s
  | ev :: rest =>
      match step s ev with
      | Some s' => run s' rest
      | None => None
      end
  end.

Definition reachable (s : State) : Prop :=
  exists evs, run init evs = Some s.

(** The surface requests in flight and not cancelled. *)
Definition active (s : State) : list Req :=
  filter (fun r => negb (aborted r)) (reqs s).

(** Requests carry distinct controller ids below [next_ctrl]; a request
    that is not cancelled is the one issued last; a shown bar shows the
    stored data. *)
Record inv (s : State) : Prop := {
  inv_nodup : NoDup (map rid (reqs s));
  inv_fresh : forall r, In r (reqs s) -> rid r < next_ctrl s;
  inv_ctrl : match surfaceAbortController s with
             | Some c => S c = next_ctrl s
             | None => next_ctrl s = 0
             end;
  inv_latest : forall r, In r (reqs s) -> aborted r = false ->
                         S (rid r) = next_ctrl s;
  inv_bar : forall d, bar s = Some d ->
                      routeSurfaceData s = Some d /\ has_breakdown d = true;
}.

Lemma surf_abort_rids (c : option nat) (l : list Req) :
  map rid (abort c l) = map rid l.
Proof.
  destruct c as [id |]; [| reflexivity]. cbn [abort].
  rewrite map_map. apply map_ext. intros r. now destruct (rid r =? id).
Qed.

Lemma surf_in_abort (c : option nat) (l : list Req) (r' : Req) :
  In r' (abort c l) ->
  exists r, In r l /\ rid r' = rid r
            /\ (aborted r' = false -> aborted r = false /\ c <> Some (rid r)).
Proof.
  destruct c as [id |]; cbn [abort].
  - rewrite in_map_iff. intros (r & <- & Hr). exists r.
    destruct (Nat.eqb_spec (rid r) id) as [-> | Hne]; cbn.
    + repeat split; try assumption; discriminate.
    + repeat split; try assumption. congruence.
  - intros Hr. exists r'. repeat split; try assumption. discriminate.
Qed.

Lemma surf_nodup_filter (p : Req -> bool) (l : list Req) :
  NoDup (map rid l) -> NoDup (map rid (filter p l)).
Proof.
  induction l as [| x l IH]; intros H; [constructor |].
  cbn [map filter] in *. inversion H as [| ? ? Hx Hl]; subst.
  destruct (p x); [| now apply IH].
  cbn [map]. constructor; [| now apply IH].
  rewrite in_map_iff in *. intros (y & Hy & Hin). apply Hx.
  exists y. split; [exact Hy |]. apply filter_In in Hin. tauto.
Qed.

Lemma surf_inv_without (s : State) (id : nat) :
  inv s -> inv (with_reqs s (without id (reqs s))).
Proof.
  intros [Hnd Hfr Hc Hl Hb]. constructor; cbn.
  - now apply surf_nodup_filter.
  - intros r Hr. apply filter_In in Hr. now apply Hfr.
  - exact Hc.
  - intros r Hr. apply filter_In in Hr. now apply Hl.
  - exact Hb.
Qed.

Lemma surf_inv_set_phase (s : State) (id : nat) (ph : Phase) :
  inv s -> inv (with_reqs s (set_phase id ph (reqs s))).
Proof.
  intros [Hnd Hfr Hc Hl Hb].
  assert (Hin : forall r', In r' (set_phase id ph (reqs s)) ->
                  exists r, In r (reqs s) /\ rid r' = rid r
                            /\ aborted r' = aborted r).
  { unfold set_phase. intros r'. rewrite in_map_iff. intros (r & <- & Hr).
    exists r. destruct (rid r =? id); cbn; auto. }
  constructor; cbn.
  - unfold set_phase. rewrite map_map.
    erewrite map_ext; [exact Hnd |].
    intros r. now destruct (rid r =? id).
  - intros r' Hr'. destruct (Hin _ Hr') as (r & Hr & -> & _). now apply Hfr.
  - exact Hc.
  - intros r' Hr' Hab. destruct (Hin _ Hr') as (r & Hr & -> & E).
    apply Hl; [exact Hr | congruence].
  - exact Hb.
Qed.

Lemma surf_inv_fetchSurface (s : State) : inv s -> inv (fetchSurface s).
Proof.
  intros Hinv. unfold fetchSurface.
  destruct (routeGeometry s) as [coords |]; [| exact Hinv].
  destruct (length coords <? 2); [exact Hinv |].
  destruct Hinv as [Hnd Hfr Hc Hl Hb]. constructor; cbn.
  - constructor.
    + rewrite surf_abort_rids, in_map_iff. intros (r & Hr & Hin).
      apply Hfr in Hin. lia.
    + now rewrite surf_abort_rids.
  - intros r [<- | Hr]; [cbn; lia |].
    destruct (surf_in_abort _ _ _ Hr) as (r0 & Hr0 & -> & _).
    apply Hfr in Hr0. lia.
  - reflexivity.
  - intros r [<- | Hr] Hab; [reflexivity |].
    destruct (surf_in_abort _ _ _ Hr) as (r0 & Hr0 & Hid & Hna).
    destruct (Hna Hab) as [Hab0 Hne]. exfalso.
    pose proof (Hl _ Hr0 Hab0) as Hlast.
    destruct (surfaceAbortController s) as [c |].
    + apply Hne. f_equal. lia.
    + apply Hfr in Hr0. lia.
  - exact Hb.
Qed.

Lemma surf_inv_step (s s' : State) (ev : Event) :
  inv s -> step s ev = Some s' -> inv s'.
Proof.
  intros Hinv. destruct ev as [| g | id e]; cbn [step].
  - intros [= <-]. destruct Hinv. constructor; cbn; try assumption.
    discriminate.
  - intros [= <-]. apply surf_inv_fetchSurface.
    destruct Hinv. constructor; assumption.
  - destruct (find _ (reqs s)) as [r |]; [| discriminate].
    unfold resume.
    destruct (phase r), e as [ok | | d |]; try discriminate.
    + destruct (negb ok || aborted r); intros [= <-];
        [now apply surf_inv_without | now apply surf_inv_set_phase].
    + intros [= <-]. now apply surf_inv_without.
    + destruct (aborted r); intros [= <-]; [now apply surf_inv_without |].
      pose proof (surf_inv_without s (rid r) Hinv) as [Hnd Hfr Hc Hl _].
      constructor; cbn in *; try assumption.
      unfold renderSurfaceBar. intros d0.
      destruct (has_breakdown d) eqn:Hd; [| discriminate].
      intros [= <-]. now split.
    + intros [= <-]. now apply surf_inv_without.
Qed.

Lemma surf_inv_reachable (s : State) : reachable s -> inv s.
Proof.
  intros (evs & Hrun).
  assert (H : forall evs s0 s1, inv s0 -> run s0 evs = Some s1 -> inv s1).
  { clear. induction evs as [| ev evs IH]; intros s0 s1 Hinv; cbn [run].
    - now intros [= <-].
    - destruct (step s0 ev) as [s2 |] eqn:Hstep; [| discriminate].
      apply IH. eapply surf_inv_step; eassumption. }
  apply (H evs init s); [| exact Hrun].
  constructor; cbn; try constructor; try (intros r []); discriminate.
Qed.

Lemma surf_at_most_one (l : list Req) (k : nat) :
  NoDup (map rid l) ->
  (forall r, In r l -> aborted r = false -> rid r = k) ->
  length (filter (fun r => negb (aborted r)) l) <= 1.
Proof.
  induction l as [| x l IH]; intros Hnd Hk; [cbn; lia |].
  cbn [map filter] in *. inversion Hnd as [| ? ? Hx Hnd']; subst.
  assert (IH' := IH Hnd' (fun r0 H => Hk r0 (or_intror H))).
  destruct (aborted x) eqn:Hax; cbn [negb]; [exact IH' |].
  cbn [length].
  destruct (filter (fun r0 => negb (aborted r0)) l) as [| r1 l1] eqn:Hf;
    [cbn; lia |].
  exfalso. assert (Hin : In r1 (filter (fun r0 => negb (aborted r0)) l))
    by (rewrite Hf; now left).
  apply filter_In in Hin as [Hin Hna]. apply negb_true_iff in Hna.
  apply Hx. rewrite in_map_iff. exists r1. split; [| exact Hin].
  rewrite (Hk x (or_introl eq_refl) Hax). apply Hk; [now right | exact Hna].
Qed.

Lemma surf_find_by_rid (l : list Req) (r : Req) :
  NoDup (map rid l) -> In r l ->
  find (fun x => rid x =? rid r) l = Some r.
Proof.
  induction l as [| x l IH]; intros Hnd Hin; [destruct Hin |].
  cbn [map find] in *. inversion Hnd as [| ? ? Hx Hnd']; subst.
  destruct Hin as [-> | Hin].
  - now rewrite Nat.eqb_refl.
  - destruct (Nat.eqb_spec (rid x) (rid r)) as [E | _]; [| now apply IH].
    exfalso. apply Hx. rewrite E. now apply in_map.
Qed.

End Coordinator.

Arguments rid : clear implicits.
Arguments aborted : clear implicits.
Arguments phase : clear implicits.
Arguments routeGeometry {Coord Data}.
Arguments routeSurfaceData {Coord Data}.
Arguments bar {Coord Data}.
Arguments surfaceAbortController {Coord Data}.
Arguments reqs {Coord Data}.
Arguments next_ctrl {Coord Data}.
Arguments active {Coord Data}.
Arguments Cleared {Coord Data}.
Arguments RouteArrived {Coord Data}.
Arguments SurfSettled {Coord Data}.
Arguments FetchResolved {Data}.
Arguments FetchRejected {Data}.
Arguments BodyData {Data}.
Arguments BodyRejected {Data}.

End SurfaceCoordinator.

(* ===================================================================== *)
(** * Sidebar of the viewer page *)
(* ===================================================================== *)

(** [buildSidebar] of the viewer page: the routes that pass the type
    filter and the search, grouped by region under sorted headers.  A
    string is the list of its UTF-16 code units; the fields of a route
    are strings or [null], as the API lists them.  [None] stands for a
    [TypeError] thrown on the way. *)
Module Sidebar.

Definition jsstring : Type := list N.

(** [a === b] on strings. *)
Fixpoint str_eqb (a b : jsstring) : bool :=
  match a, b with
  | [], [] => true
  | x :: a', y :: b' => N.eqb x y && str_eqb a' b'
  | _, _ => false
  end.

(** The order of [Array.prototype.sort] without a comparator: code unit
    by code unit, a proper prefix first.  [str_leb a b]: [a] is not
    after [b]. *)
Fixpoint str_leb (a b : jsstring) : bool :=
  match a, b with
  | [], _ => true
  | _ :: _, [] => false
  | x :: a', y :: b' =>
      if N.ltb x y then true
      else if N.eqb x y then str_leb a' b' else false
  end.

Fixpoint starts_with (s p : jsstring) : bool :=
  match p, s with
  | [], _ => true
  | _ :: _, [] => false
  | y :: p', x :: s' => N.eqb x y && starts_with s' p'
  end.

(** [s.includes(p)] *)
Fixpoint includes (s p : jsstring) : bool :=
  starts_with s p
  || match s with
     | [] => false
     | _ :: s' => includes s' p
     end.

(** ['all'] and ['Uncategorized'] *)
Definition all : jsstring := [97; 108; 108]%N.
Definition Uncategorized : jsstring :=
  [85; 110; 99; 97; 116; 101; 103; 111; 114; 105; 122; 101; 100]%N.

Record Route : Type := mkRoute {
  id : nat;
  route_type : option jsstring;
  name : option jsstring;
  region : option jsstring;
}.

(** [route.region || 'Uncategorized']: [null] and [''] are falsy. *)
Definition region_key (r : Route) : jsstring :=
  match region r with
  | Some (c :: s) => c :: s
  | _ => Uncategorized
  end.

(** The sorted insertion behind [sort()]: the keys of an object are
    distinct, so every sorting procedure returns the same array. *)
Fixpoint insert (k : jsstring) (l : list jsstring) : list jsstring :=
  match l with
  | [] => [k]
  | x :: l' => if str_leb k x then k :: l else x :: insert k l'
  end.

Definition sort (l : list jsstring) : list jsstring :=
  fold_right insert [] l.

(** The object [groups]: its own properties, in the order they were
    added. *)
Definition Groups : Type := list (jsstring * list Route).

(** [if (!groups[region]) groups[region] = []; groups[region].push(route);]
    on an object whose own properties hold arrays. *)
Fixpoint push (groups : Groups) (key : jsstring) (r : Route) : Groups :=
  match groups with
  | [] => [(key, [r])]
  | (k, rs) :: rest =>
      if str_eqb k key then (k, rs ++ [r]) :: rest
      else (k, rs) :: push rest key r
  end.

(** [groups[region]] for an own property. *)
Definition lookup (groups : Groups) (key : jsstring) : list Route :=
  match find (fun kv => str_eqb (fst kv) key) groups with
  | Some (_, rs) => rs
  | None => []
  end.

(** What [buildSidebar] leaves in the list. *)
Inductive View : Type :=
| EmptyState                    (* "No routes yet." *)
| NoMatch                       (* "No matching routes" *)
| Listing (sections : list (jsstring * list Route)).

Section Page.

(** [String.prototype.toLowerCase] of the runtime. *)
Variable toLowerCase : jsstring -> jsstring.

(** Whether a name is a member of [Object.prototype] (['constructor'],
    ['toString'], ['__proto__'], ...): [groups[name]] is then truthy on
    the empty object and has no [push]. *)
Variable inherited : jsstring -> bool.

Variable activeType : jsstring.
Variable searchTerm : jsstring.

(** The callback of [allRoutes.filter]; [r.name.toLowerCase()] throws on
    [null]. *)
Definition keep (r : Route) : option bool :=
  let same_type := match route_type r with
                   | Some t => str_eqb t activeType
                   | None => false
                   end in
  if negb (str_eqb activeType all) && negb same_type then Some false
  else
    match searchTerm with
    | [] => Some true
    | _ :: _ =>
        match name r with
        | Some n => Some (includes (toLowerCase n) searchTerm)
        | None => None
        end
    end.

Fixpoint filter_routes (routes : list Route) : option (list Route) :=
  match routes with
  | [] => Some []
  | r :: rest =>
      match keep r, filter_routes rest with
      | Some b, Some kept => Some (if b then r :: kept else kept)
      | _, _ => None
      end
  end.

(** The loop [for (const route of filtered) { ... }] under
    [// Group by region]. *)
Fixpoint group (filtered : list Route) (groups : Groups) : option Groups :=
  match filtered with
  | [] => Some groups
  | r :: rest =>
      if inherited (region_key r) then None
      else group rest (push groups (region_key r) r)
  end.

(** Rendering an item calls [route.name.replace], which throws on
    [null]. *)
Definition renders (r : Route) : bool :=
  match name r with
  | Some _ => true
  | None => false
  end.

Definition buildSidebar (allRoutes : list Route) : option View :=
  match filter_routes allRoutes with
  | None => None
  | Some filtered =>
      if (length filtered =? 0) && (length allRoutes =? 0) then Some EmptyState
      else if length filtered =? 0 then Some NoMatch
      else
        match group filtered [] with
        | None => None
        | Some groups =>
            if forallb renders filtered then
              Some (Listing (map (fun region => (region, lookup groups region))
                                 (sort (map fst groups))))
            else None
        end
  end.

End Page.

End Sidebar.

(* ===================================================================== *)
(** * Formatting of distances and elevations *)
(* ===================================================================== *)

(** [formatDistance], [formatElevation] and the distance half of
    [updateStats].  A formatted number is the integer that is printed,
    with its sign; the digits and the separators of the locale are left
    out. *)
Module Format.
Local Open Scope Q_scope.

(** [const M_TO_FT = 3.28084;] *)
Definition M_TO_FT : Q := 328084 # 100000.

(** [x.toFixed(f)]: a minus sign when [x < 0], and the integer [n] for
    which [n / 10^f] is nearest to the magnitude of [x], the larger one
    of two. *)
Definition toFixed (f : nat) (x : Q) : bool * Z :=
  (Num.ltb x 0, Qfloor (Qabs x * inject_Z (10 ^ Z.of_nat f) + (1 # 2))).

Inductive Distance : Type :=
| Feet (minus : bool) (n : Z)           (* [n + ' ft'] *)
| Miles (minus : bool) (tenths : Z).    (* [tenths / 10 + ' mi'], one decimal *)

Definition formatDistance (km : Q) : Distance :=
  let mi := km * ChartLayout.KM_TO_MI in
  if Num.ltb mi (1 # 10)
  then let '(minus, n) := toFixed 0 (mi * 5280) in Feet minus n
  else let '(minus, n) := toFixed 1 mi in Miles minus n.

(** [Math.round(m * M_TO_FT)] *)
Definition formatElevation (m : Q) : Z := Qfloor (m * M_TO_FT + (1 # 2)).

(** [updateStats], the distance: [None] is the dash. *)
Definition stat_distance (routeDistance : Q) : option Distance :=
  if Num.ltb 0 routeDistance then Some (formatDistance (routeDistance / 1000))
  else None.

End Format.

(* ===================================================================== *)
(** * Detail page: arithmetic on the elevations as stored *)
(* ===================================================================== *)

(** The route detail page keeps [data.elevations] as the response gives
    them, so its chart and its gradient overlay compute on JavaScript
    values.  [None] stands for [NaN]. *)
Module DetailPage.
Import JS.
Local Open Scope Q_scope.

Section Runtime.

(** [StringToNumber] of the runtime; [None]: the string converts to
    [NaN]. *)
Variable string_to_number : string -> option Q.

(** [isNaN] on a string, by the same conversion. *)
Definition string_is_nan (s : string) : bool :=
  match string_to_number s with
  | Some _ => false
  | None => true
  end.

(** [ToNumber(v)], which [-], [Math.min] and [Math.max] apply to their
    operands. *)
Definition to_number (v : value) : option Q :=
  match v with
  | Undefined => None
  | Null => Some 0
  | Bool b => Some (if b then 1 else 0)
  | Num q => Some q
  | Str s => string_to_number s
  end.

(** The numbers that [Math.min(...elevs)] and [Math.max(...elevs)]
    compare: both are [NaN] as soon as one element converts to [NaN]. *)
Fixpoint numbers (elevs : list value) : option (list Q) :=
  match elevs with
  | [] => Some []
  | v :: rest =>
      match to_number v, numbers rest with
      | Some q, Some qs => Some (q :: qs)
      | _, _ => None
      end
  end.

(** [points[i].y] of [drawElevationProfile]:
    [padding.top + chartH - ((elevs[i] - minElev) / elevRange) * chartH].
    With [minElev] [NaN] the difference is [NaN] for every [i]. *)
Definition point_y (elevs : list value) (i : nat) : option Q :=
  match numbers elevs with
  | Some qs => ChartLayout.point_y qs i
  | None => None
  end.

(** [applyGradientColoring], the grade of segment [i]:
    [const rise = elevs[i + 1] - elevs[i];
     const run = (dists[i + 1] - dists[i]) * 1000;
     const grade = run > 0 ? Math.abs(rise / run) * 100 : 0;] *)
Definition segment_grade (elevs : list value) (dists : list Q) (i : nat)
  : option Q :=
  match nth_error elevs i, nth_error elevs (i + 1),
        nth_error dists i, nth_error dists (i + 1) with
  | Some v0, Some v1, Some d0, Some d1 =>
      match to_number v0, to_number v1 with
      | Some e0, Some e1 => GradientSegmenter.grade e0 e1 d0 d1
      | _, _ => if Num.ltb 0 ((d1 - d0) * 1000) then None else Some 0
      end
  | _, _, _, _ => Some 0
  end.

End Runtime.

End DetailPage.

(* ===================================================================== *)
(** * Properties of the engine *)
(* ===================================================================== *)

(** ** GeodesicMath and GeodesicFloat *)

(** In exact arithmetic the formula of [haversine] is symmetric in its
    two points, never negative, and zero when both points are the same. *)
Lemma haversine_symmetric_nonneg_zero :
  (forall lat1 lon1 lat2 lon2 : R,
      GeodesicMath.haversine lat1 lon1 lat2 lon2
      = GeodesicMath.haversine lat2 lon2 lat1 lon1)
  /\ (forall lat1 lon1 lat2 lon2 : R,
         (0 <= GeodesicMath.haversine lat1 lon1 lat2 lon2)%R)
  /\ (forall lat lon : R, GeodesicMath.haversine lat lon lat lon = 0%R).
Proof.
  repeat split.
  - intros. unfold GeodesicMath.haversine; cbv zeta.
    now rewrite (GeodesicMath.hav_a_sym lat1 lon1 lat2 lon2).
  - intros. unfold GeodesicMath.haversine; cbv zeta.
    pose proof (GeodesicMath.atan2_nonneg
                  (sqrt (GeodesicMath.hav_a lat1 lon1 lat2 lon2))
                  (sqrt (1 - GeodesicMath.hav_a lat1 lon1 lat2 lon2))
                  (sqrt_pos _) (sqrt_pos _)).
    nra.
  - intros. unfold GeodesicMath.haversine; cbv zeta.
    rewrite GeodesicMath.hav_a_same.
    replace (1 - 0)%R with 1%R by ring.
    rewrite sqrt_0, sqrt_1, GeodesicMath.atan2_0_1. ring.
Qed.

Section AntipodeFacts.
Import PrimFloat.
Local Open Scope float_scope.

Variable M : GeodesicFloat.Runtime.
Hypothesis HM : GeodesicFloat.rounds_to_nearest_here M.

(** Evaluate the arguments handed to the runtime, then look the values
    up. *)
Ltac ask_runtime :=
  repeat match goal with
    | |- context [GeodesicFloat.sin M ?x] =>
        let v := eval vm_compute in x in progress change x with v
    | |- context [GeodesicFloat.cos M ?x] =>
        let v := eval vm_compute in x in progress change x with v
    end;
  rewrite ?(GeodesicFloat.sin_zero M HM), ?(GeodesicFloat.sin_lat M HM),
    ?(GeodesicFloat.sin_right M HM), ?(GeodesicFloat.cos_lat M HM),
    ?(GeodesicFloat.cos_lat_neg M HM).

Lemma hav_a_south_north :
  GeodesicFloat.hav_a M (GeodesicFloat.lat GeodesicFloat.south)
                      (GeodesicFloat.lng GeodesicFloat.south)
                      (GeodesicFloat.lat GeodesicFloat.north)
                      (GeodesicFloat.lng GeodesicFloat.north)
  = 0x1.0000000000001p+0.
Proof.
  unfold GeodesicFloat.hav_a. cbv zeta. ask_runtime.
  vm_compute. reflexivity.
Qed.

Lemma haversine_south_north :
  GeodesicFloat.haversine M (GeodesicFloat.lat GeodesicFloat.south)
                          (GeodesicFloat.lng GeodesicFloat.south)
                          (GeodesicFloat.lat GeodesicFloat.north)
                          (GeodesicFloat.lng GeodesicFloat.north)
  = nan.
Proof.
  unfold GeodesicFloat.haversine. cbv zeta. rewrite hav_a_south_north.
  change (sqrt (1 - 0x1.0000000000001p+0)) with nan.
  rewrite (GeodesicFloat.atan2_nan M HM). reflexivity.
Qed.

Lemma haversine_north_north :
  GeodesicFloat.haversine M (GeodesicFloat.lat GeodesicFloat.north)
                          (GeodesicFloat.lng GeodesicFloat.north)
                          (GeodesicFloat.lat GeodesicFloat.north)
                          (GeodesicFloat.lng GeodesicFloat.north)
  = 0.
Proof.
  unfold GeodesicFloat.haversine, GeodesicFloat.hav_a. cbv zeta. ask_runtime.
  match goal with
  | |- context [GeodesicFloat.atan2 M ?y ?x] =>
      let vy := eval vm_compute in y in
      let vx := eval vm_compute in x in
      change (GeodesicFloat.atan2 M y x) with (GeodesicFloat.atan2 M vy vx)
  end.
  rewrite (GeodesicFloat.atan2_zero M HM). vm_compute. reflexivity.
Qed.

End AntipodeFacts.

Lemma tabulated_rounds :
  GeodesicFloat.rounds_to_nearest_here GeodesicFloat.tabulated.
Proof.
  constructor; try reflexivity.
  intros y. cbn. now destruct (PrimFloat.is_nan y).
Qed.

(** C10. On doubles [haversine] is not always a distance.  For the points
    (lat -86.991, lng -82.928) and (lat 86.991, lng 97.072), on a runtime
    whose sine and cosine round to the nearest double there, the sum under
    the square roots is 1.0000000000000002, [Math.sqrt(1 - a)] is [NaN] and
    [haversine] returns [NaN]: the result is not non-negative. *)
Theorem haversine_nan_near_antipodes (M : GeodesicFloat.Runtime) :
  GeodesicFloat.rounds_to_nearest_here M ->
  let a := GeodesicFloat.hav_a M (GeodesicFloat.lat GeodesicFloat.south)
                               (GeodesicFloat.lng GeodesicFloat.south)
                               (GeodesicFloat.lat GeodesicFloat.north)
                               (GeodesicFloat.lng GeodesicFloat.north) in
  let d := GeodesicFloat.haversine M (GeodesicFloat.lat GeodesicFloat.south)
                                   (GeodesicFloat.lng GeodesicFloat.south)
                                   (GeodesicFloat.lat GeodesicFloat.north)
                                   (GeodesicFloat.lng GeodesicFloat.north) in
  PrimFloat.ltb PrimFloat.one a = true
  /\ PrimFloat.is_nan (PrimFloat.sqrt (PrimFloat.sub PrimFloat.one a)) = true
  /\ PrimFloat.is_nan d = true
  /\ PrimFloat.leb PrimFloat.zero d = false.
Proof.
  intros HM a d. unfold a, d.
  rewrite (hav_a_south_north M HM), (haversine_south_north M HM).
  repeat split; vm_compute; reflexivity.
Qed.

Lemma haversine_nan_near_antipodes_witness :
  PrimFloat.is_nan
    (GeodesicFloat.haversine
       GeodesicFloat.tabulated
       (GeodesicFloat.lat GeodesicFloat.south)
       (GeodesicFloat.lng GeodesicFloat.south)
       (GeodesicFloat.lat GeodesicFloat.north)
       (GeodesicFloat.lng GeodesicFloat.north)) = true.
Proof.
  exact (proj1 (proj2 (proj2 (haversine_nan_near_antipodes
                                GeodesicFloat.tabulated tabulated_rounds)))).
Defined.

(** ** Sampler *)

(** C1. A path of 82 coordinates is sampled with stride 1: the sample set
    starts at position 0 and ends at position 81, and it has 82 entries,
    more than [maxSamples + 1]. *)
Theorem sample_exceeds_cap :
  exists sampled indices,
    Sampler.sample nat Nat.eqb (Sampler.path_of_length 82)
    = Some (sampled, indices)
    /\ nth_error indices 0 = Some 0
    /\ nth_error indices (length indices - 1) = Some 81
    /\ length indices = 82
    /\ Sampler.maxSamples + 1 < length indices.
Proof.
  eexists. eexists. split; [vm_compute; reflexivity |].
  split; [reflexivity |]. split; [reflexivity |]. split; [reflexivity |].
  vm_compute. lia.
Qed.

(** ** ProfileBuilder *)

(** In exact arithmetic the cumulative distances start at 0 and never
    decrease. *)
Lemma distances_nondecreasing (sampled : list ProfileBuilder.Coord) :
  nth_error (ProfileBuilder.cumulative_distances sampled) 0 = Some 0%R
  /\ forall i : nat,
      S i < length (ProfileBuilder.cumulative_distances sampled) ->
      (nth i (ProfileBuilder.cumulative_distances sampled) 0
       <= nth (S i) (ProfileBuilder.cumulative_distances sampled) 0)%R.
Proof.
  split; [reflexivity |].
  unfold ProfileBuilder.cumulative_distances.
  destruct sampled as [| c rest]; intros i Hi.
  - cbn in Hi. lia.
  - now apply ProfileBuilder.accumulate_monotone.
Qed.

Lemma distances_nondecreasing_witness :
  (nth 0 (ProfileBuilder.cumulative_distances
            [ProfileBuilder.mkCoord 0 0 0; ProfileBuilder.mkCoord 1 0 1]) 0
   <= nth 1 (ProfileBuilder.cumulative_distances
               [ProfileBuilder.mkCoord 0 0 0; ProfileBuilder.mkCoord 1 0 1]) 0)%R.
Proof.
  apply (proj2 (distances_nondecreasing
                  [ProfileBuilder.mkCoord 0 0 0; ProfileBuilder.mkCoord 1 0 1]) 0).
  cbn. lia.
Defined.

(** C9. On doubles the cumulative distances are not always in order.  For
    the path from (lat -86.991, lng -82.928) to (lat 86.991, lng 97.072)
    and on to the same point again, on a runtime whose sine and cosine
    round to the nearest double there, the distances are [0, NaN, NaN]:
    they start at 0, and no entry is at most the next one. *)
Theorem distances_nan_near_antipodes (M : GeodesicFloat.Runtime) :
  GeodesicFloat.rounds_to_nearest_here M ->
  let distances :=
    GeodesicFloat.cumulative_distances
      M [GeodesicFloat.south; GeodesicFloat.north; GeodesicFloat.north] in
  distances = [PrimFloat.zero; PrimFloat.nan; PrimFloat.nan]
  /\ forall i, S i < length distances ->
               PrimFloat.leb (nth i distances PrimFloat.zero)
                             (nth (S i) distances PrimFloat.zero) = false.
Proof.
  intros HM distances.
  assert (E : distances = [PrimFloat.zero; PrimFloat.nan; PrimFloat.nan]).
  { unfold distances.
    remember GeodesicFloat.south as so eqn:Eso.
    remember GeodesicFloat.north as no eqn:Eno.
    unfold GeodesicFloat.cumulative_distances.
    cbn [GeodesicFloat.accumulate]. cbv zeta. subst so no.
    rewrite (haversine_south_north M HM), (haversine_north_north M HM).
    vm_compute. reflexivity. }
  split; [exact E |]. rewrite E. intros [| [| i]] Hi; cbn in Hi;
    [reflexivity | reflexivity | lia].
Qed.

Lemma distances_nan_near_antipodes_witness :
  GeodesicFloat.cumulative_distances
    GeodesicFloat.tabulated
    [GeodesicFloat.south; GeodesicFloat.north; GeodesicFloat.north]
  = [PrimFloat.zero; PrimFloat.nan; PrimFloat.nan].
Proof.
  exact (proj1 (distances_nan_near_antipodes
                  GeodesicFloat.tabulated tabulated_rounds)).
Defined.

(** C2, counterexample.  For [[null, 120, 130]] without a gain
    the elevations are sanitized to [[0, 120, 130]], whose positive
    differences add up to 130, but the stored gain is 0. *)
Lemma gain_not_derived_from_elevations :
  ProfileBuilder.p_elevations
    (snd (ProfileBuilder.on_elevation_data
            (fun _ => false) ProfileBuilder.null_then_climb [] []))
  = Some [JS.Num 0; JS.Num 120; JS.Num 130]
  /\ (ProfileBuilder.spec_gain_from_deltas [0; 120; 130] == 130)%Q
  /\ fst (ProfileBuilder.on_elevation_data
            (fun _ => false) ProfileBuilder.null_then_climb [] [])
     = JS.Num 0
  /\ ~ (exists q : Q,
           fst (ProfileBuilder.on_elevation_data
                  (fun _ => false) ProfileBuilder.null_then_climb [] [])
           = JS.Num q
           /\ (q == ProfileBuilder.spec_gain_from_deltas [0; 120; 130])%Q).
Proof.
  split; [reflexivity |]. split; [reflexivity |]. split; [reflexivity |].
  intros (q & Hq & Hsum). cbn in Hq. injection Hq as <-.
  vm_compute in Hsum. discriminate.
Qed.

(** C2, amended.  A truthy gain of the response is stored as it
    is; otherwise the stored gain is 0, whatever the elevations are.  For
    [[null, 120, 130]] without a gain the elevations become
    [[0, 120, 130]] and the gain is 0. *)
Theorem elevation_gain_verbatim_or_zero
        (string_is_nan : string -> bool) (data : ProfileBuilder.Response)
        (sampled : list ProfileBuilder.Coord) (indices : list nat) :
  (JS.truthy (ProfileBuilder.elevation_gain_m data) = true ->
   fst (ProfileBuilder.on_elevation_data string_is_nan data sampled indices)
   = ProfileBuilder.elevation_gain_m data)
  /\ (JS.truthy (ProfileBuilder.elevation_gain_m data) = false ->
      fst (ProfileBuilder.on_elevation_data string_is_nan data sampled indices)
      = JS.Num 0)
  /\ ProfileBuilder.on_elevation_data
       string_is_nan ProfileBuilder.null_then_climb sampled indices
     = (JS.Num 0,
        {| ProfileBuilder.p_elevations :=
             Some [JS.Num 0; JS.Num 120; JS.Num 130];
           ProfileBuilder.p_distances :=
             ProfileBuilder.cumulative_distances sampled;
           ProfileBuilder.p_coordinates := sampled;
           ProfileBuilder.p_indices := indices |}).
Proof.
  unfold ProfileBuilder.on_elevation_data, JS.or_else; cbn [fst].
  split; [| split].
  - now intros ->.
  - now intros ->.
  - reflexivity.
Qed.

Lemma elevation_gain_verbatim_or_zero_witness :
  fst (ProfileBuilder.on_elevation_data
         (fun _ => false)
         {| ProfileBuilder.elevations := Some [JS.Num 100; JS.Num 150];
            ProfileBuilder.elevation_gain_m := JS.Num 50 |} [] [])
  = JS.Num 50.
Proof.
  apply (proj1 (elevation_gain_verbatim_or_zero
                  (fun _ => false)
                  {| ProfileBuilder.elevations := Some [JS.Num 100; JS.Num 150];
                     ProfileBuilder.elevation_gain_m := JS.Num 50 |} [] [])).
  reflexivity.
Defined.

Lemma sanitized_convert (string_to_number : string -> option Q)
      (elevs : list JS.value) :
  exists qs,
    DetailPage.numbers
      string_to_number
      (ProfileBuilder.sanitize (DetailPage.string_is_nan string_to_number)
                               elevs)
    = Some qs
    /\ length qs = length elevs.
Proof.
  induction elevs as [| v elevs (qs & IH & Hlen)]; [now exists [] |].
  cbn [ProfileBuilder.sanitize map DetailPage.numbers].
  fold (ProfileBuilder.sanitize (DetailPage.string_is_nan string_to_number)
                                elevs).
  rewrite IH.
  assert (Hv : exists q,
             DetailPage.to_number
               string_to_number
               (ProfileBuilder.sanitize_entry
                  (DetailPage.string_is_nan string_to_number) v) = Some q).
  { unfold ProfileBuilder.sanitize_entry, DetailPage.string_is_nan.
    destruct v as [| | b | q | s]; cbn; eauto.
    destruct (string_to_number s) as [q |] eqn:E; cbn; [| eauto].
    rewrite E. eauto. }
  destruct Hv as (q & ->). exists (q :: qs). cbn. now rewrite Hlen.
Qed.

Lemma numbers_nan (string_to_number : string -> option Q)
      (elevs : list JS.value) :
  forall k v,
    nth_error elevs k = Some v ->
    DetailPage.to_number string_to_number v = None ->
    DetailPage.numbers string_to_number elevs = None.
Proof.
  induction elevs as [| v0 elevs IH]; intros [| k] v Hk Hv;
    cbn in Hk; try discriminate.
  - injection Hk as ->. cbn [DetailPage.numbers]. now rewrite Hv.
  - cbn [DetailPage.numbers]. rewrite (IH k v Hk Hv).
    now destruct (DetailPage.to_number string_to_number v0).
Qed.

(** C4. An elevation that is a string which does not convert to a number.
    The route builder replaces it by 0, and after its sanitizing every
    elevation converts to a number.  The detail page stores the response as
    it comes: [Math.min] of such a profile is [NaN], so the plotted height
    of every sample of the profile is [NaN], the other samples included,
    and the grade of the segment that starts at the string is [NaN]. *)
Theorem detail_page_fails_on_non_numeric_elevation
        (string_to_number : string -> option Q)
        (data : ProfileBuilder.Response) (elevs : list JS.value)
        (sampled : list ProfileBuilder.Coord) (indices : list nat)
        (k : nat) (s : string) :
  ProfileBuilder.elevations data = Some elevs ->
  nth_error elevs k = Some (JS.Str s) ->
  string_to_number s = None ->
  (exists es qs,
      ProfileBuilder.p_elevations
        (snd (ProfileBuilder.on_elevation_data
                (DetailPage.string_is_nan string_to_number)
                data sampled indices))
      = Some es
      /\ nth_error es k = Some (JS.Num 0)
      /\ DetailPage.numbers string_to_number es = Some qs
      /\ length qs = length elevs)
  /\ ProfileBuilder.p_elevations
       (snd (ProfileBuilder.on_elevation_data_detail data sampled indices))
     = Some elevs
  /\ (forall i, DetailPage.point_y string_to_number elevs i = None)
  /\ (forall dists v1 d0 d1,
         nth_error elevs (k + 1) = Some v1 ->
         nth_error dists k = Some d0 -> nth_error dists (k + 1) = Some d1 ->
         (0 < (d1 - d0) * 1000)%Q ->
         DetailPage.segment_grade string_to_number elevs dists k = None).
Proof.
  intros He Hk Hs. split; [| split; [| split]].
  - destruct (sanitized_convert string_to_number elevs) as (qs & Hqs & Hlen).
    exists (ProfileBuilder.sanitize
              (DetailPage.string_is_nan string_to_number) elevs), qs.
    cbn. rewrite He. cbn. split; [reflexivity |]. split; [| now split].
    rewrite (ProfileBuilder.sanitize_nth _ _ _ _ Hk).
    unfold ProfileBuilder.sanitize_entry, DetailPage.string_is_nan.
    cbn. now rewrite Hs.
  - cbn. now rewrite He.
  - intros i. unfold DetailPage.point_y.
    now rewrite (numbers_nan string_to_number elevs k (JS.Str s) Hk Hs).
  - intros dists v1 d0 d1 Hv1 Hd0 Hd1 Hrun.
    unfold DetailPage.segment_grade. rewrite Hk, Hv1, Hd0, Hd1.
    cbn [DetailPage.to_number]. rewrite Hs.
    apply Num.ltb_lt in Hrun. now rewrite Hrun.
Qed.

Lemma detail_page_fails_on_non_numeric_elevation_witness :
  let string_to_number :=
    fun s => if String.eqb s "12" then Some (12 : Q) else None in
  let elevs := [JS.Str "n/a"; JS.Num 120; JS.Num 130] in
  let data := {| ProfileBuilder.elevations := Some elevs;
                 ProfileBuilder.elevation_gain_m := JS.Undefined |} in
  ProfileBuilder.p_elevations
    (snd (ProfileBuilder.on_elevation_data
            (DetailPage.string_is_nan string_to_number) data [] []))
  = Some [JS.Num 0; JS.Num 120; JS.Num 130]
  /\ map (DetailPage.point_y string_to_number
                             [JS.Num 0; JS.Num 120; JS.Num 130]) [0; 1; 2]
     = map (ChartLayout.point_y [0; 120; 130]%Q) [0; 1; 2]
  /\ ProfileBuilder.p_elevations
       (snd (ProfileBuilder.on_elevation_data_detail data [] []))
     = Some elevs
  /\ (forall i, DetailPage.point_y string_to_number elevs i = None)
  /\ DetailPage.segment_grade string_to_number elevs [0; 1; 2]%Q 0 = None.
Proof.
  intros string_to_number elevs data.
  destruct (detail_page_fails_on_non_numeric_elevation
              string_to_number data elevs [] [] 0 "n/a"
              eq_refl eq_refl eq_refl)
    as (_ & Hdetail & Hplot & Hgrade).
  split; [reflexivity |]. split; [reflexivity |].
  split; [exact Hdetail |]. split; [exact Hplot |].
  apply (Hgrade [0; 1; 2]%Q (JS.Num 120) 0%Q 1%Q); try reflexivity.
Defined.

(** ** GradientSegmenter *)

Section GradeFacts.
Local Open Scope Q_scope.

Lemma Qabs_div_pos (a b : Q) : 0 < b -> Qabs (a / b) == Qabs a / b.
Proof.
  intros Hb. unfold Qdiv. rewrite Qabs_Qmult.
  assert (Hinv : 0 <= / b) by (apply Qlt_le_weak, Qinv_lt_0_compat, Hb).
  now rewrite (Qabs_pos (/ b) Hinv).
Qed.

Lemma grade_total (e0 e1 d0 d1 : Q) :
  exists g, GradientSegmenter.grade e0 e1 d0 d1 = Some g
            /\ (0 < (d1 - d0) * 1000 ->
                g == Qabs (e1 - e0) / ((d1 - d0) * 1000) * 100)
            /\ ((d1 - d0) * 1000 == 0 -> g == 0).
Proof.
  unfold GradientSegmenter.grade; cbv zeta.
  set (run := (d1 - d0) * 1000).
  destruct (Num.ltb 0 run) eqn:Hrun.
  - apply Num.ltb_lt in Hrun.
    unfold Num.checked_div.
    destruct (Qeq_bool run 0) eqn:Hz.
    + apply Qeq_bool_iff in Hz. rewrite Hz in Hrun.
      exfalso. now apply (Qlt_irrefl 0).
    + cbn [option_map]. eexists. split; [reflexivity |]. split.
      * intros _. now rewrite Qabs_div_pos.
      * intros Hz'. rewrite Hz' in Hrun. exfalso. now apply (Qlt_irrefl 0).
  - exists 0. split; [reflexivity |]. split.
    + intros Hpos. apply Num.ltb_lt in Hpos. congruence.
    + reflexivity.
Qed.

End GradeFacts.

(** C8. The grade of a segment is [|rise| / run * 100] when the run is
    positive and 0 when the run is 0, and computing it never divides by
    zero: the computation always yields a value. *)
Theorem segment_grade_formula (elevs dists : list Q) (i : nat) (e0 e1 d0 d1 : Q) :
  nth_error elevs i = Some e0 -> nth_error elevs (i + 1) = Some e1 ->
  nth_error dists i = Some d0 -> nth_error dists (i + 1) = Some d1 ->
  exists g : Q,
    GradientSegmenter.segment_grade elevs dists i = Some g
    /\ ((0 < (d1 - d0) * 1000)%Q ->
        (g == Qabs (e1 - e0) / ((d1 - d0) * 1000) * 100)%Q)
    /\ (((d1 - d0) * 1000 == 0)%Q -> (g == 0)%Q).
Proof.
  intros He0 He1 Hd0 Hd1. unfold GradientSegmenter.segment_grade.
  rewrite He0, He1, Hd0, Hd1. apply grade_total.
Qed.

Lemma segment_grade_formula_witness :
  exists g : Q,
    GradientSegmenter.segment_grade [100; 150; 100]%Q [0; 1; 2]%Q 0 = Some g
    /\ ((0 < (1 - 0) * 1000)%Q ->
        (g == Qabs (150 - 100) / ((1 - 0) * 1000) * 100)%Q)
    /\ (((1 - 0) * 1000 == 0)%Q -> (g == 0)%Q).
Proof.
  apply (segment_grade_formula [100; 150; 100]%Q [0; 1; 2]%Q 0
                               100%Q 150%Q 0%Q 1%Q); reflexivity.
Defined.

Section SegmentFacts.

Variable A : Type.
Variable undefined : A.

Local Abbreviation slice := (GradientSegmenter.slice A).
Local Abbreviation stitch := (GradientSegmenter.stitch A).

Lemma firstn_plus (n k : nat) (l : list A) :
  firstn n l ++ firstn k (skipn n l) = firstn (n + k) l.
Proof.
  revert l. induction n as [| n IH]; intros l; [reflexivity |].
  destruct l as [| x l]; cbn [firstn skipn Nat.add app].
  - now rewrite firstn_nil.
  - now rewrite IH.
Qed.

Lemma slice_app (l : list A) (x y z : nat) :
  x <= y -> y <= z -> slice l x y ++ slice l y z = slice l x z.
Proof.
  intros Hxy Hyz. unfold GradientSegmenter.slice.
  replace (skipn y l) with (skipn (y - x) (skipn x l))
    by (rewrite skipn_skipn; f_equal; lia).
  rewrite firstn_plus. f_equal. lia.
Qed.

Lemma slice_tl (l : list A) (a b : nat) :
  tl (slice l a (b + 1)) = slice l (a + 1) (b + 1).
Proof.
  unfold GradientSegmenter.slice.
  replace (a + 1) with (1 + a) by lia. rewrite <- skipn_skipn.
  destruct (Nat.le_gt_cases (b + 1) a) as [Hle | Hgt].
  - replace (b + 1 - a) with 0 by lia. replace (b + 1 - (1 + a)) with 0 by lia.
    reflexivity.
  - replace (b + 1 - a) with (S (b + 1 - (1 + a))) by lia.
    destruct (skipn a l) as [| x r]; [now rewrite !firstn_nil |].
    reflexivity.
Qed.

Lemma slice_length (l : list A) (a b : nat) :
  b <= length l -> length (slice l a b) = b - a.
Proof.
  intros Hb. unfold GradientSegmenter.slice.
  rewrite length_firstn, length_skipn. lia.
Qed.

Lemma slice_all (l : list A) : slice l 0 (length l - 1 + 1) = l.
Proof.
  unfold GradientSegmenter.slice. cbn [skipn]. apply firstn_all2. lia.
Qed.

Lemma slice_nth_error (l : list A) (a b k : nat) :
  a + k < b -> nth_error (slice l a b) k = nth_error l (a + k).
Proof.
  intros Hk. unfold GradientSegmenter.slice.
  rewrite nth_error_firstn.
  destruct (Nat.ltb_spec k (b - a)) as [_ | Hge]; [| lia].
  apply nth_error_skipn.
Qed.

Lemma stitch_snoc (segs : list (list A)) (s : list A) :
  segs <> [] -> stitch (segs ++ [s]) = stitch segs ++ tl s.
Proof.
  destruct segs as [| s0 rest]; [congruence | intros _].
  cbn [GradientSegmenter.stitch app].
  rewrite flat_map_app. cbn [flat_map]. now rewrite app_nil_r, app_assoc.
Qed.

(** Consecutive slices between increasing cut positions, laid end to end,
    are the slice between the first and the last cut. *)
Lemma stitch_slices (l : list A) (cut : nat -> nat) (k : nat) :
  (forall i, i <= k -> cut i < cut (S i)) ->
  stitch (map (fun i => slice l (cut i) (cut (S i) + 1)) (seq 0 (S k)))
  = slice l (cut 0) (cut (S k) + 1).
Proof.
  induction k as [| k IH]; intros Hinc.
  - cbn. apply app_nil_r.
  - rewrite seq_S, map_app. cbn [map Nat.add]. rewrite stitch_snoc.
    2: { rewrite seq_S, map_app. intros H. now apply app_eq_nil in H as [_ H]. }
    rewrite IH by (intros; apply Hinc; lia).
    rewrite slice_tl.
    assert (Hmono : cut 0 <= cut (S k)).
    { clear IH. induction k as [| k IHk]; [specialize (Hinc 0); lia |].
      pose proof (Hinc (S k) ltac:(lia)) as H1.
      assert (cut 0 <= cut (S k)) by (apply IHk; intros; apply Hinc; lia).
      lia. }
    apply slice_app; [lia |].
    specialize (Hinc (S k) ltac:(lia)). lia.
Qed.

Lemma flat_map_singletons {B C : Type} (f : B -> list C) (g : B -> C)
      (l : list B) :
  (forall x, In x l -> f x = [g x]) -> flat_map f l = map g l.
Proof.
  induction l as [| x l IH]; intros H; [reflexivity |].
  cbn [flat_map map]. rewrite (H x (or_introl eq_refl)), IH; [reflexivity |].
  intros y Hy. apply H. now right.
Qed.

End SegmentFacts.

(** C5. With strictly increasing sample positions that start at 0 and end
    at the last coordinate, the overlay has one segment per pair of
    neighbouring samples; segment [i] is the stretch of the path between
    the positions of samples [i] and [i + 1], both included; neighbouring
    segments meet in exactly that one position; and the segments laid end
    to end, each shared point written once, are the whole path. *)
Theorem gradient_segments_cover
        (A : Type) (undefined : A) (elevs dists : list Q) (idx : list nat)
        (coords allCoords : list A) :
  2 <= length elevs ->
  length idx = length elevs ->
  (forall j k, j < k < length idx -> nth j idx 0 < nth k idx 0) ->
  nth_error idx 0 = Some 0 ->
  nth_error idx (length idx - 1) = Some (length allCoords - 1) ->
  exists features,
    GradientSegmenter.applyGradientColoring
      A undefined elevs dists (Some idx) coords allCoords = Some features
    /\ length features = length elevs - 1
    /\ (forall i f, nth_error features i = Some f ->
          GradientSegmenter.f_coordinates f
          = GradientSegmenter.slice A allCoords (nth i idx 0) (nth (S i) idx 0 + 1)
          /\ length (GradientSegmenter.f_coordinates f)
             = nth (S i) idx 0 - nth i idx 0 + 1)
    /\ (forall i f g,
          nth_error features i = Some f -> nth_error features (S i) = Some g ->
          nth_error (GradientSegmenter.f_coordinates f)
                    (length (GradientSegmenter.f_coordinates f) - 1)
          = nth_error allCoords (nth (S i) idx 0)
          /\ nth_error (GradientSegmenter.f_coordinates g) 0
             = nth_error allCoords (nth (S i) idx 0))
    /\ GradientSegmenter.stitch A
         (map GradientSegmenter.f_coordinates features) = allCoords.
Proof.
  intros Hn Hlen Hinc Hfirst Hlast.
  set (n := length elevs) in *.
  assert (H0 : nth 0 idx 0 = 0) by (now apply nth_error_nth).
  assert (Hl : nth (n - 1) idx 0 = length allCoords - 1).
  { rewrite <- Hlen. now apply nth_error_nth. }
  assert (Hm : 1 <= length allCoords).
  { specialize (Hinc 0 (n - 1) ltac:(lia)). lia. }
  assert (Hbound : forall i, i < n -> nth i idx 0 < length allCoords).
  { intros i Hi. destruct (Nat.eq_dec i (n - 1)) as [-> | Hne]; [lia |].
    specialize (Hinc i (n - 1) ltac:(lia)). lia. }
  set (seg := fun i => GradientSegmenter.slice A allCoords
                         (nth i idx 0) (nth (S i) idx 0 + 1)).
  set (mk := fun i => GradientSegmenter.mkFeature
                        (GradientSegmenter.segment_grade elevs dists i) (seg i)).
  assert (Hseglen : forall i, i < n - 1 ->
                              length (seg i) = nth (S i) idx 0 - nth i idx 0 + 1).
  { intros i Hi. unfold seg. rewrite slice_length.
    - specialize (Hinc i (S i) ltac:(lia)). lia.
    - specialize (Hbound (S i) ltac:(lia)). lia. }
  assert (Hfeat : flat_map (GradientSegmenter.feature_at
                              A undefined elevs dists (Some idx) coords allCoords)
                           (seq 0 (n - 1))
                  = map mk (seq 0 (n - 1))).
  { apply flat_map_singletons. intros i Hi. apply in_seq in Hi.
    unfold GradientSegmenter.feature_at; cbv zeta.
    rewrite (nth_error_nth' idx 0 (n := i)) by lia.
    rewrite (nth_error_nth' idx 0 (n := i + 1)) by lia.
    replace (i + 1) with (S i) by lia. fold (seg i).
    destruct (Nat.ltb_spec (length (seg i)) 2) as [Hlt | _]; [| reflexivity].
    rewrite Hseglen in Hlt by lia.
    specialize (Hinc i (S i) ltac:(lia)). lia. }
  assert (Hnth : forall i f, nth_error (map mk (seq 0 (n - 1))) i = Some f ->
                             i < n - 1 /\ f = mk i).
  { intros i f Hf. rewrite nth_error_map in Hf.
    destruct (nth_error (seq 0 (n - 1)) i) as [k |] eqn:Hk; [| discriminate].
    assert (Hi : i < length (seq 0 (n - 1))).
    { apply nth_error_Some. congruence. }
    rewrite length_seq in Hi.
    rewrite nth_error_seq in Hk.
    destruct (Nat.ltb_spec i (n - 1)) as [_ | Hge]; [| lia].
    injection Hk as <-. injection Hf as <-. now split. }
  exists (map mk (seq 0 (n - 1))).
  split; [| split; [| split; [| split]]].
  - unfold GradientSegmenter.applyGradientColoring. fold n.
    destruct (Nat.ltb_spec n 2) as [Hlt | _]; [lia |]. now rewrite Hfeat.
  - now rewrite length_map, length_seq.
  - intros i f Hf. destruct (Hnth _ _ Hf) as [Hi ->].
    split; [reflexivity |]. unfold mk. cbn. now apply Hseglen.
  - intros i f g Hf Hg.
    destruct (Hnth _ _ Hf) as [Hi ->]. destruct (Hnth _ _ Hg) as [Hi' ->].
    unfold mk. cbn [GradientSegmenter.f_coordinates].
    rewrite Hseglen by lia. unfold seg.
    pose proof (Hinc i (S i) ltac:(lia)) as Hlt.
    pose proof (Hinc (S i) (S (S i)) ltac:(lia)) as Hlt'.
    rewrite !slice_nth_error by lia.
    split; f_equal; lia.
  - rewrite map_map. unfold mk. cbn [GradientSegmenter.f_coordinates].
    replace (n - 1) with (S (n - 2)) by lia. unfold seg.
    rewrite (stitch_slices A allCoords (fun i => nth i idx 0) (n - 2)).
    + rewrite H0. replace (S (n - 2)) with (n - 1) by lia. rewrite Hl.
      apply slice_all.
    + intros i Hi. apply Hinc. lia.
Qed.

Lemma gradient_segments_cover_witness :
  exists features,
    GradientSegmenter.applyGradientColoring
      nat 0 [100; 150; 100]%Q [0; 1; 2]%Q (Some [0; 2; 4])
      [10; 12; 14] [10; 11; 12; 13; 14] = Some features
    /\ length features = length [100; 150; 100]%Q - 1
    /\ (forall i f, nth_error features i = Some f ->
          GradientSegmenter.f_coordinates f
          = GradientSegmenter.slice nat [10; 11; 12; 13; 14]
              (nth i [0; 2; 4] 0) (nth (S i) [0; 2; 4] 0 + 1)
          /\ length (GradientSegmenter.f_coordinates f)
             = nth (S i) [0; 2; 4] 0 - nth i [0; 2; 4] 0 + 1)
    /\ (forall i f g,
          nth_error features i = Some f -> nth_error features (S i) = Some g ->
          nth_error (GradientSegmenter.f_coordinates f)
                    (length (GradientSegmenter.f_coordinates f) - 1)
          = nth_error [10; 11; 12; 13; 14] (nth (S i) [0; 2; 4] 0)
          /\ nth_error (GradientSegmenter.f_coordinates g) 0
             = nth_error [10; 11; 12; 13; 14] (nth (S i) [0; 2; 4] 0))
    /\ GradientSegmenter.stitch nat
         (map GradientSegmenter.f_coordinates features)
       = [10; 11; 12; 13; 14].
Proof.
  apply (gradient_segments_cover nat 0 [100; 150; 100]%Q [0; 1; 2]%Q
                                 [0; 2; 4] [10; 12; 14] [10; 11; 12; 13; 14]).
  - cbn. lia.
  - reflexivity.
  - intros j k Hjk. cbn in Hjk.
    destruct j as [| [| [| j]]]; destruct k as [| [| [| k]]]; cbn; lia.
  - reflexivity.
  - reflexivity.
Defined.

(** ** ChartRenderer *)

Section ExtremaFacts.
Local Open Scope Q_scope.

Lemma fold_min_le (rest : list Q) :
  forall a, fold_left Qmin rest a <= a
            /\ (forall x, In x rest -> fold_left Qmin rest a <= x).
Proof.
  induction rest as [| y rest IH]; intros a; cbn [fold_left].
  - split; [apply Qle_refl | intros x []].
  - destruct (IH (Qmin a y)) as [H1 H2]. split.
    + eapply Qle_trans; [exact H1 | apply Q.le_min_l].
    + intros x [<- | Hx].
      * eapply Qle_trans; [exact H1 | apply Q.le_min_r].
      * now apply H2.
Qed.

Lemma fold_max_ge (rest : list Q) :
  forall a, a <= fold_left Qmax rest a
            /\ (forall x, In x rest -> x <= fold_left Qmax rest a).
Proof.
  induction rest as [| y rest IH]; intros a; cbn [fold_left].
  - split; [apply Qle_refl | intros x []].
  - destruct (IH (Qmax a y)) as [H1 H2]. split.
    + eapply Qle_trans; [apply Q.le_max_l | exact H1].
    + intros x [<- | Hx].
      * eapply Qle_trans; [apply Q.le_max_r | exact H1].
      * now apply H2.
Qed.

Lemma min_list_le (e : Q) (rest : list Q) (x : Q) :
  In x (e :: rest) -> ChartRenderer.min_list e rest <= x.
Proof.
  unfold ChartRenderer.min_list. destruct (fold_min_le rest e) as [H1 H2].
  intros [<- | Hx]; [exact H1 | now apply H2].
Qed.

Lemma max_list_ge (e : Q) (rest : list Q) (x : Q) :
  In x (e :: rest) -> x <= ChartRenderer.max_list e rest.
Proof.
  unfold ChartRenderer.max_list. destruct (fold_max_ge rest e) as [H1 H2].
  intros [<- | Hx]; [exact H1 | now apply H2].
Qed.

Lemma isPeak_iff (prev cur next range : Q) :
  ChartRenderer.isPeak prev cur next range = true
  <-> prev < cur /\ next < cur /\ range * (8 # 100) < cur - Qmin prev next.
Proof.
  unfold ChartRenderer.isPeak. rewrite !andb_true_iff, !Num.ltb_lt. tauto.
Qed.

Lemma isValley_iff (prev cur next range : Q) :
  ChartRenderer.isValley prev cur next range = true
  <-> cur < prev /\ cur < next /\ range * (8 # 100) < Qmax prev next - cur.
Proof.
  unfold ChartRenderer.isValley. rewrite !andb_true_iff, !Num.ltb_lt. tauto.
Qed.

(** Replacing a zero range by 1 changes neither test: with a zero range
    all elevations are equal and no strict comparison holds. *)
Lemma flat_profile_no_strict (lo hi a b : Q) :
  hi - lo == 0 -> lo <= a -> a <= hi -> lo <= b -> b <= hi -> ~ a < b.
Proof.
  intros Hz Ha1 Ha2 Hb1 Hb2 Hab.
  assert (Hhl : hi == lo) by (rewrite <- (Qplus_0_l lo), <- Hz; ring).
  rewrite Hhl in Hb2.
  apply (Qlt_irrefl a). eapply Qlt_le_trans; [exact Hab |].
  eapply Qle_trans; eassumption.
Qed.

Lemma in_marker_at (elevs : list Q) (range : Q) (k i : nat)
      (m : ChartRenderer.Marker) :
  In (i, m) (ChartRenderer.marker_at elevs range k) -> i = k.
Proof.
  unfold ChartRenderer.marker_at.
  destruct (nth_error elevs (k - 1)); [| intros []].
  destruct (nth_error elevs k); [| intros []].
  destruct (nth_error elevs (k + 1)); [| intros []].
  cbv zeta. destruct (_ || _); [| intros []].
  intros [H | []]. now inversion H.
Qed.

Lemma in_extrema_markers (e0 e1 : Q) (rest : list Q) (i : nat)
      (m : ChartRenderer.Marker) :
  let elevs := e0 :: e1 :: rest in
  (1 <= i)%nat -> (i + 1 < length elevs)%nat ->
  (In (i, m) (ChartRenderer.extrema_markers elevs)
   <-> In (i, m) (ChartRenderer.marker_at elevs
                    (ChartRenderer.elevRange
                       (ChartRenderer.min_list e0 (e1 :: rest))
                       (ChartRenderer.max_list e0 (e1 :: rest))) i)).
Proof.
  intros elevs Hi1 Hi2.
  change (ChartRenderer.extrema_markers elevs)
    with (flat_map (ChartRenderer.marker_at elevs
                      (ChartRenderer.elevRange
                         (ChartRenderer.min_list e0 (e1 :: rest))
                         (ChartRenderer.max_list e0 (e1 :: rest))))
                   (seq 1 (length elevs - 2))).
  rewrite in_flat_map. split.
  - intros (k & Hk & Hin). pose proof (in_marker_at _ _ _ _ _ Hin) as ->.
    exact Hin.
  - intros Hin. exists i. split; [| exact Hin].
    apply in_seq. lia.
Qed.

End ExtremaFacts.

(** C6. An inner index is marked as a peak exactly when its elevation is
    above both neighbours and exceeds the lower neighbour by more than 8%
    of the elevation range, and as a valley under the mirrored condition. *)
Theorem extremum_marker_iff (elevs : list Q) (i : nat) (prev cur next : Q) :
  3 <= length elevs -> 1 <= i -> i + 1 < length elevs ->
  nth_error elevs (i - 1) = Some prev ->
  nth_error elevs i = Some cur ->
  nth_error elevs (i + 1) = Some next ->
  let minElev := ChartRenderer.min_list (hd 0%Q elevs) (tl elevs) in
  let maxElev := ChartRenderer.max_list (hd 0%Q elevs) (tl elevs) in
  (In (i, ChartRenderer.Peak) (ChartRenderer.extrema_markers elevs)
   <-> (prev < cur /\ next < cur
        /\ (maxElev - minElev) * (8 # 100) < cur - Qmin prev next)%Q)
  /\ (In (i, ChartRenderer.Valley) (ChartRenderer.extrema_markers elevs)
      <-> (cur < prev /\ cur < next
           /\ (maxElev - minElev) * (8 # 100) < Qmax prev next - cur)%Q).
Proof.
  intros Hn Hi1 Hi2 Hprev Hcur Hnext.
  destruct elevs as [| e0 [| e1 rest]]; [cbn in Hn; lia | cbn in Hn; lia |].
  cbv zeta. cbn [hd tl].
  rewrite !in_extrema_markers by assumption.
  set (minElev := ChartRenderer.min_list e0 (e1 :: rest)).
  set (maxElev := ChartRenderer.max_list e0 (e1 :: rest)).
  unfold ChartRenderer.marker_at. rewrite Hprev, Hcur, Hnext. cbv zeta.
  assert (Hin : forall k x, nth_error (e0 :: e1 :: rest) k = Some x ->
                            (minElev <= x)%Q /\ (x <= maxElev)%Q).
  { intros k x Hx. apply nth_error_In in Hx. split.
    - now apply min_list_le.
    - now apply max_list_ge. }
  destruct (Hin _ _ Hprev) as [Hp1 Hp2].
  destruct (Hin _ _ Hcur) as [Hc1 Hc2].
  destruct (Hin _ _ Hnext) as [Hn1 Hn2].
  assert (Hrange : forall P : Q -> Prop,
             (forall r, P r -> (prev < cur)%Q \/ (cur < prev)%Q) ->
             (P (ChartRenderer.elevRange minElev maxElev)
              <-> P (maxElev - minElev)%Q)).
  { intros P HP. unfold ChartRenderer.elevRange.
    destruct (Qeq_bool (maxElev - minElev) 0) eqn:Hz; [| tauto].
    apply Qeq_bool_iff in Hz.
    split; intros H; exfalso; destruct (HP _ H) as [Hlt | Hlt];
      revert Hlt; eapply flat_profile_no_strict; eassumption. }
  set (r := ChartRenderer.elevRange minElev maxElev) in *.
  pose proof (isPeak_iff prev cur next r) as HP.
  pose proof (isValley_iff prev cur next r) as HV.
  assert (HPr : (prev < cur /\ next < cur /\ r * (8 # 100) < cur - Qmin prev next
                 <-> prev < cur /\ next < cur
                     /\ (maxElev - minElev) * (8 # 100) < cur - Qmin prev next)%Q).
  { apply (Hrange (fun x => prev < cur /\ next < cur
                            /\ x * (8 # 100) < cur - Qmin prev next)%Q).
    intros x (H & _). now left. }
  assert (HVr : (cur < prev /\ cur < next /\ r * (8 # 100) < Qmax prev next - cur
                 <-> cur < prev /\ cur < next
                     /\ (maxElev - minElev) * (8 # 100) < Qmax prev next - cur)%Q).
  { apply (Hrange (fun x => cur < prev /\ cur < next
                            /\ x * (8 # 100) < Qmax prev next - cur)%Q).
    intros x (H & _). now right. }
  rewrite <- HPr, <- HVr, <- HP, <- HV.
  destruct (ChartRenderer.isPeak prev cur next r) eqn:Ep;
    destruct (ChartRenderer.isValley prev cur next r) eqn:Ev; cbn.
  - exfalso.
    destruct (proj1 HP eq_refl) as (Ep' & _).
    destruct (proj1 HV eq_refl) as (Ev' & _).
    apply (Qlt_irrefl prev). eapply Qlt_trans; eassumption.
  - split; split; try tauto; try discriminate.
    intros [H | []]. discriminate.
  - split; split; try tauto; try discriminate.
    intros [H | []]. discriminate.
  - split; split; try tauto; try discriminate.
Qed.

Lemma extremum_marker_iff_witness :
  ChartRenderer.extrema_markers [100; 150; 100]%Q = [(1, ChartRenderer.Peak)]
  /\ (In (1, ChartRenderer.Peak) (ChartRenderer.extrema_markers [100; 150; 100]%Q)
      <-> (100 < 150 /\ 100 < 150
           /\ (ChartRenderer.max_list 100 [150; 100]
               - ChartRenderer.min_list 100 [150; 100]) * (8 # 100)
              < 150 - Qmin 100 100)%Q).
Proof.
  split; [reflexivity |].
  apply (extremum_marker_iff [100; 150; 100]%Q 1 100%Q 150%Q 100%Q);
    solve [cbn; lia | reflexivity].
Defined.

(** ** HoverController *)

Section NearestFacts.
Local Open Scope Q_scope.

Variable dists : list Q.
Variable targetDist : Q.

Let gap (i : nat) : Q := Qabs (nth i dists 0 - targetDist).

(** What the scan has established once it has looked at indices [0..k]. *)
Definition scanned (k closest : nat) : Prop :=
  (closest <= k)%nat
  /\ (forall j, (j <= k)%nat -> gap closest <= gap j)
  /\ (forall j, (j < closest)%nat -> gap closest < gap j).

Lemma scan_prefix (k : nat) :
  scanned k (fold_left (HoverController.scan_step dists targetDist)
                       (seq 1 k) 0%nat).
Proof.
  induction k as [| k IH].
  - cbn [seq fold_left]. split; [lia | split].
    + intros j Hj. replace j with 0%nat by lia. apply Qle_refl.
    + intros j Hj. lia.
  - rewrite seq_S, fold_left_app. cbn [fold_left Nat.add].
    set (c := fold_left _ (seq 1 k) 0%nat) in *.
    destruct IH as (Hck & Hmin & Hfirst).
    unfold HoverController.scan_step.
    fold (gap (S k)). fold (gap c).
    destruct (Num.ltb (gap (S k)) (gap c)) eqn:Hlt.
    + apply Num.ltb_lt in Hlt. split; [lia | split].
      * intros j Hj. destruct (Nat.eq_dec j (S k)) as [-> | Hne].
        -- apply Qle_refl.
        -- apply Qlt_le_weak. eapply Qlt_le_trans; [exact Hlt |].
           apply Hmin. lia.
      * intros j Hj. eapply Qlt_le_trans; [exact Hlt |]. apply Hmin. lia.
    + apply Num.ltb_ge in Hlt. split; [lia | split].
      * intros j Hj. destruct (Nat.eq_dec j (S k)) as [-> | Hne].
        -- exact Hlt.
        -- apply Hmin. lia.
      * exact Hfirst.
Qed.

End NearestFacts.

(** C7. The hover lookup returns an index of the profile whose distance
    is nearest to the target, and among equally near samples the lowest
    index. *)
Theorem nearest_sample_minimizes (dists : list Q) (d : Q) :
  2 <= length dists ->
  (0 <= d)%Q -> (d <= nth (length dists - 1) dists 0)%Q ->
  let c := HoverController.nearest_sample dists d in
  c < length dists
  /\ (forall j, j < length dists ->
                (Qabs (nth c dists 0 - d) <= Qabs (nth j dists 0 - d))%Q)
  /\ (forall j, j < c ->
                (Qabs (nth c dists 0 - d) < Qabs (nth j dists 0 - d))%Q).
Proof.
  intros Hn _ _ c.
  destruct (scan_prefix dists d (length dists - 1)) as (Hc & Hmin & Hfirst).
  fold (HoverController.nearest_sample dists d) in Hc, Hmin, Hfirst.
  fold c in Hc, Hmin, Hfirst.
  split; [lia | split].
  - intros j Hj. apply Hmin. lia.
  - exact Hfirst.
Qed.

Lemma nearest_sample_minimizes_witness :
  let c := HoverController.nearest_sample [0; 1; 2]%Q (3 # 2) in
  c < 3
  /\ (forall j, j < 3 ->
                (Qabs (nth c [0; 1; 2] 0 - (3 # 2))
                 <= Qabs (nth j [0; 1; 2] 0 - (3 # 2)))%Q)
  /\ (forall j, j < c ->
                (Qabs (nth c [0; 1; 2] 0 - (3 # 2))
                 < Qabs (nth j [0; 1; 2] 0 - (3 # 2)))%Q).
Proof.
  apply (nearest_sample_minimizes [0; 1; 2]%Q (3 # 2));
    [cbn; lia | unfold Qle; cbn; lia | unfold Qle; cbn; lia].
Defined.

(** ** FetchCoordinator *)



(* ===================================================================== *)
(** * Further properties of the code *)
(* ===================================================================== *)

(** ** Sampler: stride and small paths *)

Section SamplerFacts.

Variable A : Type.
Variable same_ref : A -> A -> bool.

(** The loop keeps the positions [i], [i + step], [i + 2 * step], ... and
    stops at the first one that is not below the length. *)
Lemma sample_loop_positions (coords : list A) (step : nat) :
  forall fuel i sampled indices,
    Sampler.sample_loop A fuel coords step i = Some (sampled, indices) ->
    length sampled = length indices
    /\ length coords <= i + length indices * step
    /\ forall k, k < length indices ->
                 nth k indices 0 = i + k * step
                 /\ nth k indices 0 < length coords.
Proof.
  induction fuel as [| fuel IH]; intros i sampled indices;
    cbn [Sampler.sample_loop]; [discriminate |].
  destruct (Nat.ltb_spec i (length coords)) as [Hlt | Hge].
  - destruct (nth_error coords i) as [c |]; [| discriminate].
    destruct (Sampler.sample_loop A fuel coords step (i + step))
      as [[sampled' indices'] |] eqn:Hrec; [| discriminate].
    intros [= <- <-]. destruct (IH _ _ _ Hrec) as (Hlen & Hstop & Hpos).
    cbn [length]. split; [lia |]. split; [lia |].
    intros [| k] Hk; cbn [nth].
    + lia.
    + destruct (Hpos k ltac:(lia)) as [-> Hb]. lia.
  - intros [= <- <-]. cbn. split; [reflexivity |]. split; [lia |]. intros; lia.
Qed.

Lemma sample_loop_unit_stride (coords : list A) :
  forall fuel i,
    length coords - i < fuel ->
    Sampler.sample_loop A fuel coords 1 i
    = Some (skipn i coords, seq i (length coords - i)).
Proof.
  induction fuel as [| fuel IH]; intros i Hfuel; [lia |].
  cbn [Sampler.sample_loop].
  destruct (Nat.ltb_spec i (length coords)) as [Hlt | Hge].
  - destruct (nth_error coords i) as [c |] eqn:Hc.
    2: { apply nth_error_None in Hc. lia. }
    rewrite Nat.add_1_r, IH by lia.
    replace (length coords - i) with (S (length coords - S i)) by lia.
    cbn [seq]. f_equal. f_equal.
    rewrite <- (firstn_skipn i coords) in Hc |- * at 1.
    clear IH Hfuel. revert coords Hlt Hc.
    induction i as [| i IHi]; intros coords Hlt Hc.
    + destruct coords as [| x l]; [cbn in Hlt; lia |].
      cbn in Hc. injection Hc as ->. reflexivity.
    + destruct coords as [| x l]; [cbn in Hlt; lia |].
      cbn [skipn]. apply IHi; [cbn in Hlt; lia |].
      rewrite firstn_skipn. rewrite firstn_skipn in Hc. exact Hc.
  - rewrite skipn_all2 by lia. replace (length coords - i) with 0 by lia.
    reflexivity.
Qed.

End SamplerFacts.

Lemma path_distinct (m : nat) :
  Sampler.distinct_objects nat Nat.eqb (Sampler.path_of_length m).
Proof.
  intros i j a b Ha Hb. unfold Sampler.path_of_length in *.
  assert (Hi : i < length (seq 0 m)) by (apply nth_error_Some; congruence).
  assert (Hj : j < length (seq 0 m)) by (apply nth_error_Some; congruence).
  rewrite length_seq in Hi, Hj.
  rewrite nth_error_seq in Ha, Hb.
  destruct (Nat.ltb_spec i m); [| lia]. destruct (Nat.ltb_spec j m); [| lia].
  injection Ha as <-. injection Hb as <-. cbn [Nat.add].
  apply Nat.eqb_eq.
Qed.

(** X1. For a path of at least two distinct coordinate objects the sampler
    returns a sample set: each sampled object is the coordinate at its
    recorded position, the first position is 0, the last is the end of the
    path, and the positions strictly increase. *)
Theorem sample_endpoints_and_order
        (A : Type) (same_ref : A -> A -> bool) (coords : list A) :
  2 <= length coords -> Sampler.distinct_objects A same_ref coords ->
  exists sampled indices,
    Sampler.sample A same_ref coords = Some (sampled, indices)
    /\ Forall2 (fun c k => nth_error coords k = Some c) sampled indices
    /\ nth_error indices 0 = Some 0
    /\ nth_error indices (length indices - 1) = Some (length coords - 1)
    /\ (forall j k, j < k < length indices ->
                    nth j indices 0 < nth k indices 0).
Proof.
  intros Hm Hd.
  destruct (Sampler.sample_wf A same_ref coords Hm Hd)
    as (sampled & indices & Hs & [H1 H2 H3 H4]).
  exists sampled, indices. auto.
Qed.

Lemma sample_endpoints_and_order_witness :
  exists sampled indices,
    Sampler.sample nat Nat.eqb (Sampler.path_of_length 200)
    = Some (sampled, indices)
    /\ Forall2 (fun c k => nth_error (Sampler.path_of_length 200) k = Some c)
               sampled indices
    /\ nth_error indices 0 = Some 0
    /\ nth_error indices (length indices - 1)
       = Some (length (Sampler.path_of_length 200) - 1)
    /\ (forall j k, j < k < length indices ->
                    nth j indices 0 < nth k indices 0).
Proof.
  apply (sample_endpoints_and_order nat Nat.eqb (Sampler.path_of_length 200)).
  - vm_compute. lia.
  - apply path_distinct.
Defined.

(** X2. Whatever the length of the path, the sample set has at most
    [2 * maxSamples - 1 = 159] entries. *)
Theorem sample_at_most_159
        (A : Type) (same_ref : A -> A -> bool)
        (coords sampled : list A) (indices : list nat) :
  2 <= length coords -> Sampler.distinct_objects A same_ref coords ->
  Sampler.sample A same_ref coords = Some (sampled, indices) ->
  length sampled = length indices /\ length indices <= 159.
Proof.
  intros Hm Hd Hs. split.
  - destruct (Sampler.sample_wf A same_ref coords Hm Hd)
      as (sampled' & indices' & Hs' & [H1 _ _ _]).
    rewrite Hs in Hs'. injection Hs' as <- <-.
    eapply Forall2_length; eassumption.
  - apply (Sampler.sample_length_bound A same_ref coords sampled indices Hm Hd Hs).
Qed.

Lemma sample_at_most_159_witness :
  length (Sampler.path_of_length 159) = length (seq 0 159)
  /\ length (seq 0 159) <= 159.
Proof.
  apply (sample_at_most_159 nat Nat.eqb (Sampler.path_of_length 159)
                            (Sampler.path_of_length 159) (seq 0 159)).
  - vm_compute. lia.
  - apply path_distinct.
  - vm_compute. reflexivity.
Defined.

(** X3. A path of fewer than [2 * maxSamples = 160] coordinates is sent
    whole: every coordinate is sampled, at its own position. *)
Theorem small_path_sampled_whole
        (A : Type) (same_ref : A -> A -> bool) (coords : list A) :
  length coords < 2 * Sampler.maxSamples ->
  Sampler.distinct_objects A same_ref coords ->
  Sampler.sample A same_ref coords = Some (coords, seq 0 (length coords)).
Proof.
  intros Hm Hd. unfold Sampler.sample.
  assert (Hstep : Nat.max 1 (length coords / Sampler.maxSamples) = 1).
  { unfold Sampler.maxSamples in *.
    pose proof (Nat.div_mod_eq (length coords) 80).
    pose proof (Nat.mod_upper_bound (length coords) 80 ltac:(lia)). lia. }
  rewrite Hstep, sample_loop_unit_stride by lia.
  cbn [skipn]. rewrite Nat.sub_0_r.
  destruct (nth_error coords (length coords - 1)) as [a |] eqn:Ha;
    [| reflexivity].
  now rewrite (proj2 (Hd _ _ _ _ Ha Ha) eq_refl).
Qed.

Lemma small_path_sampled_whole_witness :
  Sampler.sample nat Nat.eqb (Sampler.path_of_length 100)
  = Some (Sampler.path_of_length 100, seq 0 (length (Sampler.path_of_length 100))).
Proof.
  apply (small_path_sampled_whole nat Nat.eqb (Sampler.path_of_length 100)).
  - vm_compute. lia.
  - apply path_distinct.
Defined.

(** X4. The samples are evenly spaced: every recorded position except
    possibly the last is a multiple of the stride, and two neighbouring
    positions are never further apart than the stride. *)
Theorem sample_stride_uniform
        (A : Type) (same_ref : A -> A -> bool)
        (coords sampled : list A) (indices : list nat) :
  Sampler.sample A same_ref coords = Some (sampled, indices) ->
  let step := Nat.max 1 (length coords / Sampler.maxSamples) in
  forall k, S k < length indices ->
    nth k indices 0 = k * step
    /\ nth k indices 0 <= nth (S k) indices 0
    /\ nth (S k) indices 0 <= nth k indices 0 + step.
Proof.
  unfold Sampler.sample. intros Hs. cbv zeta in Hs |- *.
  set (step := Nat.max 1 (length coords / Sampler.maxSamples)) in *.
  destruct (Sampler.sample_loop A (S (length coords)) coords step 0)
    as [[sampled0 indices0] |] eqn:Hloop; [| discriminate].
  destruct (sample_loop_positions A coords step _ _ _ _ Hloop)
    as (Hlen & Hstop & Hpos).
  assert (Hinner : forall k, S k < length indices0 ->
            nth k indices0 0 = k * step
            /\ nth k indices0 0 <= nth (S k) indices0 0
            /\ nth (S k) indices0 0 <= nth k indices0 0 + step).
  { intros k Hk. destruct (Hpos k ltac:(lia)) as [E1 _].
    destruct (Hpos (S k) ltac:(lia)) as [E2 _].
    rewrite E1, E2, Nat.mul_succ_l. lia. }
  destruct (nth_error sampled0 (length sampled0 - 1)) as [a |] eqn:Ha.
  2: { injection Hs as <- <-. exact Hinner. }
  destruct (nth_error coords (length coords - 1)) as [b |] eqn:Hb.
  2: { injection Hs as <- <-. exact Hinner. }
  destruct (same_ref a b); injection Hs as <- <-; [exact Hinner |].
  intros k Hk. rewrite length_app in Hk. cbn [length] in Hk.
  assert (Hne : 0 < length indices0).
  { rewrite <- Hlen.
    assert (length sampled0 - 1 < length sampled0)
      by (apply nth_error_Some; congruence).
    lia. }
  destruct (Nat.eq_dec (S k) (length indices0)) as [Hlast | Hin].
  - rewrite app_nth1 by lia. rewrite app_nth2 by lia.
    replace (S k - length indices0) with 0 by lia. cbn [nth].
    destruct (Hpos k ltac:(lia)) as [E Hb'].
    rewrite <- Hlast, Nat.mul_succ_l in Hstop. lia.
  - rewrite !app_nth1 by lia. apply Hinner. lia.
Qed.

Lemma sample_stride_uniform_witness :
  nth 3 (seq 0 100) 0 = 3 * Nat.max 1 (100 / Sampler.maxSamples)
  /\ nth 3 (seq 0 100) 0 <= nth 4 (seq 0 100) 0
  /\ nth 4 (seq 0 100) 0
     <= nth 3 (seq 0 100) 0 + Nat.max 1 (100 / Sampler.maxSamples).
Proof.
  apply (sample_stride_uniform nat Nat.eqb (Sampler.path_of_length 100)
                               (Sampler.path_of_length 100) (seq 0 100)).
  - vm_compute. reflexivity.
  - vm_compute. lia.
Defined.

(** ** ProfileBuilder: shape of the profile and sanitized elevations *)

Lemma accumulate_length (rest : list ProfileBuilder.Coord) :
  forall prev acc,
    length (ProfileBuilder.accumulate prev acc rest) = length rest.
Proof.
  induction rest as [| c rest IH]; intros prev acc; cbn; [reflexivity |].
  now rewrite IH.
Qed.

Lemma cumulative_distances_length (sampled : list ProfileBuilder.Coord) :
  sampled <> [] ->
  length (ProfileBuilder.cumulative_distances sampled) = length sampled.
Proof.
  destruct sampled as [| c rest]; [congruence | intros _].
  cbn. now rewrite accumulate_length.
Qed.

(** X5. When the lookup answers one elevation per sample, the profile the
    route builder stores has four sequences of one common length, at least
    two, and its distances start at 0. *)
Theorem built_profile_shape
        (string_is_nan : string -> bool) (data : ProfileBuilder.Response)
        (coords sampled : list ProfileBuilder.Coord) (indices : list nat)
        (elevs : list JS.value) :
  2 <= length coords ->
  NoDup (map ProfileBuilder.ref coords) ->
  Sampler.sample ProfileBuilder.Coord ProfileBuilder.same_ref coords
  = Some (sampled, indices) ->
  ProfileBuilder.elevations data = Some elevs ->
  length elevs = length sampled ->
  let p := snd (ProfileBuilder.on_elevation_data
                  string_is_nan data sampled indices) in
  exists es,
    ProfileBuilder.p_elevations p = Some es
    /\ length es = length (ProfileBuilder.p_indices p)
    /\ length (ProfileBuilder.p_distances p)
       = length (ProfileBuilder.p_indices p)
    /\ length (ProfileBuilder.p_coordinates p)
       = length (ProfileBuilder.p_indices p)
    /\ 2 <= length (ProfileBuilder.p_indices p)
    /\ nth_error (ProfileBuilder.p_distances p) 0 = Some 0%R.
Proof.
  intros Hm Hnd Hs He Hlen p.
  destruct (Sampler.sample_wf _ _ coords Hm (ProfileBuilder.distinct_refs _ Hnd))
    as (sampled' & indices' & Hs' & [Hlook Hfirst Hlast Hsorted]).
  rewrite Hs in Hs'. injection Hs' as <- <-.
  pose proof (Forall2_length Hlook) as Hsi.
  assert (Hn : 2 <= length indices).
  { destruct indices as [| i0 [| i1 rest]]; cbn in *; try discriminate; [| lia].
    injection Hfirst as ->. injection Hlast as Hl. lia. }
  exists (ProfileBuilder.sanitize string_is_nan elevs).
  subst p. cbn. rewrite He. cbn.
  split; [reflexivity |]. split.
  { rewrite ProfileBuilder.sanitize_length. lia. }
  split.
  { rewrite <- Hsi. destruct sampled as [| c rest]; [cbn in *; lia |].
    cbn. now rewrite accumulate_length. }
  auto.
Qed.

Lemma built_profile_shape_witness :
  let coords := [ProfileBuilder.mkCoord 0 0 0; ProfileBuilder.mkCoord 1 0 1] in
  let p := snd (ProfileBuilder.on_elevation_data
                  (fun _ => false)
                  {| ProfileBuilder.elevations := Some [JS.Null; JS.Num 5];
                     ProfileBuilder.elevation_gain_m := JS.Undefined |}
                  coords [0; 1]) in
  exists es,
    ProfileBuilder.p_elevations p = Some es
    /\ length es = length (ProfileBuilder.p_indices p)
    /\ length (ProfileBuilder.p_distances p)
       = length (ProfileBuilder.p_indices p)
    /\ length (ProfileBuilder.p_coordinates p)
       = length (ProfileBuilder.p_indices p)
    /\ 2 <= length (ProfileBuilder.p_indices p)
    /\ nth_error (ProfileBuilder.p_distances p) 0 = Some 0%R.
Proof.
  intros coords.
  apply (built_profile_shape (fun _ => false) _ coords coords [0; 1]
                             [JS.Null; JS.Num 5]).
  - cbn. lia.
  - cbn. repeat constructor; cbn; intuition discriminate.
  - reflexivity.
  - reflexivity.
  - reflexivity.
Defined.

(** X6. Sanitizing keeps the number of elevations, leaves no entry that is
    [null], [undefined] or [NaN] under [isNaN], does not touch the other
    entries, and sanitizing again changes nothing. *)
Theorem sanitize_postcondition
        (string_is_nan : string -> bool) (elevs : list JS.value) :
  let out := ProfileBuilder.sanitize string_is_nan elevs in
  length out = length elevs
  /\ (forall v, In v out ->
                JS.loose_eq_null v = false /\ JS.isNaN string_is_nan v = false)
  /\ (forall i v, nth_error elevs i = Some v ->
                  JS.loose_eq_null v = false ->
                  JS.isNaN string_is_nan v = false ->
                  nth_error out i = Some v)
  /\ ProfileBuilder.sanitize string_is_nan out = out.
Proof.
  intros out.
  assert (Hclean : forall v, In v out ->
             JS.loose_eq_null v = false /\ JS.isNaN string_is_nan v = false).
  { intros v Hv. unfold out, ProfileBuilder.sanitize in Hv.
    apply in_map_iff in Hv as (u & <- & _).
    unfold ProfileBuilder.sanitize_entry.
    destruct (JS.loose_eq_null u) eqn:E1; [now split |].
    destruct (JS.isNaN string_is_nan u) eqn:E2; [now split |].
    cbn. now split. }
  split; [apply ProfileBuilder.sanitize_length |].
  split; [exact Hclean |]. split.
  - intros i v Hv Hn Hnan. unfold out.
    rewrite (ProfileBuilder.sanitize_nth _ _ _ _ Hv).
    unfold ProfileBuilder.sanitize_entry. now rewrite Hn, Hnan.
  - unfold ProfileBuilder.sanitize at 1.
    rewrite <- (map_id out) at 2. apply map_ext_in.
    intros v Hv. destruct (Hclean v Hv) as [E1 E2].
    unfold ProfileBuilder.sanitize_entry. now rewrite E1, E2.
Qed.

Lemma sanitize_postcondition_witness :
  nth_error (ProfileBuilder.sanitize (fun _ => true)
               [JS.Null; JS.Num 120; JS.Str "n/a"]) 1
  = Some (JS.Num 120).
Proof.
  apply (proj1 (proj2 (proj2 (sanitize_postcondition
                                (fun _ => true)
                                [JS.Null; JS.Num 120; JS.Str "n/a"]))) 1);
    reflexivity.
Defined.

(** ** GeodesicMath: bound and longitudes *)

Lemma atan2_quadrant (y x : R) :
  (0 <= y)%R -> (0 <= x)%R -> (GeodesicMath.atan2 y x <= PI / 2)%R.
Proof.
  intros Hy Hx. unfold GeodesicMath.atan2.
  pose proof PI_RGT_0 as Hpi.
  destruct (Rlt_dec 0 x) as [Hpos | Hnpos].
  - left. apply atan_bound.
  - destruct (Rlt_dec x 0) as [Hneg | _]; [lra |].
    destruct (Rlt_dec 0 y) as [_ | _]; [lra |].
    destruct (Rlt_dec y 0); lra.
Qed.

Lemma sin_sqr_shift_PI (x : R) : (sin (x + PI) ^ 2 = sin x ^ 2)%R.
Proof. rewrite neg_sin. ring. Qed.

(** X7. No distance exceeds half the circumference of the sphere,
    [6371 * PI] km. *)
Theorem haversine_at_most_half_circumference (lat1 lon1 lat2 lon2 : R) :
  (GeodesicMath.haversine lat1 lon1 lat2 lon2 <= 6371 * PI)%R.
Proof.
  unfold GeodesicMath.haversine; cbv zeta.
  pose proof (atan2_quadrant
                (sqrt (GeodesicMath.hav_a lat1 lon1 lat2 lon2))
                (sqrt (1 - GeodesicMath.hav_a lat1 lon1 lat2 lon2))
                (sqrt_pos _) (sqrt_pos _)).
  lra.
Qed.

(** X8. The distance depends on the two longitudes only through their
    difference, and a full turn of 360 degrees in one longitude does not
    change it: a route across the antimeridian is measured the short way. *)
Theorem haversine_longitude_invariance (lat1 lon1 lat2 lon2 t : R) :
  GeodesicMath.haversine lat1 (lon1 + t) lat2 (lon2 + t)
  = GeodesicMath.haversine lat1 lon1 lat2 lon2
  /\ GeodesicMath.haversine lat1 lon1 lat2 (lon2 + 360)
     = GeodesicMath.haversine lat1 lon1 lat2 lon2
  /\ GeodesicMath.haversine lat1 lon1 lat2 (lon2 - 360)
     = GeodesicMath.haversine lat1 lon1 lat2 lon2.
Proof.
  unfold GeodesicMath.haversine, GeodesicMath.hav_a; cbv zeta.
  split; [| split].
  - replace (lon2 + t - (lon1 + t))%R with (lon2 - lon1)%R by ring.
    reflexivity.
  - replace ((lon2 + 360 - lon1) * PI / 180 / 2)%R
      with ((lon2 - lon1) * PI / 180 / 2 + PI)%R by field.
    now rewrite sin_sqr_shift_PI.
  - replace ((lon2 - lon1) * PI / 180 / 2)%R
      with ((lon2 - 360 - lon1) * PI / 180 / 2 + PI)%R by field.
    now rewrite sin_sqr_shift_PI.
Qed.

(** ** Chart layout *)

Section LayoutFacts.
Local Open Scope Q_scope.

Lemma unit_fraction (a r : Q) :
  0 <= a -> a <= r -> 0 < r -> 0 <= a / r /\ a / r <= 1.
Proof.
  intros Ha Har Hr. split.
  - apply Qle_shift_div_l; [exact Hr |]. now rewrite Qmult_0_l.
  - apply Qle_shift_div_r; [exact Hr |]. now rewrite Qmult_1_l.
Qed.

Lemma checked_div_some (a b : Q) :
  ~ b == 0 -> Num.checked_div a b = Some (a / b).
Proof.
  intros Hb. unfold Num.checked_div.
  destruct (Qeq_bool b 0) eqn:E; [| reflexivity].
  apply Qeq_bool_iff in E. contradiction.
Qed.

Lemma elevs_between (elevs : list Q) (e : Q) :
  In e elevs ->
  ChartLayout.minElev elevs <= e /\ e <= ChartLayout.maxElev elevs.
Proof.
  intros He. unfold ChartLayout.minElev, ChartLayout.maxElev.
  destruct elevs as [| e0 rest]; [destruct He |]. cbn [hd tl].
  split; [now apply min_list_le | now apply max_list_ge].
Qed.

Lemma min_le_max (elevs : list Q) :
  ChartLayout.minElev elevs <= ChartLayout.maxElev elevs.
Proof.
  unfold ChartLayout.minElev, ChartLayout.maxElev.
  apply Qle_trans with (hd 0 elevs).
  - apply min_list_le. now left.
  - apply max_list_ge. now left.
Qed.

(** [elevRange] is the spread of the elevations, or 1 when they are all
    equal: never zero. *)
Lemma range_cases (elevs : list Q) :
  0 < ChartLayout.range elevs
  /\ ((~ ChartLayout.maxElev elevs - ChartLayout.minElev elevs == 0
       /\ ChartLayout.range elevs
          = ChartLayout.maxElev elevs - ChartLayout.minElev elevs)
      \/ (ChartLayout.maxElev elevs - ChartLayout.minElev elevs == 0
          /\ ChartLayout.range elevs = 1)).
Proof.
  pose proof (min_le_max elevs) as Hle.
  unfold ChartLayout.range, ChartRenderer.elevRange.
  destruct (Qeq_bool (ChartLayout.maxElev elevs - ChartLayout.minElev elevs) 0)
    eqn:E.
  - apply Qeq_bool_iff in E. split; [reflexivity | right; now split].
  - assert (Hne : ~ ChartLayout.maxElev elevs - ChartLayout.minElev elevs == 0).
    { intros H. apply Qeq_bool_iff in H. congruence. }
    split; [| left; now split].
    destruct (Qlt_le_dec 0 (ChartLayout.maxElev elevs
                            - ChartLayout.minElev elevs)) as [Hlt | Hge];
      [exact Hlt |].
    exfalso. apply Hne. lra.
Qed.

Lemma chartH_value : ChartLayout.chartH == 92.
Proof. reflexivity. Qed.

End LayoutFacts.



(** X10. With a plot of non-negative width and a positive total distance,
    a sample whose distance lies between 0 and the total is plotted inside
    the plot area horizontally; distance 0 is on the left edge, the total
    on the right edge, and a larger distance is never plotted further
    left. *)
Theorem sample_plots_inside_horizontally
        (dists : list Q) (w total : Q) (i j : nat) (di dj : Q) :
  (0 <= ChartLayout.chartW w)%Q ->
  nth_error dists (length dists - 1) = Some total -> (0 < total)%Q ->
  nth_error dists i = Some di -> nth_error dists j = Some dj ->
  (0 <= di)%Q -> (di <= dj)%Q -> (dj <= total)%Q ->
  exists xi xj : Q,
    ChartLayout.point_x dists w i = Some xi
    /\ ChartLayout.point_x dists w j = Some xj
    /\ (ChartLayout.left <= xi)%Q /\ (xi <= xj)%Q
    /\ (xj <= ChartLayout.left + ChartLayout.chartW w)%Q
    /\ ((di == 0)%Q -> (xi == ChartLayout.left)%Q)
    /\ ((dj == total)%Q -> (xj == ChartLayout.left + ChartLayout.chartW w)%Q).
Proof.
  intros Hw Htotal Hpos Hi Hj H0 Hij Hjt.
  unfold ChartLayout.point_x, ChartLayout.x_of_distance.
  rewrite Hi, Hj, Htotal.
  assert (Hne : ~ (total == 0)%Q) by (intros H; rewrite H in Hpos; lra).
  rewrite !checked_div_some by exact Hne. cbn [option_map].
  eexists. eexists. split; [reflexivity |]. split; [reflexivity |].
  destruct (unit_fraction di total H0 ltac:(lra) Hpos) as [Hi0 Hi1].
  destruct (unit_fraction dj total ltac:(lra) Hjt Hpos) as [Hj0 Hj1].
  assert (Hmono : (di / total <= dj / total)%Q).
  { unfold Qdiv. apply Qmult_le_compat_r; [exact Hij |].
    apply Qlt_le_weak, Qinv_lt_0_compat, Hpos. }
  set (fi := (di / total)%Q) in *. set (fj := (dj / total)%Q) in *.
  split; [nra |]. split; [nra |]. split; [nra |]. split.
  - intros Hz. assert (E : (fi == 0)%Q) by (unfold fi; rewrite Hz; field; exact Hne).
    rewrite E. ring.
  - intros Hz. assert (E : (fj == 1)%Q) by (unfold fj; rewrite Hz; field; exact Hne).
    rewrite E. ring.
Qed.

Lemma sample_plots_inside_horizontally_witness :
  exists xi xj : Q,
    ChartLayout.point_x [0; 1; 2]%Q 154 1 = Some xi
    /\ ChartLayout.point_x [0; 1; 2]%Q 154 2 = Some xj
    /\ (ChartLayout.left <= xi)%Q /\ (xi <= xj)%Q
    /\ (xj <= ChartLayout.left + ChartLayout.chartW 154)%Q
    /\ ((1 == 0)%Q -> (xi == ChartLayout.left)%Q)
    /\ ((2 == 2)%Q -> (xj == ChartLayout.left + ChartLayout.chartW 154)%Q).
Proof.
  apply (sample_plots_inside_horizontally [0; 1; 2]%Q 154 2 1 2 1 2);
    solve [reflexivity | unfold Qle, Qlt; cbn; lia].
Defined.

(** X11. Unless the profile is flat, every elevation gridline is drawn at
    the height at which the elevation of its label is plotted, the top one
    being the maximum and the bottom one the minimum.  For a flat profile
    every sample is plotted on the bottom gridline, and that gridline is
    labelled with the elevation of the profile minus 1. *)
Theorem elevation_grid_matches_plot (elevs : list Q) :
  (~ (ChartLayout.maxElev elevs - ChartLayout.minElev elevs == 0)%Q ->
   (forall i : nat,
       exists y : Q,
         ChartLayout.y_of_elevation elevs (ChartLayout.tick_value elevs i)
         = Some y
         /\ (y == ChartLayout.tick_y i)%Q)
   /\ (ChartLayout.tick_value elevs 0 == ChartLayout.maxElev elevs)%Q
   /\ (ChartLayout.tick_value elevs 4 == ChartLayout.minElev elevs)%Q)
  /\ ((ChartLayout.maxElev elevs - ChartLayout.minElev elevs == 0)%Q ->
      (forall i e, nth_error elevs i = Some e ->
         exists y : Q,
           ChartLayout.point_y elevs i = Some y
           /\ (y == ChartLayout.tick_y 4)%Q)
      /\ (ChartLayout.tick_value elevs 4 == ChartLayout.maxElev elevs - 1)%Q).
Proof.
  destruct (range_cases elevs) as [Hpos Hcases].
  assert (Hne : ~ (ChartLayout.range elevs == 0)%Q)
    by (intros H; rewrite H in Hpos; lra).
  split.
  - intros Hnf. destruct Hcases as [[_ Hr] | [Hflat _]]; [| contradiction].
    split; [| split].
    + intros i. unfold ChartLayout.y_of_elevation.
      rewrite checked_div_some by exact Hne. cbn [option_map].
      eexists. split; [reflexivity |].
      unfold ChartLayout.tick_value, ChartLayout.tick_y. rewrite Hr.
      field. exact Hnf.
    + unfold ChartLayout.tick_value. cbn [Z.of_nat inject_Z].
      unfold Qdiv. ring.
    + unfold ChartLayout.tick_value. rewrite Hr. cbn. field.
  - intros Hflat. destruct Hcases as [[Hnf _] | [_ Hr]]; [contradiction |].
    split.
    + intros i e He. unfold ChartLayout.point_y. rewrite He.
      destruct (elevs_between elevs e (nth_error_In _ _ He)) as [Hlo Hhi].
      unfold ChartLayout.y_of_elevation.
      rewrite checked_div_some by exact Hne. cbn [option_map].
      eexists. split; [reflexivity |].
      assert (E : (e - ChartLayout.minElev elevs == 0)%Q) by lra.
      unfold ChartLayout.tick_y. rewrite E, Hr. cbn. field.
    + unfold ChartLayout.tick_value. rewrite Hr. cbn. field.
Qed.

Lemma elevation_grid_matches_plot_witness :
  (forall i : nat,
      exists y : Q,
        ChartLayout.y_of_elevation
          [100; 150; 100]%Q (ChartLayout.tick_value [100; 150; 100]%Q i)
        = Some y
        /\ (y == ChartLayout.tick_y i)%Q)
  /\ (ChartLayout.tick_value [100; 150; 100]%Q 0
      == ChartLayout.maxElev [100; 150; 100]%Q)%Q
  /\ (ChartLayout.tick_value [100; 150; 100]%Q 4
      == ChartLayout.minElev [100; 150; 100]%Q)%Q.
Proof.
  apply (proj1 (elevation_grid_matches_plot [100; 150; 100]%Q)).
  vm_compute. discriminate.
Defined.



(** X13. Pointing at the plotted position of a sample selects a sample at
    the same distance: the first one of the profile with that distance. *)
Theorem hover_at_sample_selects_it
        (dists : list Q) (w total d x : Q) (i : nat) :
  (0 < ChartLayout.chartW w)%Q ->
  nth_error dists (length dists - 1) = Some total -> (0 < total)%Q ->
  nth_error dists i = Some d -> (0 <= d)%Q -> (d <= total)%Q ->
  ChartLayout.point_x dists w i = Some x ->
  exists c : nat,
    ChartLayout.mousemove w x dists = Some c
    /\ c <= i
    /\ (nth c dists 0 == d)%Q
    /\ (forall j, j < c -> ~ (nth j dists 0 == d)%Q).
Proof.
  intros Hw Htotal Hpos Hi H0 Ht Hx.
  assert (Htz : ~ (total == 0)%Q) by (intros H; rewrite H in Hpos; lra).
  assert (Hwz : ~ (ChartLayout.chartW w == 0)%Q)
    by (intros H; rewrite H in Hw; lra).
  unfold ChartLayout.point_x, ChartLayout.x_of_distance in Hx.
  rewrite Hi, Htotal, checked_div_some in Hx by exact Htz.
  cbn [option_map] in Hx. injection Hx as <-.
  unfold ChartLayout.mousemove.
  destruct (Qeq_bool (ChartLayout.chartW w) 0) eqn:E.
  { apply Qeq_bool_iff in E. contradiction. }
  cbv zeta.
  set (frac := ((ChartLayout.left + d / total * ChartLayout.chartW w
                 - ChartLayout.left) / ChartLayout.chartW w)%Q).
  assert (Hfrac : (frac == d / total)%Q) by (unfold frac; field; now split).
  destruct (unit_fraction d total H0 Ht Hpos) as [Hf0 Hf1].
  assert (E0 : Num.ltb frac 0 = false) by (apply Num.ltb_ge; lra).
  assert (E1 : Num.ltb 1 frac = false) by (apply Num.ltb_ge; lra).
  rewrite E0, E1, Htotal. cbn [orb].
  set (target := (frac * total)%Q).
  assert (Htarget : (target == d)%Q).
  { unfold target. rewrite Hfrac. field. exact Htz. }
  destruct (scan_prefix dists target (length dists - 1))
    as (Hc & Hmin & Hfirst).
  fold (HoverController.nearest_sample dists target) in Hc, Hmin, Hfirst.
  set (c := HoverController.nearest_sample dists target) in *.
  assert (Hilt : i < length dists) by (apply nth_error_Some; congruence).
  assert (Hnth : nth i dists 0%Q = d) by (now apply nth_error_nth).
  assert (Hzero : (Qabs (nth i dists 0 - target) == 0)%Q).
  { rewrite Hnth, Htarget.
    setoid_replace (d - d)%Q with 0%Q by ring. reflexivity. }
  assert (Hcz : (Qabs (nth c dists 0 - target) == 0)%Q).
  { apply Qle_antisym; [| apply Qabs_nonneg].
    apply Qle_trans with (Qabs (nth i dists 0 - target))%Q;
      [apply Hmin; lia | rewrite Hzero; apply Qle_refl]. }
  assert (Hsame : forall k, (Qabs (nth k dists 0 - target) == 0)%Q ->
                            (nth k dists 0 == d)%Q).
  { intros k Hk.
    assert (Hle : (Qabs (nth k dists 0 - target) <= 0)%Q)
      by (rewrite Hk; apply Qle_refl).
    apply Qabs_Qle_condition in Hle. lra. }
  exists c. split; [reflexivity |]. split; [| split].
  - destruct (Nat.le_gt_cases c i) as [Hle | Hgt]; [exact Hle |].
    exfalso. specialize (Hfirst i Hgt). lra.
  - now apply Hsame.
  - intros j Hj Hjd. specialize (Hfirst j Hj).
    assert (Hjz : (Qabs (nth j dists 0 - target) == 0)%Q).
    { rewrite Hjd, Htarget.
      setoid_replace (d - d)%Q with 0%Q by ring. reflexivity. }
    lra.
Qed.

Lemma hover_at_sample_selects_it_witness :
  exists c : nat,
    ChartLayout.mousemove
      154 (ChartLayout.left + 1 / 2 * ChartLayout.chartW 154)%Q
      [0; 1; 1; 2]%Q = Some c
    /\ c <= 2
    /\ (nth c [0; 1; 1; 2]%Q 0 == 1)%Q
    /\ (forall j, j < c -> ~ (nth j [0; 1; 1; 2]%Q 0 == 1)%Q).
Proof.
  apply (hover_at_sample_selects_it
           [0; 1; 1; 2]%Q 154 2 1
           (ChartLayout.left + 1 / 2 * ChartLayout.chartW 154)%Q 2);
    solve [reflexivity | unfold Qle, Qlt; cbn; lia].
Defined.

(** X14. The tooltip box never starts left of the plot.  When it is not
    wider than the plot it ends inside the plot, and it is centred on the
    sample whenever that fits; when it is wider than the plot it starts at
    the left edge and sticks out on the right.  The baseline of its text is
    never higher than 8 pixels below the top of the plot, and the box is
    drawn from 14 pixels above the baseline: it never starts higher than 6
    pixels above the top of the plot, which is still inside the canvas, and
    it starts exactly there for every sample plotted less than 24 pixels
    below the top.  For a sample plotted lower the box ends 10 pixels above
    the sample, clear of the hover dot; for a sample plotted in the top 19
    pixels of the plot the box reaches below the upper edge of the dot.
    For a sample inside the plot the box ends inside the plot. *)
Theorem tooltip_clamped (w x y tw : Q) :
  (ChartLayout.left <= ChartLayout.tooltip_x w x tw)%Q
  /\ ((tw <= ChartLayout.chartW w)%Q ->
      (ChartLayout.tooltip_x w x tw + tw
       <= ChartLayout.left + ChartLayout.chartW w)%Q)
  /\ ((ChartLayout.left <= x - tw / 2)%Q ->
      (x + tw / 2 <= ChartLayout.left + ChartLayout.chartW w)%Q ->
      (ChartLayout.tooltip_x w x tw == x - tw / 2)%Q)
  /\ ((ChartLayout.chartW w < tw)%Q ->
      (ChartLayout.tooltip_x w x tw == ChartLayout.left)%Q
      /\ (ChartLayout.left + ChartLayout.chartW w
          < ChartLayout.tooltip_x w x tw + tw)%Q)
  /\ (ChartLayout.top + 8 <= ChartLayout.tooltip_y y)%Q
  /\ (ChartLayout.top - 6 <= ChartLayout.box_top y)%Q
  /\ (0 < ChartLayout.box_top y)%Q
  /\ ((y <= ChartLayout.top + 24)%Q ->
      (ChartLayout.box_top y == ChartLayout.top - 6)%Q
      /\ (ChartLayout.box_top y < ChartLayout.top)%Q)
  /\ ((ChartLayout.top + 24 <= y)%Q ->
      (ChartLayout.box_bottom y == y - 10)%Q
      /\ (ChartLayout.box_bottom y < ChartLayout.dot_top y)%Q)
  /\ ((ChartLayout.top <= y)%Q -> (y < ChartLayout.top + 19)%Q ->
      (ChartLayout.box_top y < ChartLayout.dot_top y)%Q
      /\ (ChartLayout.dot_top y < ChartLayout.box_bottom y)%Q)
  /\ ((y <= ChartLayout.top + ChartLayout.chartH)%Q ->
      (ChartLayout.box_bottom y
       <= ChartLayout.top + ChartLayout.chartH)%Q).
Proof.
  unfold ChartLayout.box_top, ChartLayout.box_bottom, ChartLayout.dot_top,
    ChartLayout.tooltip_x, ChartLayout.tooltip_y.
  pose proof chartH_value as HchartH.
  assert (Htop : (ChartLayout.top == 20)%Q) by reflexivity.
  set (top := ChartLayout.top) in *. set (cH := ChartLayout.chartH) in *.
  set (lo := ChartLayout.left). set (hi := (lo + ChartLayout.chartW w - tw)%Q).
  set (half := (tw / 2)%Q).
  assert (Hhalf : (half + half == tw)%Q) by (unfold half; field).
  destruct (Q.min_spec (x - half) hi) as [[Hm1 Em] | [Hm1 Em]];
    destruct (Q.max_spec lo (Qmin (x - half) hi)) as [[Hm2 Ex] | [Hm2 Ex]];
    destruct (Q.max_spec (top + 8) (y - 16)) as [[Hm3 Ey] | [Hm3 Ey]];
    rewrite Ex, Ey; rewrite Em in *; unfold hi in *;
    repeat split; intros; try lra.
Qed.

Lemma tooltip_clamped_witness :
  (ChartLayout.tooltip_x 154 50 40 + 40
   <= ChartLayout.left + ChartLayout.chartW 154)%Q
  /\ (ChartLayout.box_top 20 == ChartLayout.top - 6)%Q
  /\ (ChartLayout.box_top 20 < ChartLayout.top)%Q
  /\ (ChartLayout.box_bottom 60 < ChartLayout.dot_top 60)%Q.
Proof.
  pose proof (tooltip_clamped 154 50 20 40)
    as (_ & Hfit & _ & _ & _ & _ & _ & Hhigh & _).
  pose proof (tooltip_clamped 154 50 60 40)
    as (_ & _ & _ & _ & _ & _ & _ & _ & Hlow & _).
  split; [apply Hfit; unfold Qle; cbn; lia |].
  split; [apply Hhigh; unfold Qle; cbn; lia |].
  split; [apply Hhigh; unfold Qle; cbn; lia |].
  apply Hlow. unfold Qle; cbn; lia.
Defined.

(** X15. The grade shown in the tooltip has the magnitude of the grade
    that colours the segment; with a positive run it carries the sign of
    the rise, so the plus sign is shown exactly when the segment does not
    descend, and without a positive run it is 0 and shown with a plus. *)
Theorem tooltip_grade_signed (e0 e1 d0 d1 : Q) :
  exists s u : Q,
    ChartLayout.tooltip_grade e0 e1 d0 d1 = Some s
    /\ GradientSegmenter.grade e0 e1 d0 d1 = Some u
    /\ (Qabs s == u)%Q
    /\ ((0 < (d1 - d0) * 1000)%Q ->
        (ChartLayout.plus_sign s = true <-> (e0 <= e1)%Q))
    /\ (~ (0 < (d1 - d0) * 1000)%Q ->
        (s == 0)%Q /\ ChartLayout.plus_sign s = true).
Proof.
  unfold ChartLayout.tooltip_grade, GradientSegmenter.grade; cbv zeta.
  set (run := ((d1 - d0) * 1000)%Q).
  destruct (Num.ltb 0 run) eqn:Hrun.
  - apply Num.ltb_lt in Hrun.
    assert (Hnz : ~ (run == 0)%Q) by (intros H; rewrite H in Hrun; lra).
    rewrite checked_div_some by exact Hnz. cbn [option_map].
    eexists. eexists. split; [reflexivity |]. split; [reflexivity |].
    assert (Hinv : (0 < / run)%Q) by now apply Qinv_lt_0_compat.
    split; [| split].
    + rewrite Qabs_Qmult. rewrite (Qabs_pos 100) by (unfold Qle; cbn; lia).
      reflexivity.
    + intros _. unfold ChartLayout.plus_sign. rewrite Qle_bool_iff.
      unfold Qdiv. split; intros H.
      * assert (0 <= (e1 - e0) * / run)%Q by lra.
        assert (0 <= (e1 - e0) * / run * run)%Q by nra.
        assert (E : ((e1 - e0) * / run * run == e1 - e0)%Q) by (field; exact Hnz).
        lra.
      * assert (0 <= (e1 - e0) * / run)%Q by (apply Qmult_le_0_compat; lra).
        lra.
    + intros Hn. contradiction.
  - apply Num.ltb_ge in Hrun.
    exists 0%Q, 0%Q. split; [reflexivity |]. split; [reflexivity |].
    split; [reflexivity |]. split.
    + intros Hpos. lra.
    + intros _. split; reflexivity.
Qed.

Lemma tooltip_grade_signed_witness :
  exists s u : Q,
    ChartLayout.tooltip_grade 150 100 1 2 = Some s
    /\ GradientSegmenter.grade 150 100 1 2 = Some u
    /\ (Qabs s == u)%Q
    /\ ((0 < (2 - 1) * 1000)%Q ->
        (ChartLayout.plus_sign s = true <-> (150 <= 100)%Q))
    /\ (~ (0 < (2 - 1) * 1000)%Q ->
        (s == 0)%Q /\ ChartLayout.plus_sign s = true).
Proof. apply (tooltip_grade_signed 150 100 1 2). Defined.

(** ** FetchCoordinator: what every reachable state satisfies *)

Section CoordinatorFacts.

Variable W : Type.
Variable Coord : Type.
Variable same_ref : Coord -> Coord -> bool.
Variable Data : Type.
Variable Profile : Type.
Variable Gain : Type.
Variable zero : Gain.
Variable positive : Gain -> bool.
Variable build : Data -> list Coord -> list nat -> Gain * Profile.
Variable n_elevations : Profile -> option nat.

Local Abbreviation State := (FetchCoordinator.State W Coord Profile Gain).
Local Abbreviation init := (FetchCoordinator.init W Coord Profile Gain zero).
Local Abbreviation step :=
  (FetchCoordinator.step W Coord same_ref Data Profile Gain zero positive
                         build n_elevations).
Local Abbreviation run :=
  (FetchCoordinator.run W Coord same_ref Data Profile Gain zero positive
                        build n_elevations).
Local Abbreviation reachable :=
  (FetchCoordinator.reachable W Coord same_ref Data Profile Gain zero positive
                              build n_elevations).

Lemma run_snoc (evs : list (FetchCoordinator.Event W Coord Data)) :
  forall (s : State) ev,
    run s (evs ++ [ev])
    = match run s evs with
      | Some s' => step s' ev
      | None => None
      end.
Proof.
  induction evs as [| e evs IH]; intros s ev; cbn [app FetchCoordinator.run].
  - now destruct (step s ev).
  - destruct (step s e) as [s1 |]; [apply IH | reflexivity].
Qed.

Lemma reachable_step (s s' : State) ev :
  reachable s -> step s ev = Some s' -> reachable s'.
Proof.
  intros (evs & Hrun) Hstep. exists (evs ++ [ev]).
  now rewrite run_snoc, Hrun.
Qed.

(** Induction over the reachable states. *)
Lemma reachable_invariant (P : State -> Prop) :
  P init ->
  (forall s ev s', reachable s -> P s -> step s ev = Some s' -> P s') ->
  forall s, reachable s -> P s.
Proof.
  intros H0 Hstep s (evs & Hrun). revert s Hrun.
  induction evs as [| ev evs IH] using rev_ind; intros s Hrun.
  - cbn in Hrun. now injection Hrun as <-.
  - rewrite run_snoc in Hrun.
    destruct (run init evs) as [s1 |] eqn:Hrun1; [| discriminate].
    apply (Hstep s1 ev s); [now exists evs | now apply IH | exact Hrun].
Qed.

Lemma clearTimeout_length (t : option nat) (pending : list nat) :
  length (FetchCoordinator.clearTimeout t pending) <= length pending.
Proof. destruct t; cbn; [apply remove_length_le | lia]. Qed.

Lemma filter_find_shorter {X : Type} (f : X -> bool) (l : list X) (x : X) :
  find f l = Some x ->
  length (filter (fun y => negb (f y)) l) < length l.
Proof.
  induction l as [| y l IH]; cbn; [discriminate |].
  destruct (f y) eqn:E; cbn.
  - intros _. pose proof (filter_length_le (fun y => negb (f y)) l). lia.
  - intros H. specialize (IH H). lia.
Qed.

(** Elevation requests are counted by [next_ctrl], routing requests by
    [next_route], timers by [next_timer]. *)
Definition demand_bounded (s : State) : Prop :=
  FetchCoordinator.next_ctrl s + length (FetchCoordinator.routing _ _ _ _ s)
  <= FetchCoordinator.next_route _ _ _ _ s
  /\ FetchCoordinator.next_route _ _ _ _ s
     + length (FetchCoordinator.timers _ _ _ _ s)
     <= FetchCoordinator.next_timer _ _ _ _ s
  /\ FetchCoordinator.next_timer _ _ _ _ s <= FetchCoordinator.edits s.

Lemma demand_bounded_step (s s' : State) ev :
  demand_bounded s -> step s ev = Some s' -> demand_bounded s'.
Proof.
  unfold demand_bounded. intros (H1 & H2 & H3).
  destruct ev as [wps | | t | q res | id e]; cbn [FetchCoordinator.step].
  - intros [= <-]. unfold FetchCoordinator.queryOSRM.
    pose proof (clearTimeout_length (FetchCoordinator.routeTimeout _ _ _ _ s)
                  (FetchCoordinator.timers _ _ _ _ s)).
    destruct (length wps <? 2); cbn; lia.
  - intros [= <-]. cbn. lia.
  - destruct (existsb (Nat.eqb t) (FetchCoordinator.timers _ _ _ _ s)) eqn:Hex;
      [| discriminate].
    intros [= <-]. cbn.
    apply existsb_exists in Hex as (t' & Hin & Heq).
    apply Nat.eqb_eq in Heq. subst t'.
    pose proof (remove_length_lt Nat.eq_dec _ _ Hin). lia.
  - destruct (find _ (FetchCoordinator.routing _ _ _ _ s)) as [rq |] eqn:Hf;
      [| discriminate].
    pose proof (filter_find_shorter _ _ _ Hf) as Hshort.
    destruct res as [| | g]; try (intros [= <-]; cbn; lia).
    unfold FetchCoordinator.fetchElevation. cbn [FetchCoordinator.routeGeometry].
    destruct (length g <? 2); [intros [= <-]; cbn; lia |].
    destruct (Sampler.sample Coord same_ref g) as [[sampled indices] |];
      [| discriminate].
    intros [= <-]. cbn. lia.
  - destruct (find _ (FetchCoordinator.elev s)) as [r |]; [| discriminate].
    unfold FetchCoordinator.resume.
    destruct (FetchCoordinator.phase r), e as [[|] | | d | |];
      try discriminate; try (intros [= <-]; cbn; lia).
    destruct (FetchCoordinator.aborted r); [intros [= <-]; cbn; lia |].
    destruct (build d _ _) as [g p]. intros [= <-]. cbn. lia.
Qed.

(** The loading text has a request behind it. *)
Definition loading_backed (s : State) : Prop :=
  FetchCoordinator.statElevation (FetchCoordinator.view s)
  = FetchCoordinator.Loading ->
  exists r, In r (FetchCoordinator.elev s)
            /\ FetchCoordinator.aborted r = false.

Lemma updateStats_not_loading (v : FetchCoordinator.View Profile Gain) :
  FetchCoordinator.statElevation
    (FetchCoordinator.updateStats Profile Gain positive v)
  <> FetchCoordinator.Loading.
Proof.
  cbn. destruct (positive (FetchCoordinator.routeElevationGain v));
    discriminate.
Qed.

Lemma apply_profile_not_loading (s : State) (g : Gain) (p : Profile) :
  FetchCoordinator.statElevation
    (FetchCoordinator.apply_profile W Coord Profile Gain positive
                                    n_elevations s g p)
  <> FetchCoordinator.Loading.
Proof.
  unfold FetchCoordinator.apply_profile.
  destruct (n_elevations p); cbn; [| discriminate].
  destruct (positive g); discriminate.
Qed.

Lemma other_request_survives (reqs : list (FetchCoordinator.ElevReq Coord))
      (r r0 : FetchCoordinator.ElevReq Coord) :
  NoDup (map FetchCoordinator.rid reqs) ->
  In r reqs -> In r0 reqs ->
  FetchCoordinator.aborted r = true -> FetchCoordinator.aborted r0 = false ->
  In r0 (FetchCoordinator.without (FetchCoordinator.rid r) reqs).
Proof.
  intros Hnd Hr Hr0 Ha Ha0. unfold FetchCoordinator.without.
  apply filter_In. split; [exact Hr0 |].
  apply negb_true_iff, Nat.eqb_neq. intros Heq.
  pose proof (FetchCoordinator.find_by_rid Coord reqs r Hnd Hr) as F1.
  pose proof (FetchCoordinator.find_by_rid Coord reqs r0 Hnd Hr0) as F2.
  rewrite Heq in F2. rewrite F1 in F2. injection F2 as ->. congruence.
Qed.

Lemma loading_backed_step (s s' : State) ev :
  FetchCoordinator.inv W Coord Profile Gain s ->
  loading_backed s -> step s ev = Some s' -> loading_backed s'.
Proof.
  intros Hinv Hl. unfold loading_backed in *.
  destruct ev as [wps | | t | q res | id e]; cbn [FetchCoordinator.step].
  - intros [= <-]. unfold FetchCoordinator.queryOSRM.
    destruct (length wps <? 2); cbn [FetchCoordinator.view FetchCoordinator.elev].
    + intros H. now apply updateStats_not_loading in H.
    + exact Hl.
  - intros [= <-]. cbn [FetchCoordinator.clearRoute FetchCoordinator.view].
    intros H. now apply updateStats_not_loading in H.
  - destruct (existsb _ _); [| discriminate]. intros [= <-]. exact Hl.
  - destruct (find _ (FetchCoordinator.routing _ _ _ _ s)) as [rq |];
      [| discriminate].
    destruct res as [| | g]; try (intros [= <-]; exact Hl).
    unfold FetchCoordinator.fetchElevation. cbn [FetchCoordinator.routeGeometry].
    destruct (length g <? 2).
    { intros [= <-]. cbn [FetchCoordinator.view].
      intros H. now apply updateStats_not_loading in H. }
    destruct (Sampler.sample Coord same_ref g) as [[sampled indices] |];
      [| discriminate].
    intros [= <-] _. cbn [FetchCoordinator.elev].
    eexists. split; [left; reflexivity | reflexivity].
  - destruct (find _ (FetchCoordinator.elev s)) as [r |] eqn:Hfind;
      [| discriminate].
    apply find_some in Hfind as [Hr Hid]. apply Nat.eqb_eq in Hid.
    pose proof (FetchCoordinator.inv_nodup _ _ _ _ _ Hinv) as Hnd.
    assert (Hphase : forall ph,
               FetchCoordinator.statElevation (FetchCoordinator.view s)
               = FetchCoordinator.Loading ->
               exists r0,
                 In r0 (FetchCoordinator.set_phase
                          Coord (FetchCoordinator.rid r) ph
                          (FetchCoordinator.elev s))
                 /\ FetchCoordinator.aborted r0 = false).
    { intros ph H. destruct (Hl H) as (r0 & Hr0 & Ha0).
      unfold FetchCoordinator.set_phase.
      eexists. split; [apply in_map; exact Hr0 |].
      destruct (FetchCoordinator.rid r0 =? FetchCoordinator.rid r); exact Ha0. }
    assert (Hgone : FetchCoordinator.aborted r = true ->
               FetchCoordinator.statElevation (FetchCoordinator.view s)
               = FetchCoordinator.Loading ->
               exists r0,
                 In r0 (FetchCoordinator.without (FetchCoordinator.rid r)
                          (FetchCoordinator.elev s))
                 /\ FetchCoordinator.aborted r0 = false).
    { intros Ha H. destruct (Hl H) as (r0 & Hr0 & Ha0).
      exists r0. split; [| exact Ha0].
      now apply other_request_survives. }
    unfold FetchCoordinator.resume.
    destruct (FetchCoordinator.phase r), e as [[|] | | d | |];
      try discriminate; cbn [FetchCoordinator.with_elev];
      try (intros [= <-]; cbn [FetchCoordinator.view FetchCoordinator.elev];
           first [ apply Hphase | discriminate ]).
    + destruct (FetchCoordinator.aborted r) eqn:Ha; intros [= <-];
        cbn [FetchCoordinator.view FetchCoordinator.elev];
        [now apply Hgone | discriminate].
    + destruct (FetchCoordinator.aborted r) eqn:Ha.
      * intros [= <-]. cbn [FetchCoordinator.view FetchCoordinator.elev].
        now apply Hgone.
      * destruct (build d _ _) as [g p]. intros [= <-].
        cbn [FetchCoordinator.view]. intros H.
        now apply apply_profile_not_loading in H.
    + destruct (FetchCoordinator.aborted r) eqn:Ha; intros [= <-];
        cbn [FetchCoordinator.view FetchCoordinator.elev];
        [now apply Hgone | discriminate].
Qed.

(** A drawn chart is the chart of the stored profile, unless a response
    without elevations was stored after it was drawn; without a stored
    profile neither a chart nor an overlay is drawn. *)
Definition views_consistent (s : State) : Prop :=
  let v := FetchCoordinator.view s in
  (forall p, FetchCoordinator.chart v = Some p ->
             FetchCoordinator.routeElevations v = Some p
             \/ exists p', FetchCoordinator.routeElevations v = Some p'
                           /\ n_elevations p' = None)
  /\ (FetchCoordinator.routeElevations v = None ->
      FetchCoordinator.chart v = None /\ FetchCoordinator.overlay v = None).

Lemma views_consistent_step (s s' : State) ev :
  views_consistent s -> step s ev = Some s' -> views_consistent s'.
Proof.
  unfold views_consistent. cbv zeta. intros Hv.
  destruct ev as [wps | | t | q res | id e]; cbn [FetchCoordinator.step].
  - intros [= <-]. unfold FetchCoordinator.queryOSRM.
    destruct (length wps <? 2); cbn; [| exact Hv].
    split; [discriminate | auto].
  - intros [= <-]. cbn. split; [discriminate | auto].
  - destruct (existsb _ _); [| discriminate]. intros [= <-]. exact Hv.
  - destruct (find _ (FetchCoordinator.routing _ _ _ _ s)) as [rq |];
      [| discriminate].
    destruct res as [| | g]; try (intros [= <-]; exact Hv).
    unfold FetchCoordinator.fetchElevation. cbn [FetchCoordinator.routeGeometry].
    destruct (length g <? 2); [intros [= <-]; exact Hv |].
    destruct (Sampler.sample Coord same_ref g) as [[sampled indices] |];
      [| discriminate].
    intros [= <-]. exact Hv.
  - destruct (find _ (FetchCoordinator.elev s)) as [r |]; [| discriminate].
    unfold FetchCoordinator.resume.
    destruct (FetchCoordinator.phase r), e as [[|] | | d | |];
      try discriminate; try (intros [= <-]; exact Hv).
    + destruct (FetchCoordinator.aborted r); intros [= <-]; exact Hv.
    + destruct (FetchCoordinator.aborted r); [intros [= <-]; exact Hv |].
      destruct (build d _ _) as [g p]. intros [= <-].
      cbn [FetchCoordinator.view FetchCoordinator.with_elev].
      unfold FetchCoordinator.apply_profile.
      destruct (n_elevations p) as [n |] eqn:Hn; cbn.
      * split; [| discriminate].
        intros p0 H. destruct (_ <=? _) in H; [discriminate H |].
        injection H as <-. now left.
      * split; [| discriminate].
        intros p0 _. right. exists p. now split.
    + destruct (FetchCoordinator.aborted r); intros [= <-]; exact Hv.
Qed.

End CoordinatorFacts.

(** X16.  In every reachable state of the route builder, the elevation
    requests issued so far, together with the routing requests still
    waiting, are at most the routing requests issued; these, together with
    the pending timers, are at most the timers set; and no more timers were
    set than the route was edited.  So an elevation request is only ever
    issued for a routing response, a routing request for a timer, and a
    timer for an edit. *)
Theorem requests_bounded_by_edits
        (W Coord : Type) (same_ref : Coord -> Coord -> bool)
        (Data Profile Gain : Type) (zero : Gain) (positive : Gain -> bool)
        (build : Data -> list Coord -> list nat -> Gain * Profile)
        (n_elevations : Profile -> option nat)
        (s : FetchCoordinator.State W Coord Profile Gain) :
  FetchCoordinator.reachable W Coord same_ref Data Profile Gain zero positive
                             build n_elevations s ->
  FetchCoordinator.next_ctrl s + length (FetchCoordinator.routing _ _ _ _ s)
  <= FetchCoordinator.next_route _ _ _ _ s
  /\ FetchCoordinator.next_route _ _ _ _ s
     + length (FetchCoordinator.timers _ _ _ _ s)
     <= FetchCoordinator.next_timer _ _ _ _ s
  /\ FetchCoordinator.next_timer _ _ _ _ s <= FetchCoordinator.edits s.
Proof.
  intros Hs.
  apply (reachable_invariant W Coord same_ref Data Profile Gain zero positive
           build n_elevations (demand_bounded W Coord Profile Gain));
    [| | exact Hs].
  - unfold demand_bounded. cbn. lia.
  - intros s0 ev s1 _ H0 Hstep.
    exact (demand_bounded_step _ _ _ _ _ _ _ _ _ _ s0 s1 ev H0 Hstep).
Qed.

Lemma requests_bounded_by_edits_witness :
  let s := Session.state_after Session.second_request in
  Session.reachable s
  /\ FetchCoordinator.next_ctrl s + length (FetchCoordinator.routing _ _ _ _ s)
     <= FetchCoordinator.next_route _ _ _ _ s
  /\ FetchCoordinator.next_route _ _ _ _ s
     + length (FetchCoordinator.timers _ _ _ _ s)
     <= FetchCoordinator.next_timer _ _ _ _ s
  /\ FetchCoordinator.next_timer _ _ _ _ s <= FetchCoordinator.edits s.
Proof.
  intros s.
  assert (Hs : Session.reachable s)
    by (exists Session.second_request; vm_compute; reflexivity).
  split; [exact Hs |].
  exact (requests_bounded_by_edits
           nat nat Nat.eqb nat nat nat 0 (Nat.ltb 0) Session.build
           (fun _ => Some 2) s Hs).
Defined.

(** X17.  Whenever the elevation field of the route builder shows the
    loading text, an elevation request is in flight that has not been
    cancelled: the text is never left behind by a request that has already
    settled or been cancelled. *)
Theorem loading_text_has_live_request
        (W Coord : Type) (same_ref : Coord -> Coord -> bool)
        (Data Profile Gain : Type) (zero : Gain) (positive : Gain -> bool)
        (build : Data -> list Coord -> list nat -> Gain * Profile)
        (n_elevations : Profile -> option nat)
        (s : FetchCoordinator.State W Coord Profile Gain) :
  FetchCoordinator.reachable W Coord same_ref Data Profile Gain zero positive
                             build n_elevations s ->
  FetchCoordinator.statElevation (FetchCoordinator.view s)
  = FetchCoordinator.Loading ->
  exists r, In r (FetchCoordinator.elev s)
            /\ FetchCoordinator.aborted r = false
            /\ S (FetchCoordinator.rid r) = FetchCoordinator.next_ctrl s.
Proof.
  intros Hs Hload.
  assert (Hb : loading_backed W Coord Profile Gain s).
  { apply (reachable_invariant W Coord same_ref Data Profile Gain zero
             positive build n_elevations
             (loading_backed W Coord Profile Gain)); [| | exact Hs].
    - unfold loading_backed. cbn. discriminate.
    - intros s0 ev s1 Hs0 H0 Hstep.
      apply (loading_backed_step W Coord same_ref Data Profile Gain zero
               positive build n_elevations s0 s1 ev); auto.
      now apply (FetchCoordinator.inv_reachable
                   W Coord same_ref Data Profile Gain zero positive build
                   n_elevations). }
  destruct (Hb Hload) as (r & Hr & Ha).
  exists r. split; [exact Hr |]. split; [exact Ha |].
  apply (FetchCoordinator.inv_reachable
           W Coord same_ref Data Profile Gain zero positive build
           n_elevations) in Hs.
  destruct Hs as [_ _ _ Hl]. now apply Hl.
Qed.

Lemma loading_text_has_live_request_witness :
  let s := Session.state_after Session.second_request in
  Session.reachable s
  /\ FetchCoordinator.statElevation (FetchCoordinator.view s)
     = FetchCoordinator.Loading
  /\ exists r, In r (FetchCoordinator.elev s)
               /\ FetchCoordinator.aborted r = false
               /\ S (FetchCoordinator.rid r) = FetchCoordinator.next_ctrl s.
Proof.
  intros s.
  assert (Hs : Session.reachable s)
    by (exists Session.second_request; vm_compute; reflexivity).
  assert (Hl : FetchCoordinator.statElevation (FetchCoordinator.view s)
               = FetchCoordinator.Loading)
    by (vm_compute; reflexivity).
  split; [exact Hs |]. split; [exact Hl |].
  exact (loading_text_has_live_request
           nat nat Nat.eqb nat nat nat 0 (Nat.ltb 0) Session.build
           (fun _ => Some 2) s Hs Hl).
Defined.

(** X18.  In every reachable state of the route builder, a drawn elevation
    chart is the chart of the stored profile, unless the stored profile
    came from a response without elevations (storing it threw before the
    chart was redrawn); and when no profile is stored, neither a chart nor
    a gradient overlay is drawn. *)
Theorem chart_shows_stored_profile
        (W Coord : Type) (same_ref : Coord -> Coord -> bool)
        (Data Profile Gain : Type) (zero : Gain) (positive : Gain -> bool)
        (build : Data -> list Coord -> list nat -> Gain * Profile)
        (n_elevations : Profile -> option nat)
        (s : FetchCoordinator.State W Coord Profile Gain) :
  FetchCoordinator.reachable W Coord same_ref Data Profile Gain zero positive
                             build n_elevations s ->
  let v := FetchCoordinator.view s in
  (forall p, FetchCoordinator.chart v = Some p ->
             FetchCoordinator.routeElevations v = Some p
             \/ exists p', FetchCoordinator.routeElevations v = Some p'
                           /\ n_elevations p' = None)
  /\ (FetchCoordinator.routeElevations v = None ->
      FetchCoordinator.chart v = None /\ FetchCoordinator.overlay v = None).
Proof.
  intros Hs.
  apply (reachable_invariant W Coord same_ref Data Profile Gain zero positive
           build n_elevations
           (views_consistent W Coord Profile Gain n_elevations));
    [| | exact Hs].
  - unfold views_consistent. cbn. split; [discriminate | auto].
  - intros s0 ev s1 _ H0 Hstep.
    exact (views_consistent_step _ _ _ _ _ _ _ _ _ _ s0 s1 ev H0 Hstep).
Qed.

Lemma chart_shows_stored_profile_witness :
  let s := Session.state_after
             (Session.edit_during_fetch
              ++ [FetchCoordinator.ElevSettled 0 (FetchCoordinator.BodyData 7)])
  in
  let v := FetchCoordinator.view s in
  Session.reachable s
  /\ FetchCoordinator.chart v = Some 7
  /\ (forall p, FetchCoordinator.chart v = Some p ->
                FetchCoordinator.routeElevations v = Some p
                \/ exists p', FetchCoordinator.routeElevations v = Some p'
                              /\ (fun _ : nat => Some 2) p' = None)
  /\ (FetchCoordinator.routeElevations v = None ->
      FetchCoordinator.chart v = None /\ FetchCoordinator.overlay v = None).
Proof.
  intros s v.
  assert (Hs : Session.reachable s).
  { exists (Session.edit_during_fetch
            ++ [FetchCoordinator.ElevSettled 0 (FetchCoordinator.BodyData 7)]).
    vm_compute. reflexivity. }
  split; [exact Hs |]. split; [vm_compute; reflexivity |].
  exact (chart_shows_stored_profile
           nat nat Nat.eqb nat nat nat 0 (Nat.ltb 0) Session.build
           (fun _ => Some 2) s Hs).
Defined.

(** ** Waypoints: editing the list *)

Section WaypointFacts.

Variable W : Type.
Variable Coord : Type.
Variable Profile : Type.
Variable Gain : Type.
Variable zero : Gain.
Variable positive : Gain -> bool.

Local Abbreviation State := (FetchCoordinator.State W Coord Profile Gain).
Local Abbreviation addWaypoint :=
  (Waypoints.addWaypoint W Coord Profile Gain zero positive).
Local Abbreviation loadExistingRoute :=
  (Waypoints.loadExistingRoute W Coord Profile Gain zero positive).
Local Abbreviation debounced :=
  (FetchCoordinator.debounced W Coord Profile Gain).

Lemma loadExistingRoute_snoc (wps : list W) (w : W) (s : State) :
  loadExistingRoute (wps ++ [w]) s = addWaypoint w (loadExistingRoute wps s).
Proof.
  unfold Waypoints.loadExistingRoute. now rewrite fold_left_app.
Qed.

(** What the loop of [loadExistingRoute] has done after any number of
    waypoints. *)
Lemma loadExistingRoute_loop (s : State) :
  debounced s ->
  forall wps,
    let s' := loadExistingRoute wps s in
    FetchCoordinator.waypoints _ _ _ _ s'
    = FetchCoordinator.waypoints _ _ _ _ s ++ wps
    /\ FetchCoordinator.edits s' = FetchCoordinator.edits s + length wps
    /\ FetchCoordinator.routing _ _ _ _ s' = FetchCoordinator.routing _ _ _ _ s
    /\ FetchCoordinator.elev s' = FetchCoordinator.elev s
    /\ FetchCoordinator.next_ctrl s' = FetchCoordinator.next_ctrl s
    /\ FetchCoordinator.next_route _ _ _ _ s'
       = FetchCoordinator.next_route _ _ _ _ s
    /\ debounced s'
    /\ (wps <> [] ->
        if length (FetchCoordinator.waypoints _ _ _ _ s ++ wps) <? 2
        then FetchCoordinator.timers _ _ _ _ s' = []
        else exists t,
            FetchCoordinator.timers _ _ _ _ s' = [t]
            /\ FetchCoordinator.routeTimeout _ _ _ _ s' = Some t
            /\ FetchCoordinator.next_timer _ _ _ _ s' = S t).
Proof.
  intros Hd wps. induction wps as [| w wps IH] using rev_ind; cbv zeta.
  - cbn. rewrite app_nil_r, Nat.add_0_r. repeat split; auto. congruence.
  - cbv zeta in IH. rewrite loadExistingRoute_snoc.
    set (s1 := loadExistingRoute wps s) in *.
    destruct IH as (Hw & He & Hr & Hel & Hc & Hn & Hd1 & _).
    unfold Waypoints.addWaypoint, FetchCoordinator.queryOSRM.
    rewrite (FetchCoordinator.debounced_clear _ _ _ _ s1 Hd1).
    rewrite Hw, <- app_assoc.
    destruct (length (FetchCoordinator.waypoints _ _ _ _ s ++ wps ++ [w]) <? 2)
      eqn:Hlen; cbn.
    + rewrite length_app, He. cbn.
      split; [reflexivity |]. split; [lia |].
      split; [exact Hr |]. split; [exact Hel |]. split; [exact Hc |].
      split; [exact Hn |]. split; [now left |]. reflexivity.
    + rewrite length_app, He. cbn.
      split; [reflexivity |]. split; [lia |].
      split; [exact Hr |]. split; [exact Hel |]. split; [exact Hc |].
      split; [exact Hn |].
      split; [right; eexists; split; reflexivity |].
      intros _. eexists. repeat split.
Qed.

Lemma drop_last {X : Type} (l : list X) (x : X) :
  firstn (length (l ++ [x]) - 1) (l ++ [x])
  ++ skipn (S (length (l ++ [x]) - 1)) (l ++ [x]) = l.
Proof.
  rewrite length_app. cbn [length].
  replace (length l + 1 - 1) with (length l) by lia.
  rewrite firstn_app, Nat.sub_diag, firstn_all. cbn [firstn].
  rewrite skipn_all2 by (rewrite length_app; cbn; lia).
  now rewrite !app_nil_r.
Qed.

End WaypointFacts.

(** X19.  Loading a stored route into the builder adds its waypoints one
    by one.  When no stale timer is pending beforehand, the waypoints end up
    appended in order, every one counts as an edit, no routing or elevation
    request is issued by the loop itself, and afterwards exactly one
    debounce timer is pending, the one set for the last waypoint, if the
    route then has at least two waypoints, and none otherwise: the route is
    requested once, not once per waypoint. *)
Theorem load_route_requests_once
        (W Coord Profile Gain : Type) (zero : Gain) (positive : Gain -> bool)
        (s : FetchCoordinator.State W Coord Profile Gain) (wps : list W) :
  FetchCoordinator.debounced W Coord Profile Gain s ->
  wps <> [] ->
  let s' := Waypoints.loadExistingRoute W Coord Profile Gain zero positive
                                        wps s in
  FetchCoordinator.waypoints _ _ _ _ s'
  = FetchCoordinator.waypoints _ _ _ _ s ++ wps
  /\ FetchCoordinator.edits s' = FetchCoordinator.edits s + length wps
  /\ FetchCoordinator.routing _ _ _ _ s' = FetchCoordinator.routing _ _ _ _ s
  /\ FetchCoordinator.elev s' = FetchCoordinator.elev s
  /\ FetchCoordinator.next_ctrl s' = FetchCoordinator.next_ctrl s
  /\ FetchCoordinator.next_route _ _ _ _ s'
     = FetchCoordinator.next_route _ _ _ _ s
  /\ if length (FetchCoordinator.waypoints _ _ _ _ s ++ wps) <? 2
     then FetchCoordinator.timers _ _ _ _ s' = []
     else exists t,
         FetchCoordinator.timers _ _ _ _ s' = [t]
         /\ FetchCoordinator.routeTimeout _ _ _ _ s' = Some t
         /\ FetchCoordinator.next_timer _ _ _ _ s' = S t.
Proof.
  intros Hd Hne.
  destruct (loadExistingRoute_loop W Coord Profile Gain zero positive s Hd wps)
    as (Hw & He & Hr & Hel & Hc & Hn & _ & Ht).
  cbv zeta. repeat (split; [assumption |]). exact (Ht Hne).
Qed.

Lemma load_route_requests_once_witness :
  let s0 := FetchCoordinator.init nat nat nat nat 0 in
  let s' := Waypoints.loadExistingRoute nat nat nat nat 0 (Nat.ltb 0)
                                        [4; 5; 6] s0 in
  FetchCoordinator.debounced nat nat nat nat s0
  /\ [4; 5; 6] <> []
  /\ FetchCoordinator.waypoints _ _ _ _ s' = [4; 5; 6]
  /\ FetchCoordinator.timers _ _ _ _ s' = [1]
  /\ FetchCoordinator.edits s' = 3
  /\ FetchCoordinator.routing _ _ _ _ s' = [].
Proof.
  intros s0 s'.
  assert (Hd : FetchCoordinator.debounced nat nat nat nat s0) by now left.
  assert (Hne : [4; 5; 6] <> ([] : list nat)) by discriminate.
  pose proof (load_route_requests_once nat nat nat nat 0 (Nat.ltb 0)
                s0 [4; 5; 6] Hd Hne) as (Hw & He & Hr & _ & _ & _ & Ht).
  split; [exact Hd |]. split; [exact Hne |].
  split; [exact Hw |].
  split; [vm_compute; reflexivity |].
  split; [exact He |]. exact Hr.
Defined.

(** X20.  Undo never throws: on an empty list it does nothing, otherwise it
    removes the last waypoint and re-queries the route.  Undoing right
    after adding a waypoint gives back the list of waypoints as it was,
    with two more edits counted. *)
Theorem undo_removes_last
        (W Coord Profile Gain : Type) (zero : Gain) (positive : Gain -> bool)
        (s : FetchCoordinator.State W Coord Profile Gain) :
  (exists s',
      Waypoints.undoWaypoint W Coord Profile Gain zero positive s = Some s'
      /\ FetchCoordinator.waypoints _ _ _ _ s'
         = removelast (FetchCoordinator.waypoints _ _ _ _ s)
      /\ (FetchCoordinator.waypoints _ _ _ _ s = [] -> s' = s))
  /\ forall w,
      exists s',
        Waypoints.undoWaypoint
          W Coord Profile Gain zero positive
          (Waypoints.addWaypoint W Coord Profile Gain zero positive w s)
        = Some s'
        /\ FetchCoordinator.waypoints _ _ _ _ s'
           = FetchCoordinator.waypoints _ _ _ _ s
        /\ FetchCoordinator.edits s' = S (S (FetchCoordinator.edits s)).
Proof.
  split.
  - unfold Waypoints.undoWaypoint, Waypoints.removeWaypoint. cbv zeta.
    destruct (FetchCoordinator.waypoints _ _ _ _ s) as [| w0 l] eqn:E
      using rev_ind.
    + cbn. exists s. rewrite E. now repeat split.
    + clear IHl.
      replace (length (l ++ [w0]) =? 0) with false
        by (symmetry; apply Nat.eqb_neq; rewrite length_app; cbn; lia).
      replace (length (l ++ [w0]) - 1 <? length (l ++ [w0])) with true
        by (symmetry; apply Nat.ltb_lt; rewrite length_app; cbn; lia).
      eexists. split; [reflexivity |].
      rewrite drop_last, removelast_last.
      split; [| intros H; now destruct l].
      unfold FetchCoordinator.queryOSRM.
      now destruct (length l <? 2).
  - intros w.
    unfold Waypoints.undoWaypoint, Waypoints.removeWaypoint. cbv zeta.
    assert (Hw : FetchCoordinator.waypoints
                   _ _ _ _
                   (Waypoints.addWaypoint W Coord Profile Gain zero positive
                                          w s)
                 = FetchCoordinator.waypoints _ _ _ _ s ++ [w]).
    { unfold Waypoints.addWaypoint, FetchCoordinator.queryOSRM.
      now destruct (length _ <? 2). }
    assert (He : FetchCoordinator.edits
                   (Waypoints.addWaypoint W Coord Profile Gain zero positive
                                          w s)
                 = S (FetchCoordinator.edits s)).
    { unfold Waypoints.addWaypoint, FetchCoordinator.queryOSRM.
      now destruct (length _ <? 2). }
    rewrite Hw.
    replace (length (FetchCoordinator.waypoints _ _ _ _ s ++ [w]) =? 0)
      with false
      by (symmetry; apply Nat.eqb_neq; rewrite length_app; cbn; lia).
    replace (length (FetchCoordinator.waypoints _ _ _ _ s ++ [w]) - 1
             <? length (FetchCoordinator.waypoints _ _ _ _ s ++ [w]))
      with true
      by (symmetry; apply Nat.ltb_lt; rewrite length_app; cbn; lia).
    eexists. split; [reflexivity |]. rewrite drop_last.
    unfold FetchCoordinator.queryOSRM at 1 2.
    destruct (length (FetchCoordinator.waypoints _ _ _ _ s) <? 2);
      cbn [FetchCoordinator.waypoints FetchCoordinator.edits];
      rewrite He; now split.
Qed.

(** ** Polyline: decoding never fails *)

Lemma read_value_consumes (rest : list Z) :
  forall shift result,
    length (snd (Polyline.read_value rest shift result))
    <= Nat.pred (length rest).
Proof.
  induction rest as [| c rest IH]; intros shift result; cbn [Polyline.read_value].
  - cbn. lia.
  - destruct (32 <=? c - 63)%Z; cbn [snd length Nat.pred].
    + specialize (IH (shift + 5)%Z
                     (Z.lor result
                            (Polyline.to_int32
                               (Z.shiftl (Z.land (c - 63) 31)
                                         (shift mod 32))))).
      lia.
    + lia.
Qed.

Lemma decode_loop_total (fuel : nat) :
  forall rest lat lng,
    length rest <= fuel ->
    exists coords,
      Polyline.decode_loop fuel rest lat lng = Some coords
      /\ 2 * length coords <= length rest + 1
      /\ (rest <> [] -> coords <> []).
Proof.
  induction fuel as [| fuel IH]; intros rest lat lng Hfuel.
  - destruct rest; [| cbn in Hfuel; lia].
    exists []. cbn. split; [reflexivity |]. split; [lia | congruence].
  - destruct rest as [| c rest].
    { exists []. cbn. split; [reflexivity |]. split; [lia | congruence]. }
    cbn [Polyline.decode_loop].
    pose proof (read_value_consumes (c :: rest) 0 0) as H1.
    destruct (Polyline.read_value (c :: rest) 0 0) as [r1 rest1].
    pose proof (read_value_consumes rest1 0 0) as H2.
    destruct (Polyline.read_value rest1 0 0) as [r2 rest2].
    cbn [snd length Nat.pred] in H1, H2.
    destruct (IH rest2 (lat + Polyline.delta r1)%Z (lng + Polyline.delta r2)%Z)
      as (coords & -> & Hn & _); [cbn in Hfuel; lia |].
    eexists. split; [reflexivity |]. cbn [length].
    split; [| discriminate].
    destruct rest1 as [| c1 rest1]; cbn [length Nat.pred] in *; lia.
Qed.

(** X21.  [decodePolyline6] returns on every string, well-formed or not:
    it never runs past its input for ever and never throws.  A string of
    [n] characters gives at most [(n + 1) / 2] coordinates, and at least one
    unless it is empty. *)
Theorem decodePolyline6_total (encoded : list Z) :
  exists coords,
    Polyline.decodePolyline6 encoded = Some coords
    /\ 2 * length coords <= length encoded + 1
    /\ (encoded <> [] -> coords <> []).
Proof.
  unfold Polyline.decodePolyline6. apply decode_loop_total. lia.
Qed.

(** ** Polyline: the digits of a value *)

Lemma lor_disjoint (a v n : Z) :
  (0 <= a < 2 ^ n)%Z -> (0 <= v)%Z -> (0 <= n)%Z ->
  Z.lor a (Z.shiftl v n) = (a + v * 2 ^ n)%Z.
Proof.
  intros Ha Hv Hn.
  assert (Hland : Z.land a (Z.shiftl v n) = 0%Z).
  { apply Z.bits_inj'. intros k Hk.
    rewrite Z.land_spec, Z.bits_0.
    destruct (Z.ltb_spec k n) as [Hlt | Hge].
    - rewrite (Z.shiftl_spec_low v n k Hlt). apply andb_false_r.
    - rewrite <- (Z.mod_small a (2 ^ n)) by lia.
      rewrite Z.mod_pow2_bits_high by lia. reflexivity. }
  rewrite <- (Z.lxor_lor _ _ Hland), <- (Z.add_nocarry_lxor _ _ Hland).
  now rewrite Z.shiftl_mul_pow2.
Qed.

Lemma to_int32_small (x : Z) :
  (- 2 ^ 31 <= x < 2 ^ 31)%Z -> Polyline.to_int32 x = x.
Proof.
  intros Hx. unfold Polyline.to_int32.
  rewrite Z.mod_small by lia. lia.
Qed.

Lemma base32_bounds (chars : list Z) :
  (0 <= Polyline.base32 chars < 32 ^ Z.of_nat (length chars))%Z.
Proof.
  induction chars as [| c chars IH]; [cbn; lia |].
  cbn [Polyline.base32 length]. rewrite Nat2Z.inj_succ, Z.pow_succ_r by lia.
  pose proof (Z.mod_pos_bound (c - 63) 32 ltac:(lia)). lia.
Qed.

Lemma read_value_digits (cs : list Z) (t : Z) (s : list Z) :
  Forall (fun c => 32 <= c - 63)%Z cs -> (t - 63 < 32)%Z ->
  forall (j : nat) (result : Z),
    j + length cs <= 5 ->
    (0 <= result < 32 ^ Z.of_nat j)%Z ->
    Polyline.read_value (cs ++ t :: s) (5 * Z.of_nat j) result
    = ((result + 32 ^ Z.of_nat j * Polyline.base32 (cs ++ [t]))%Z, s).
Proof.
  intros Hcs Ht.
  assert (Hchunk : forall (c : Z) (j : nat) (result : Z),
             j <= 5 -> (0 <= result < 32 ^ Z.of_nat j)%Z ->
             Z.lor result
                   (Polyline.to_int32
                      (Z.shiftl (Z.land (c - 63) 31)
                                ((5 * Z.of_nat j) mod 32)))
             = (result + 32 ^ Z.of_nat j * ((c - 63) mod 32))%Z).
  { intros c j result Hj Hr.
    rewrite Z.mod_small by lia.
    change 31%Z with (Z.ones 5). rewrite Z.land_ones by lia.
    change (2 ^ 5)%Z with 32%Z.
    pose proof (Z.mod_pos_bound (c - 63) 32 ltac:(lia)) as Hd.
    assert (Hpow : (32 ^ Z.of_nat j = 2 ^ (5 * Z.of_nat j))%Z).
    { change 32%Z with (2 ^ 5)%Z at 1. rewrite <- Z.pow_mul_r by lia.
      reflexivity. }
    assert (Hle : (32 ^ Z.of_nat j <= 32 ^ 5)%Z)
      by (apply Z.pow_le_mono_r; lia).
    assert (Hs : Z.shiftl ((c - 63) mod 32) (5 * Z.of_nat j)
                 = ((c - 63) mod 32 * 32 ^ Z.of_nat j)%Z)
      by (rewrite Z.shiftl_mul_pow2 by lia; now rewrite Hpow).
    rewrite to_int32_small
      by (rewrite Hs; change (32 ^ 5)%Z with 33554432%Z in Hle; nia).
    rewrite lor_disjoint by (rewrite <- ?Hpow; lia).
    rewrite <- Hpow. lia. }
  induction Hcs as [| c cs Hc Hcs IH]; intros j result Hj Hr;
    cbn [app Polyline.read_value Polyline.base32].
  - destruct (Z.leb_spec 32 (t - 63)) as [Hge | _]; [lia |].
    rewrite Hchunk by (cbn in Hj; lia).
    f_equal. lia.
  - destruct (Z.leb_spec 32 (c - 63)) as [_ | Hlt]; [| lia].
    cbn [length] in Hj.
    rewrite Hchunk by lia.
    replace (5 * Z.of_nat j + 5)%Z with (5 * Z.of_nat (S j))%Z by lia.
    pose proof (Z.mod_pos_bound (c - 63) 32 ltac:(lia)) as Hd.
    rewrite IH.
    + f_equal. rewrite Nat2Z.inj_succ, Z.pow_succ_r by lia. ring.
    + lia.
    + rewrite Nat2Z.inj_succ, Z.pow_succ_r by lia. nia.
Qed.

(** X22.  A value of at most six characters, every character but the last
    at least 95 (a continuation) and the last below 95, is read as a
    base-32 number with the digits [(c - 63) mod 32], least significant
    first, and reading stops right behind it.  A string made of two such
    values decodes to the single point whose latitude comes from the first
    value and whose longitude from the second, each an even number halved
    or an odd number halved and complemented, in millionths of a degree. *)
Theorem polyline_value_is_base32
        (cs1 cs2 : list Z) (t1 t2 : Z) (rest : list Z) :
  Forall (fun c => 32 <= c - 63)%Z cs1 -> (t1 - 63 < 32)%Z ->
  length cs1 <= 5 ->
  Forall (fun c => 32 <= c - 63)%Z cs2 -> (t2 - 63 < 32)%Z ->
  length cs2 <= 5 ->
  Polyline.read_value (cs1 ++ t1 :: rest) 0 0
  = (Polyline.base32 (cs1 ++ [t1]), rest)
  /\ Polyline.decodePolyline6 ((cs1 ++ [t1]) ++ (cs2 ++ [t2]))
     = Some [Polyline.point
               (Polyline.delta (Polyline.base32 (cs2 ++ [t2])))
               (Polyline.delta (Polyline.base32 (cs1 ++ [t1])))].
Proof.
  intros Hc1 Ht1 Hl1 Hc2 Ht2 Hl2.
  assert (Hread : forall cs t s,
             Forall (fun c => 32 <= c - 63)%Z cs -> (t - 63 < 32)%Z ->
             length cs <= 5 ->
             Polyline.read_value (cs ++ t :: s) 0 0
             = (Polyline.base32 (cs ++ [t]), s)).
  { intros cs t s Hc Ht Hl.
    assert (Hj : 0 + length cs <= 5) by lia.
    assert (H0 : (0 <= 0 < 32 ^ Z.of_nat 0)%Z) by (cbn; lia).
    pose proof (read_value_digits cs t s Hc Ht 0 0%Z Hj H0) as H.
    change (5 * Z.of_nat 0)%Z with 0%Z in H. rewrite H. f_equal.
    change (Z.of_nat 0) with 0%Z. rewrite Z.pow_0_r. lia. }
  split; [now apply Hread |].
  unfold Polyline.decodePolyline6.
  rewrite <- !app_assoc. cbn [app].
  destruct (cs1 ++ t1 :: cs2 ++ [t2]) as [| c0 l0] eqn:E.
  { destruct cs1; discriminate. }
  cbn [length Polyline.decode_loop]. rewrite <- E.
  rewrite (Hread cs1 t1 (cs2 ++ [t2]) Hc1 Ht1 Hl1).
  rewrite (Hread cs2 t2 [] Hc2 Ht2 Hl2).
  destruct (length l0); reflexivity.
Qed.

Lemma polyline_value_is_base32_witness :
  Polyline.read_value ([95; 112; 126; 105] ++ 70 :: [126; 112; 115; 124; 85])%Z
                      0 0
  = (Polyline.base32 ([95; 112; 126; 105] ++ [70])%Z,
     [126; 112; 115; 124; 85]%Z)
  /\ Polyline.decodePolyline6
       (([95; 112; 126; 105] ++ [70]) ++ ([126; 112; 115; 124] ++ [85]))%Z
     = Some [Polyline.point
               (Polyline.delta
                  (Polyline.base32 ([126; 112; 115; 124] ++ [85])%Z))
               (Polyline.delta
                  (Polyline.base32 ([95; 112; 126; 105] ++ [70])%Z))].
Proof.
  apply (polyline_value_is_base32
           [95; 112; 126; 105]%Z [126; 112; 115; 124]%Z 70%Z 85%Z
           [126; 112; 115; 124; 85]%Z).
  - repeat constructor; cbn; lia.
  - lia.
  - cbn; lia.
  - repeat constructor; cbn; lia.
  - lia.
  - cbn; lia.
Defined.

Lemma merge_legs_from (shapes : list (list Z)) :
  forall allCoords,
    allCoords <> [] ->
    exists others,
      Forall2 (fun shape leg => Polyline.decodePolyline6 shape = Some leg)
              shapes others
      /\ fold_left (fun acc shape =>
                      match acc, Polyline.decodePolyline6 shape with
                      | Some allCoords, Some legCoords =>
                          Some (Polyline.merge_leg allCoords legCoords)
                      | _, _ => None
                      end)
                   shapes (Some allCoords)
         = Some (allCoords ++ flat_map (@tl (Q * Q)) others).
Proof.
  induction shapes as [| shape shapes IH]; intros allCoords Hne.
  - exists []. split; [constructor |]. cbn. now rewrite app_nil_r.
  - destruct (decode_loop_total (length shape) shape 0%Z 0%Z (le_n _))
      as (leg & Hleg & _).
    fold (Polyline.decodePolyline6 shape) in Hleg.
    destruct (IH (Polyline.merge_leg allCoords leg)) as (others & Hall & Hfold).
    { unfold Polyline.merge_leg. destruct allCoords; [congruence | discriminate]. }
    exists (leg :: others). split; [now constructor |].
    cbn [fold_left flat_map]. rewrite Hleg, Hfold.
    unfold Polyline.merge_leg.
    destruct allCoords as [| c0 l0]; [congruence |].
    cbn [length Nat.ltb Nat.leb]. now rewrite <- app_assoc.
Qed.

(** X23.  In gravel mode the legs of the trip are decoded one by one and
    joined.  When the first leg is not the empty string, every leg decodes,
    the first to at least one point, and the route is the first leg
    followed by every later leg without its first point, whatever that
    point is. *)
Theorem gravel_legs_joined (shape : list Z) (shapes : list (list Z)) :
  shape <> [] ->
  exists first others,
    Polyline.decodePolyline6 shape = Some first
    /\ first <> []
    /\ Forall2 (fun sh leg => Polyline.decodePolyline6 sh = Some leg)
               shapes others
    /\ Polyline.merge_legs (shape :: shapes)
       = Some (first ++ flat_map (@tl (Q * Q)) others).
Proof.
  intros Hne.
  destruct (decode_loop_total (length shape) shape 0%Z 0%Z (le_n _))
    as (first & Hfirst & _ & Hfne).
  fold (Polyline.decodePolyline6 shape) in Hfirst.
  specialize (Hfne Hne).
  destruct (merge_legs_from shapes first Hfne) as (others & Hall & Hfold).
  exists first, others.
  split; [exact Hfirst |]. split; [exact Hfne |]. split; [exact Hall |].
  unfold Polyline.merge_legs. cbn [fold_left]. rewrite Hfirst.
  unfold Polyline.merge_leg at 2. cbn [length Nat.ltb Nat.leb app]. exact Hfold.
Qed.

Lemma gravel_legs_joined_witness :
  exists first others,
    Polyline.decodePolyline6 [70; 85]%Z = Some first
    /\ first <> []
    /\ Forall2 (fun sh leg => Polyline.decodePolyline6 sh = Some leg)
               [[70; 85]; [65; 67; 69; 71]]%Z others
    /\ Polyline.merge_legs ([70; 85] :: [[70; 85]; [65; 67; 69; 71]])%Z
       = Some (first ++ flat_map (@tl (Q * Q)) others).
Proof.
  apply (gravel_legs_joined [70; 85]%Z [[70; 85]; [65; 67; 69; 71]]%Z).
  discriminate.
Defined.

(** ** Straight mode: the distance statistic and the chart *)

Lemma sample_of_short_path
      (A : Type) (same_ref : A -> A -> bool) (coords : list A) :
  length coords < 2 * Sampler.maxSamples ->
  Sampler.distinct_objects A same_ref coords ->
  Sampler.sample A same_ref coords = Some (coords, seq 0 (length coords)).
Proof.
  intros Hm Hd. unfold Sampler.sample.
  assert (Hstep : Nat.max 1 (length coords / Sampler.maxSamples) = 1).
  { unfold Sampler.maxSamples in *.
    pose proof (Nat.div_mod_eq (length coords) 80).
    pose proof (Nat.mod_upper_bound (length coords) 80 ltac:(lia)). lia. }
  rewrite Hstep, sample_loop_unit_stride by lia.
  cbn [skipn]. rewrite Nat.sub_0_r.
  destruct (nth_error coords (length coords - 1)) as [a |] eqn:Ha;
    [| reflexivity].
  now rewrite (proj2 (Hd _ _ _ _ Ha Ha) eq_refl).
Qed.

Lemma distance_loop_accumulate (rest : list ProfileBuilder.Coord) :
  forall prev acc a0,
    StraightMode.distance_loop prev acc rest
    = (acc + 1000 * (nth (length rest)
                         (a0 :: ProfileBuilder.accumulate prev a0 rest) 0
                     - a0))%R.
Proof.
  induction rest as [| c rest IH]; intros prev acc a0;
    cbn [StraightMode.distance_loop ProfileBuilder.accumulate length].
  - cbn [nth]. ring.
  - rewrite (IH c _ (a0 + GeodesicMath.haversine
                            (ProfileBuilder.lat prev) (ProfileBuilder.lng prev)
                            (ProfileBuilder.lat c) (ProfileBuilder.lng c))%R).
    match goal with
    | |- context [nth (S ?n) (?a :: ?l) ?d] =>
        change (nth (S n) (a :: l) d) with (nth n l d)
    end.
    ring.
Qed.

(** X24.  In straight mode the route is the list of waypoints.  With fewer
    than 160 waypoints every one of them is sampled, and the distance
    statistic, in metres, is 1000 times the last cumulative distance of the
    elevation profile, in kilometres: the chart ends where the statistic
    says the route ends. *)
Theorem straight_distance_matches_profile
        (coordsList : list ProfileBuilder.Coord) :
  length coordsList < 2 * Sampler.maxSamples ->
  NoDup (map ProfileBuilder.ref coordsList) ->
  exists indices,
    Sampler.sample ProfileBuilder.Coord ProfileBuilder.same_ref coordsList
    = Some (coordsList, indices)
    /\ StraightMode.routeDistance coordsList
       = (1000 * nth (length coordsList - 1)
                     (ProfileBuilder.cumulative_distances coordsList) 0)%R.
Proof.
  intros Hm Hnd. eexists. split.
  - apply sample_of_short_path; [exact Hm |].
    now apply ProfileBuilder.distinct_refs.
  - unfold StraightMode.routeDistance, ProfileBuilder.cumulative_distances.
    destruct coordsList as [| c rest]; [cbn; ring |].
    cbn [length]. rewrite Nat.sub_1_r. cbn [Nat.pred].
    rewrite (distance_loop_accumulate rest c 0%R 0%R). ring.
Qed.

Lemma straight_distance_matches_profile_witness :
  let coords := [ProfileBuilder.mkCoord 0 0 0; ProfileBuilder.mkCoord 1 0 1;
                 ProfileBuilder.mkCoord 2 1 1] in
  exists indices,
    Sampler.sample ProfileBuilder.Coord ProfileBuilder.same_ref coords
    = Some (coords, indices)
    /\ StraightMode.routeDistance coords
       = (1000 * nth (length coords - 1)
                     (ProfileBuilder.cumulative_distances coords) 0)%R.
Proof.
  intros coords.
  apply (straight_distance_matches_profile coords).
  - cbn. unfold Sampler.maxSamples. lia.
  - cbn. repeat constructor; cbn; intuition discriminate.
Defined.

(** ** TypeStyle: the label and the colours of a route type *)

(** X25.  The label and the tag colours of a route type fall back
    differently: a type that is neither ['road'] nor ['gravel'] (another
    string, [null], a missing field) is labelled like a road route but
    painted like a gravel route, and the two look different. *)
Theorem unknown_type_label_and_paint_disagree (type : JS.value) :
  type <> JS.Str "road" -> type <> JS.Str "gravel" ->
  TypeStyle.typeLabel type = TypeStyle.typeLabel (JS.Str "road")
  /\ TypeStyle.typeBg type = TypeStyle.typeBg (JS.Str "gravel")
  /\ TypeStyle.typeColor type = TypeStyle.typeColor (JS.Str "gravel")
  /\ TypeStyle.typeLabel (JS.Str "road") <> TypeStyle.typeLabel (JS.Str "gravel")
  /\ TypeStyle.typeBg (JS.Str "road") <> TypeStyle.typeBg (JS.Str "gravel")
  /\ TypeStyle.typeColor (JS.Str "road")
     <> TypeStyle.typeColor (JS.Str "gravel").
Proof.
  intros Hroad Hgravel.
  assert (Hr : TypeStyle.strict_eq_str type "road" = false).
  { destruct type as [| | b | q | s]; try reflexivity.
    cbn. apply String.eqb_neq. congruence. }
  assert (Hg : TypeStyle.strict_eq_str type "gravel" = false).
  { destruct type as [| | b | q | s]; try reflexivity.
    cbn. apply String.eqb_neq. congruence. }
  unfold TypeStyle.typeLabel, TypeStyle.typeBg, TypeStyle.typeColor.
  rewrite Hr, Hg. cbn.
  repeat split; discriminate.
Qed.

Lemma unknown_type_label_and_paint_disagree_witness :
  TypeStyle.typeLabel (JS.Str "mtb") = TypeStyle.typeLabel (JS.Str "road")
  /\ TypeStyle.typeBg (JS.Str "mtb") = TypeStyle.typeBg (JS.Str "gravel")
  /\ TypeStyle.typeColor (JS.Str "mtb") = TypeStyle.typeColor (JS.Str "gravel")
  /\ TypeStyle.typeLabel (JS.Str "road") <> TypeStyle.typeLabel (JS.Str "gravel")
  /\ TypeStyle.typeBg (JS.Str "road") <> TypeStyle.typeBg (JS.Str "gravel")
  /\ TypeStyle.typeColor (JS.Str "road")
     <> TypeStyle.typeColor (JS.Str "gravel").
Proof.
  apply (unknown_type_label_and_paint_disagree (JS.Str "mtb")); discriminate.
Defined.

(** ** GradientSegmenter: a profile without sample positions *)

Section FallbackFacts.

Variable A : Type.
Variable undefined : A.

Lemma map_nth_seq (l : list A) :
  forall k pre,
    length pre = k ->
    map (fun i => nth i (pre ++ l) undefined) (seq k (length l)) = l.
Proof.
  induction l as [| a l IH]; intros k pre Hk; [reflexivity |].
  cbn [length seq map]. f_equal.
  - rewrite app_nth2 by lia. now rewrite Hk, Nat.sub_diag.
  - specialize (IH (S k) (pre ++ [a])).
    rewrite <- app_assoc in IH. apply IH.
    rewrite length_app. cbn. lia.
Qed.

Lemma fallback_stitch (coords : list A) (m : nat) :
  length coords = S (S m) ->
  GradientSegmenter.stitch
    A (map (fun i => [nth i coords undefined; nth (i + 1) coords undefined])
           (seq 0 (S m)))
  = coords.
Proof.
  intros Hlen.
  transitivity (map (fun i => nth i coords undefined) (seq 0 (length coords)));
    [| apply (map_nth_seq coords 0 [] eq_refl)].
  rewrite Hlen. cbn [seq map GradientSegmenter.stitch app Nat.add].
  do 2 f_equal.
  rewrite flat_map_concat_map, map_map. cbn [tl].
  rewrite <- flat_map_concat_map.
  rewrite (flat_map_singletons _ (fun i => nth (i + 1) coords undefined))
    by reflexivity.
  rewrite <- (seq_shift m 1), map_map.
  apply map_ext. intros i. now rewrite Nat.add_1_r.
Qed.

End FallbackFacts.

(** X26.  A profile that carries no sample positions (the first builder
    stores none) is drawn through its samples: with one coordinate per
    elevation the overlay has one feature per pair of neighbouring samples,
    feature [i] is the straight piece from sample [i] to sample [i + 1] with
    the grade of that pair, the full route geometry is not looked at, and the
    pieces laid end to end are the sampled coordinates. *)
Theorem gradient_without_indices_follows_samples
        (A : Type) (undefined : A) (elevs dists : list Q)
        (coords allCoords : list A) :
  2 <= length elevs ->
  length coords = length elevs ->
  exists features,
    GradientSegmenter.applyGradientColoring
      A undefined elevs dists None coords allCoords = Some features
    /\ length features = length elevs - 1
    /\ (forall i f, nth_error features i = Some f ->
          GradientSegmenter.f_coordinates f
          = [nth i coords undefined; nth (i + 1) coords undefined]
          /\ GradientSegmenter.f_grade f
             = GradientSegmenter.segment_grade elevs dists i)
    /\ GradientSegmenter.stitch A
         (map GradientSegmenter.f_coordinates features) = coords.
Proof.
  intros Hn Hlen.
  unfold GradientSegmenter.applyGradientColoring.
  destruct (Nat.ltb_spec (length elevs) 2) as [Hlt | _]; [lia |].
  rewrite (flat_map_singletons
             _ (fun i => GradientSegmenter.mkFeature
                           (GradientSegmenter.segment_grade elevs dists i)
                           [nth i coords undefined;
                            nth (i + 1) coords undefined]))
    by reflexivity.
  eexists. split; [reflexivity |].
  split; [now rewrite length_map, length_seq |].
  split.
  - intros i f Hf.
    rewrite nth_error_map in Hf.
    destruct (nth_error (seq 0 (length elevs - 1)) i) as [k |] eqn:Hk;
      [| discriminate].
    assert (Hi : i < length (seq 0 (length elevs - 1)))
      by (apply nth_error_Some; congruence).
    rewrite length_seq in Hi.
    rewrite (nth_error_nth' _ 0) in Hk by (rewrite length_seq; exact Hi).
    rewrite seq_nth in Hk by exact Hi.
    injection Hk as <-. cbn in Hf. injection Hf as <-. now split.
  - rewrite map_map. cbn [GradientSegmenter.f_coordinates].
    destruct (length elevs) as [| [| m]] eqn:E; try lia.
    replace (S (S m) - 1) with (S m) by lia.
    apply fallback_stitch. congruence.
Qed.

Lemma gradient_without_indices_follows_samples_witness :
  exists features,
    GradientSegmenter.applyGradientColoring
      nat 0 [10; 20; 15]%Q [0; 1; 2]%Q None [7; 8; 9] [] = Some features
    /\ length features = length [10; 20; 15]%Q - 1
    /\ (forall i f, nth_error features i = Some f ->
          GradientSegmenter.f_coordinates f
          = [nth i [7; 8; 9] 0; nth (i + 1) [7; 8; 9] 0]
          /\ GradientSegmenter.f_grade f
             = GradientSegmenter.segment_grade
                 [10; 20; 15]%Q [0; 1; 2]%Q i)
    /\ GradientSegmenter.stitch nat
         (map GradientSegmenter.f_coordinates features) = [7; 8; 9].
Proof.
  apply (gradient_without_indices_follows_samples
           nat 0 [10; 20; 15]%Q [0; 1; 2]%Q [7; 8; 9] []).
  - cbn. lia.
  - reflexivity.
Defined.

(** ** SurfaceCoordinator: cancelled and failed surface requests *)

(** X27.  In every reachable state of the surface lookup at most one
    request is in flight and not cancelled, and it is the one issued last;
    a bar that is shown shows the stored surface data, and that data has a
    breakdown.  The settlement of a cancelled request, and any settlement
    other than the arrival of the body (a response that is not OK, a
    rejected fetch or body read), leaves the stored surface data and the
    bar as they are: a failed surface lookup shows no error and keeps the
    previous bar. *)
Theorem surface_requests_coordinated
        (Coord Data : Type) (has_breakdown : Data -> bool)
        (s : SurfaceCoordinator.State Coord Data) :
  SurfaceCoordinator.reachable Coord Data has_breakdown s ->
  length (SurfaceCoordinator.active s) <= 1
  /\ (forall r, In r (SurfaceCoordinator.active s) ->
                S (SurfaceCoordinator.rid r) = SurfaceCoordinator.next_ctrl s)
  /\ (forall d, SurfaceCoordinator.bar s = Some d ->
                SurfaceCoordinator.routeSurfaceData s = Some d
                /\ has_breakdown d = true)
  /\ (forall r e s',
         In r (SurfaceCoordinator.reqs s) ->
         SurfaceCoordinator.aborted r = true
         \/ (forall d, e <> SurfaceCoordinator.BodyData d) ->
         SurfaceCoordinator.step
           Coord Data has_breakdown s
           (SurfaceCoordinator.SurfSettled (SurfaceCoordinator.rid r) e)
         = Some s' ->
         SurfaceCoordinator.routeSurfaceData s'
         = SurfaceCoordinator.routeSurfaceData s
         /\ SurfaceCoordinator.bar s' = SurfaceCoordinator.bar s
         /\ SurfaceCoordinator.routeGeometry s'
            = SurfaceCoordinator.routeGeometry s).
Proof.
  intros Hs.
  apply SurfaceCoordinator.surf_inv_reachable in Hs.
  destruct Hs as [Hnd Hfr Hc Hl Hb].
  split; [| split; [| split]].
  - apply (SurfaceCoordinator.surf_at_most_one
             (SurfaceCoordinator.reqs s)
             (SurfaceCoordinator.next_ctrl s - 1) Hnd).
    intros r Hr Hab. specialize (Hl r Hr Hab). lia.
  - intros r Hr. apply filter_In in Hr as [Hr Hab].
    apply negb_true_iff in Hab. now apply Hl.
  - exact Hb.
  - intros r e s' Hr Hcase. cbn [SurfaceCoordinator.step].
    rewrite (SurfaceCoordinator.surf_find_by_rid _ _ Hnd Hr).
    unfold SurfaceCoordinator.resume.
    destruct (SurfaceCoordinator.phase r), e as [ok | | d |];
      try discriminate.
    + destruct (negb ok || SurfaceCoordinator.aborted r);
        intros [= <-]; now repeat split.
    + intros [= <-]. now repeat split.
    + destruct (SurfaceCoordinator.aborted r) eqn:Hab.
      * intros [= <-]. now repeat split.
      * destruct Hcase as [Habs | Hne]; [discriminate |].
        now destruct (Hne d).
    + intros [= <-]. now repeat split.
Qed.

Lemma surface_requests_coordinated_witness :
  let step := SurfaceCoordinator.step nat nat (fun d => 0 <? d) in
  let s := {| SurfaceCoordinator.routeGeometry := Some [0; 1; 2];
              SurfaceCoordinator.routeSurfaceData := None;
              SurfaceCoordinator.bar := None;
              SurfaceCoordinator.surfaceAbortController := Some 1;
              SurfaceCoordinator.reqs :=
                [SurfaceCoordinator.mkReq 1 false SurfaceCoordinator.AwaitFetch;
                 SurfaceCoordinator.mkReq 0 true SurfaceCoordinator.AwaitBody];
              SurfaceCoordinator.next_ctrl := 2 |} in
  SurfaceCoordinator.reachable nat nat (fun d => 0 <? d) s
  /\ length (SurfaceCoordinator.active s) <= 1
  /\ forall s',
      step s (SurfaceCoordinator.SurfSettled 0 (SurfaceCoordinator.BodyData 7))
      = Some s' ->
      SurfaceCoordinator.routeSurfaceData s'
      = SurfaceCoordinator.routeSurfaceData s
      /\ SurfaceCoordinator.bar s' = SurfaceCoordinator.bar s
      /\ SurfaceCoordinator.routeGeometry s'
         = SurfaceCoordinator.routeGeometry s.
Proof.
  intros step s.
  assert (Hs : SurfaceCoordinator.reachable nat nat (fun d => 0 <? d) s).
  { exists [SurfaceCoordinator.RouteArrived [0; 1];
            SurfaceCoordinator.SurfSettled
              0 (SurfaceCoordinator.FetchResolved true);
            SurfaceCoordinator.RouteArrived [0; 1; 2]].
    vm_compute. reflexivity. }
  destruct (surface_requests_coordinated nat nat (fun d => 0 <? d) s Hs)
    as (Hone & _ & _ & Hkeep).
  split; [exact Hs |]. split; [exact Hone |].
  intros s'.
  apply (Hkeep (SurfaceCoordinator.mkReq 0 true SurfaceCoordinator.AwaitBody)
               (SurfaceCoordinator.BodyData 7) s').
  - vm_compute. tauto.
  - now left.
Defined.

(** X28.  Clearing the route (or dropping below two waypoints) does not
    cancel the surface request that is in flight.  When its body arrives
    afterwards it is stored and rendered although there is no route any
    more: with a breakdown in it, the bar of the route that was cleared is
    shown. *)
Theorem surface_response_after_clear
        (Coord Data : Type) (has_breakdown : Data -> bool)
        (s : SurfaceCoordinator.State Coord Data)
        (r : SurfaceCoordinator.Req) (d : Data) :
  SurfaceCoordinator.reachable Coord Data has_breakdown s ->
  In r (SurfaceCoordinator.reqs s) ->
  SurfaceCoordinator.aborted r = false ->
  SurfaceCoordinator.phase r = SurfaceCoordinator.AwaitBody ->
  has_breakdown d = true ->
  exists s1 s2,
    SurfaceCoordinator.step Coord Data has_breakdown s
                            SurfaceCoordinator.Cleared = Some s1
    /\ SurfaceCoordinator.bar s1 = None
    /\ SurfaceCoordinator.step
         Coord Data has_breakdown s1
         (SurfaceCoordinator.SurfSettled (SurfaceCoordinator.rid r)
                                         (SurfaceCoordinator.BodyData d))
       = Some s2
    /\ SurfaceCoordinator.routeGeometry s2 = None
    /\ SurfaceCoordinator.routeSurfaceData s2 = Some d
    /\ SurfaceCoordinator.bar s2 = Some d.
Proof.
  intros Hs Hr Hab Hph Hd.
  apply SurfaceCoordinator.surf_inv_reachable in Hs.
  destruct Hs as [Hnd _ _ _ _].
  eexists. eexists. split; [reflexivity |]. split; [reflexivity |].
  cbn [SurfaceCoordinator.step SurfaceCoordinator.reqs].
  rewrite (SurfaceCoordinator.surf_find_by_rid _ _ Hnd Hr).
  unfold SurfaceCoordinator.resume. rewrite Hph, Hab.
  split; [reflexivity |]. cbn.
  unfold SurfaceCoordinator.renderSurfaceBar. rewrite Hd. now repeat split.
Qed.

Lemma surface_response_after_clear_witness :
  let s := {| SurfaceCoordinator.routeGeometry := Some [0; 1];
              SurfaceCoordinator.routeSurfaceData := None;
              SurfaceCoordinator.bar := None;
              SurfaceCoordinator.surfaceAbortController := Some 0;
              SurfaceCoordinator.reqs :=
                [SurfaceCoordinator.mkReq 0 false SurfaceCoordinator.AwaitBody];
              SurfaceCoordinator.next_ctrl := 1 |} in
  SurfaceCoordinator.reachable nat nat (fun d => 0 <? d) s
  /\ exists s1 s2,
      SurfaceCoordinator.step nat nat (fun d => 0 <? d) s
                              SurfaceCoordinator.Cleared = Some s1
      /\ SurfaceCoordinator.bar s1 = None
      /\ SurfaceCoordinator.step
           nat nat (fun d => 0 <? d) s1
           (SurfaceCoordinator.SurfSettled 0 (SurfaceCoordinator.BodyData 7))
         = Some s2
      /\ SurfaceCoordinator.routeGeometry s2 = None
      /\ SurfaceCoordinator.routeSurfaceData s2 = Some 7
      /\ SurfaceCoordinator.bar s2 = Some 7.
Proof.
  intros s.
  assert (Hs : SurfaceCoordinator.reachable nat nat (fun d => 0 <? d) s).
  { exists [SurfaceCoordinator.RouteArrived [0; 1];
            SurfaceCoordinator.SurfSettled
              0 (SurfaceCoordinator.FetchResolved true)].
    vm_compute. reflexivity. }
  split; [exact Hs |].
  apply (surface_response_after_clear
           nat nat (fun d => 0 <? d) s
           (SurfaceCoordinator.mkReq 0 false SurfaceCoordinator.AwaitBody) 7
           Hs).
  - now left.
  - reflexivity.
  - reflexivity.
  - reflexivity.
Defined.

(** ** Sidebar: regions and their routes *)

Lemma str_eqb_eq (a b : Sidebar.jsstring) :
  Sidebar.str_eqb a b = true <-> a = b.
Proof.
  revert b. induction a as [| x a IH]; intros [| y b]; cbn;
    try (split; [discriminate | congruence]); [tauto |].
  rewrite andb_true_iff, N.eqb_eq, IH. split.
  - now intros [-> ->].
  - intros [= -> ->]. now split.
Qed.

Lemma str_eqb_refl (a : Sidebar.jsstring) : Sidebar.str_eqb a a = true.
Proof. now apply str_eqb_eq. Qed.

Lemma str_leb_total (a b : Sidebar.jsstring) :
  Sidebar.str_leb a b = false -> Sidebar.str_leb b a = true.
Proof.
  revert b. induction a as [| x a IH]; intros [| y b]; cbn;
    try discriminate; try reflexivity.
  destruct (N.ltb_spec x y) as [Hlt | Hge]; [discriminate |].
  destruct (N.eqb_spec x y) as [-> | Hne].
  - rewrite N.ltb_irrefl, N.eqb_refl. apply IH.
  - intros _. destruct (N.ltb_spec y x) as [_ | Hle]; [reflexivity | lia].
Qed.

(** Neighbouring entries are in order. *)
Fixpoint ascending (l : list Sidebar.jsstring) : bool :=
  match l with
  | a :: (b :: _) as rest => Sidebar.str_leb a b && ascending rest
  | _ => true
  end.

Lemma insert_ascending (k : Sidebar.jsstring) (l : list Sidebar.jsstring) :
  ascending l = true -> ascending (Sidebar.insert k l) = true.
Proof.
  induction l as [| x l IH]; intros Hl; [reflexivity |].
  cbn [Sidebar.insert].
  destruct (Sidebar.str_leb k x) eqn:Hkx.
  - cbn [ascending]. now rewrite Hkx.
  - apply str_leb_total in Hkx.
    assert (Htail : ascending l = true).
    { destruct l as [| y l]; [reflexivity |].
      cbn [ascending] in Hl. now apply andb_true_iff in Hl. }
    specialize (IH Htail).
    destruct l as [| y l]; cbn [Sidebar.insert] in *.
    + cbn. now rewrite Hkx.
    + destruct (Sidebar.str_leb k y) eqn:Hky.
      * cbn [ascending] in *. now rewrite Hkx.
      * cbn [ascending] in Hl |- *. apply andb_true_iff in Hl as [Hxy _].
        now rewrite Hxy.
Qed.

Lemma sort_ascending (l : list Sidebar.jsstring) :
  ascending (Sidebar.sort l) = true.
Proof.
  induction l as [| x l IH]; [reflexivity |].
  cbn [Sidebar.sort fold_right]. now apply insert_ascending.
Qed.

Lemma insert_In (k x : Sidebar.jsstring) (l : list Sidebar.jsstring) :
  In x (Sidebar.insert k l) <-> x = k \/ In x l.
Proof.
  induction l as [| y l IH]; cbn [Sidebar.insert].
  - cbn. intuition congruence.
  - destruct (Sidebar.str_leb k y); cbn [In] in *; [intuition congruence |].
    rewrite IH. intuition congruence.
Qed.

Lemma sort_In (x : Sidebar.jsstring) (l : list Sidebar.jsstring) :
  In x (Sidebar.sort l) <-> In x l.
Proof.
  induction l as [| y l IH]; [reflexivity |].
  cbn [Sidebar.sort fold_right]. rewrite insert_In.
  fold (Sidebar.sort l). rewrite IH. cbn. intuition congruence.
Qed.

Lemma insert_NoDup (k : Sidebar.jsstring) (l : list Sidebar.jsstring) :
  ~ In k l -> NoDup l -> NoDup (Sidebar.insert k l).
Proof.
  induction l as [| y l IH]; intros Hk Hl; cbn [Sidebar.insert].
  - constructor; [exact Hk | constructor].
  - destruct (Sidebar.str_leb k y); [now constructor |].
    inversion Hl as [| ? ? Hy Hl']; subst.
    constructor.
    + rewrite insert_In. cbn [In] in Hk. intuition congruence.
    + apply IH; [| exact Hl']. cbn [In] in Hk. tauto.
Qed.

Lemma sort_NoDup (l : list Sidebar.jsstring) :
  NoDup l -> NoDup (Sidebar.sort l).
Proof.
  induction l as [| y l IH]; intros Hl; [constructor |].
  inversion Hl as [| ? ? Hy Hl']; subst.
  cbn [Sidebar.sort fold_right]. apply insert_NoDup.
  - fold (Sidebar.sort l). now rewrite sort_In.
  - now apply IH.
Qed.

Lemma push_keys (g : Sidebar.Groups) (k k' : Sidebar.jsstring)
      (r : Sidebar.Route) :
  In k' (map fst (Sidebar.push g k r)) <-> k' = k \/ In k' (map fst g).
Proof.
  induction g as [| [k0 rs] g IH]; cbn [Sidebar.push map fst In].
  - intuition congruence.
  - destruct (Sidebar.str_eqb k0 k) eqn:E; cbn [map fst In].
    + apply str_eqb_eq in E. subst. intuition congruence.
    + rewrite IH. intuition congruence.
Qed.

Lemma push_NoDup (g : Sidebar.Groups) (k : Sidebar.jsstring)
      (r : Sidebar.Route) :
  NoDup (map fst g) -> NoDup (map fst (Sidebar.push g k r)).
Proof.
  induction g as [| [k0 rs] g IH]; intros Hg; cbn [Sidebar.push map fst].
  - constructor; [intros [] | constructor].
  - cbn [map fst] in Hg. inversion Hg as [| ? ? Hk0 Hg']; subst.
    destruct (Sidebar.str_eqb k0 k) eqn:E; cbn [map fst].
    + now constructor.
    + constructor; [| now apply IH].
      rewrite push_keys. intros [-> | Hin]; [| tauto].
      now rewrite str_eqb_refl in E.
Qed.

Lemma push_lookup (g : Sidebar.Groups) (k k' : Sidebar.jsstring)
      (r : Sidebar.Route) :
  Sidebar.lookup (Sidebar.push g k r) k'
  = if Sidebar.str_eqb k k' then Sidebar.lookup g k' ++ [r]
    else Sidebar.lookup g k'.
Proof.
  unfold Sidebar.lookup.
  induction g as [| [k0 rs] g IH]; cbn [Sidebar.push find fst].
  - now destruct (Sidebar.str_eqb k k').
  - destruct (Sidebar.str_eqb k0 k) eqn:E; cbn [find fst].
    + apply str_eqb_eq in E. subst k0.
      now destruct (Sidebar.str_eqb k k').
    + destruct (Sidebar.str_eqb k0 k') eqn:E'; [| exact IH].
      apply str_eqb_eq in E'. subst k0.
      destruct (Sidebar.str_eqb k k') eqn:E2; [| reflexivity].
      apply str_eqb_eq in E2. subst k. now rewrite str_eqb_refl in E.
Qed.

Section SidebarFacts.

Variable toLowerCase : Sidebar.jsstring -> Sidebar.jsstring.
Variable inherited : Sidebar.jsstring -> bool.
Variable activeType : Sidebar.jsstring.
Variable searchTerm : Sidebar.jsstring.

Local Abbreviation keep := (Sidebar.keep toLowerCase activeType searchTerm).
Local Abbreviation filter_routes :=
  (Sidebar.filter_routes toLowerCase activeType searchTerm).
Local Abbreviation group := (Sidebar.group inherited).

Lemma filter_routes_filter (routes : list Sidebar.Route) :
  forall filtered,
    filter_routes routes = Some filtered ->
    filtered = filter (fun r => match keep r with
                                | Some true => true
                                | _ => false
                                end) routes.
Proof.
  induction routes as [| r routes IH]; intros filtered;
    cbn [Sidebar.filter_routes filter].
  - now intros [= <-].
  - destruct (keep r) as [b |]; [| discriminate].
    destruct (filter_routes routes) as [kept |]; [| discriminate].
    intros [= <-]. rewrite (IH kept eq_refl). now destruct b.
Qed.

Lemma group_spec (filtered : list Sidebar.Route) :
  forall g0 g,
    group filtered g0 = Some g ->
    NoDup (map fst g0) ->
    NoDup (map fst g)
    /\ (forall k,
           Sidebar.lookup g k
           = Sidebar.lookup g0 k
             ++ filter (fun r => Sidebar.str_eqb (Sidebar.region_key r) k)
                       filtered)
    /\ (forall k,
           In k (map fst g)
           <-> In k (map fst g0)
               \/ exists r, In r filtered /\ Sidebar.region_key r = k).
Proof.
  clear toLowerCase activeType searchTerm.
  induction filtered as [| r rest IH]; intros g0 g; cbn [Sidebar.group].
  - intros [= <-] Hnd. split; [exact Hnd |]. split.
    + intros k. cbn. now rewrite app_nil_r.
    + intros k. split; [tauto |]. intros [H | (r & [] & _)]. exact H.
  - destruct (inherited (Sidebar.region_key r)); [discriminate |].
    intros Hg Hnd.
    destruct (IH _ _ Hg (push_NoDup g0 (Sidebar.region_key r) r Hnd))
      as (Hnd' & Hlook & Hkeys).
    split; [exact Hnd' |]. split.
    + intros k. rewrite Hlook, push_lookup. cbn [filter].
      destruct (Sidebar.str_eqb (Sidebar.region_key r) k);
        [now rewrite <- app_assoc | reflexivity].
    + intros k. rewrite Hkeys, push_keys. cbn [In]. split.
      * intros [[-> | H] | (r' & Hr' & E)]; eauto.
      * intros [H | (r' & [-> | Hr'] & E)]; eauto.
Qed.

Lemma group_succeeds (filtered : list Sidebar.Route) :
  forall g0,
    (forall r, In r filtered -> inherited (Sidebar.region_key r) = false) ->
    exists g, group filtered g0 = Some g.
Proof.
  induction filtered as [| r rest IH]; intros g0 H; cbn [Sidebar.group].
  - now exists g0.
  - rewrite (H r (or_introl eq_refl)). apply IH.
    intros r' Hr'. apply H. now right.
Qed.

Lemma group_throws (filtered : list Sidebar.Route) :
  forall g0 r,
    In r filtered -> inherited (Sidebar.region_key r) = true ->
    group filtered g0 = None.
Proof.
  induction filtered as [| r0 rest IH]; intros g0 r Hin Hr; [destruct Hin |].
  cbn [Sidebar.group].
  destruct (inherited (Sidebar.region_key r0)) eqn:E; [reflexivity |].
  destruct Hin as [-> | Hin]; [congruence |].
  now apply (IH _ r).
Qed.

End SidebarFacts.

(** X29.  The sidebar of the viewer, when some route passes the filter.
    The routes listed are those of [allRoutes] that pass the type filter and
    the search, in their order.  If one of them has a region named like a
    member of [Object.prototype], or has no name, [buildSidebar] throws.
    Otherwise it lists sections: the headers are the regions of the listed
    routes (['Uncategorized'] for a missing or empty region), in ascending
    order and without repetition, and under each header stand exactly the
    listed routes of that region, at least one, in their order in
    [allRoutes]. *)
Theorem sidebar_groups_routes
        (toLowerCase : Sidebar.jsstring -> Sidebar.jsstring)
        (inherited : Sidebar.jsstring -> bool)
        (activeType searchTerm : Sidebar.jsstring)
        (allRoutes filtered : list Sidebar.Route) :
  Sidebar.filter_routes toLowerCase activeType searchTerm allRoutes
  = Some filtered ->
  filtered <> [] ->
  filtered
  = filter (fun r => match Sidebar.keep toLowerCase activeType searchTerm r with
                     | Some true => true
                     | _ => false
                     end) allRoutes
  /\ ((exists r, In r filtered
                 /\ (inherited (Sidebar.region_key r) = true
                     \/ Sidebar.name r = None)) ->
      Sidebar.buildSidebar toLowerCase inherited activeType searchTerm
                           allRoutes = None)
  /\ ((forall r, In r filtered ->
                 inherited (Sidebar.region_key r) = false
                 /\ Sidebar.name r <> None) ->
      exists sections,
        Sidebar.buildSidebar toLowerCase inherited activeType searchTerm
                             allRoutes = Some (Sidebar.Listing sections)
        /\ ascending (map fst sections) = true
        /\ NoDup (map fst sections)
        /\ (forall h items,
               In (h, items) sections ->
               items <> []
               /\ items
                  = filter (fun r => Sidebar.str_eqb (Sidebar.region_key r) h)
                           filtered)
        /\ (forall r, In r filtered ->
                      In (Sidebar.region_key r) (map fst sections))).
Proof.
  intros Hf Hne.
  assert (Hlen : (length filtered =? 0) = false).
  { apply Nat.eqb_neq. destruct filtered; [congruence | discriminate]. }
  split; [now apply (filter_routes_filter toLowerCase activeType searchTerm) |].
  split.
  - intros (r & Hr & Hbad). unfold Sidebar.buildSidebar.
    rewrite Hf, Hlen. cbn [andb].
    destruct (Sidebar.group inherited filtered []) as [g |] eqn:Hg;
      [| reflexivity].
    destruct (forallb (Sidebar.renders) filtered) eqn:Hall; [| reflexivity].
    exfalso. destruct Hbad as [Hinh | Hname].
    + now rewrite (group_throws inherited filtered [] r Hr Hinh) in Hg.
    + rewrite forallb_forall in Hall. specialize (Hall r Hr).
      unfold Sidebar.renders in Hall. now rewrite Hname in Hall.
  - intros Hok. unfold Sidebar.buildSidebar.
    rewrite Hf, Hlen. cbn [andb].
    destruct (group_succeeds inherited filtered [])
      as (g & Hg); [intros r Hr; now apply Hok |].
    rewrite Hg.
    assert (Hall : forallb Sidebar.renders filtered = true).
    { apply forallb_forall. intros r Hr. unfold Sidebar.renders.
      destruct (Sidebar.name r) eqn:E; [reflexivity |].
      now destruct (proj2 (Hok r Hr)). }
    rewrite Hall.
    destruct (group_spec inherited filtered [] g Hg (NoDup_nil _))
      as (Hnd & Hlook & Hkeys).
    eexists. split; [reflexivity |].
    rewrite map_map. cbn [fst]. rewrite map_id.
    split; [apply sort_ascending |].
    split; [now apply sort_NoDup |].
    split.
    + intros h items Hin. apply in_map_iff in Hin as (k & [= <- <-] & Hk).
      rewrite Hlook. cbn [Sidebar.lookup find app]. split; [| reflexivity].
      apply sort_In, Hkeys in Hk. destruct Hk as [[] | (r & Hr & E)].
      assert (Hin : In r (filter (fun r0 => Sidebar.str_eqb
                                              (Sidebar.region_key r0) k)
                                 filtered)).
      { apply filter_In. split; [exact Hr |]. now apply str_eqb_eq. }
      intros Hnil. now rewrite Hnil in Hin.
    + intros r Hr. apply sort_In, Hkeys. right. now exists r.
Qed.

Lemma sidebar_groups_routes_witness :
  let east := [69; 97; 115; 116]%N in
  let bay := [66; 97; 121]%N in
  let r1 := Sidebar.mkRoute 1 (Some [114]%N) (Some [97]%N) (Some east) in
  let r2 := Sidebar.mkRoute 2 (Some [114]%N) (Some [98]%N) None in
  let r3 := Sidebar.mkRoute 3 (Some [103]%N) (Some [99]%N) (Some bay) in
  let r4 := Sidebar.mkRoute 4 (Some [114]%N) (Some [100]%N) (Some east) in
  let routes := [r1; r2; r3; r4] in
  Sidebar.filter_routes (fun s => s) Sidebar.all [] routes = Some routes
  /\ Sidebar.buildSidebar (fun s => s) (fun _ => false) Sidebar.all [] routes
     = Some (Sidebar.Listing [(bay, [r3]); (east, [r1; r4]);
                              (Sidebar.Uncategorized, [r2])])
  /\ exists sections,
      Sidebar.buildSidebar (fun s => s) (fun _ => false) Sidebar.all [] routes
      = Some (Sidebar.Listing sections)
      /\ ascending (map fst sections) = true
      /\ NoDup (map fst sections)
      /\ (forall h items,
             In (h, items) sections ->
             items <> []
             /\ items
                = filter (fun r => Sidebar.str_eqb (Sidebar.region_key r) h)
                         routes)
      /\ (forall r, In r routes ->
                    In (Sidebar.region_key r) (map fst sections)).
Proof.
  intros east bay r1 r2 r3 r4 routes.
  assert (Hf : Sidebar.filter_routes (fun s => s) Sidebar.all [] routes
               = Some routes) by reflexivity.
  assert (Hne : routes <> []) by discriminate.
  split; [exact Hf |]. split; [vm_compute; reflexivity |].
  apply (sidebar_groups_routes
           (fun s => s) (fun _ => false) Sidebar.all [] routes routes Hf Hne).
  intros r Hr. split; [reflexivity |].
  cbn in Hr. intuition (subst; discriminate).
Defined.

(** ** Format: the distance statistic *)

Lemma round_half_up_near (x : Q) :
  (inject_Z (Qfloor (x + (1 # 2))) - x <= 1 # 2)%Q
  /\ (x - inject_Z (Qfloor (x + (1 # 2))) <= 1 # 2)%Q.
Proof.
  pose proof (Qfloor_le (x + (1 # 2))) as Hlo.
  pose proof (Qlt_floor (x + (1 # 2))) as Hhi.
  rewrite inject_Z_plus in Hhi.
  change (inject_Z 1) with 1%Q in Hhi.
  split; lra.
Qed.

(** X30.  The distance statistic of the builder shows a dash exactly when
    the route distance is not positive.  Otherwise it shows no minus sign,
    and either whole feet, at most 528 and within half a foot of the
    distance, when the distance is below a tenth of a mile, or miles with
    one decimal, at least 0.1 and within a twentieth of a mile of the
    distance: a route is never shown as [0.0 mi]. *)
Theorem stat_distance_rounds_to_nearest (routeDistance : Q) :
  let mi := (routeDistance / 1000 * ChartLayout.KM_TO_MI)%Q in
  match Format.stat_distance routeDistance with
  | None => (routeDistance <= 0)%Q
  | Some (Format.Feet minus n) =>
      (0 < routeDistance)%Q /\ (mi < 1 # 10)%Q /\ minus = false
      /\ (0 <= n <= 528)%Z
      /\ (inject_Z n - mi * 5280 <= 1 # 2)%Q
      /\ (mi * 5280 - inject_Z n <= 1 # 2)%Q
  | Some (Format.Miles minus tenths) =>
      (0 < routeDistance)%Q /\ (1 # 10 <= mi)%Q /\ minus = false
      /\ (1 <= tenths)%Z
      /\ (inject_Z tenths / 10 - mi <= 1 # 20)%Q
      /\ (mi - inject_Z tenths / 10 <= 1 # 20)%Q
  end.
Proof.
  intros mi. unfold Format.stat_distance.
  destruct (Num.ltb 0 routeDistance) eqn:Hpos;
    [| now apply Num.ltb_ge in Hpos].
  apply Num.ltb_lt in Hpos.
  assert (Hmi : (0 < mi)%Q).
  { unfold mi, ChartLayout.KM_TO_MI.
    apply Qmult_lt_0_compat; [| reflexivity].
    apply Qlt_shift_div_l; [reflexivity | lra]. }
  unfold Format.formatDistance. fold mi.
  destruct (Num.ltb mi (1 # 10)) eqn:Hsmall.
  - apply Num.ltb_lt in Hsmall. cbn [Format.toFixed].
    assert (Hx : (0 <= mi * 5280)%Q) by lra.
    assert (Hn : Num.ltb (mi * 5280) 0 = false) by now apply Num.ltb_ge.
    rewrite Hn, (Qabs_pos _ Hx).
    change (inject_Z (10 ^ Z.of_nat 0)) with 1%Q.
    assert (Hfl : Qfloor (mi * 5280 * 1 + (1 # 2))
                  = Qfloor (mi * 5280 + (1 # 2))).
    { apply Qfloor_comp. ring. }
    rewrite Hfl.
    destruct (round_half_up_near (mi * 5280)) as [Hup Hdown].
    repeat (split; [assumption || reflexivity |]).
    split; [| split; assumption].
    split.
    + assert (H : (Qfloor 0 <= Qfloor (mi * 5280 + (1 # 2)))%Z)
        by (apply Qfloor_resp_le; lra).
      exact H.
    + assert (inject_Z (Qfloor (mi * 5280 + (1 # 2))) < inject_Z 529)%Q
        by (change (inject_Z 529) with 529%Q; lra).
      rewrite <- Zlt_Qlt in H. lia.
  - apply Num.ltb_ge in Hsmall. cbn [Format.toFixed].
    assert (Hx : (0 <= mi)%Q) by lra.
    assert (Hn : Num.ltb mi 0 = false) by now apply Num.ltb_ge.
    rewrite Hn, (Qabs_pos _ Hx).
    change (inject_Z (10 ^ Z.of_nat 1)) with 10%Q.
    destruct (round_half_up_near (mi * 10)) as [Hup Hdown].
    repeat (split; [assumption || reflexivity |]).
    split; [| split].
    + assert (H : (Qfloor 1 <= Qfloor (mi * 10 + (1 # 2)))%Z)
        by (apply Qfloor_resp_le; lra).
      exact H.
    + set (n := inject_Z (Qfloor (mi * 10 + (1 # 2)))) in *.
      assert (E : (n / 10 == n * (1 # 10))%Q) by field.
      rewrite E. lra.
    + set (n := inject_Z (Qfloor (mi * 10 + (1 # 2)))) in *.
      assert (E : (n / 10 == n * (1 # 10))%Q) by field.
      rewrite E. lra.
Qed.
